(** * GafferScene::PathMatcher

    A shallow embedding of [GafferScene/PathMatcher.cpp]: the segment matcher
    [Detail::wildcardMatch], the sibling comparator [Detail::Less], the
    trie node [PathMatcher::Node] with its [std::multimap] of children, and
    the three operations [clear], [addPath] and [match] of [PathMatcher].
    Of [Gaffer/FileSystemPath.cpp]: [setFromString], [string],
    [nativeString] and the loop of [property] that names the owner of a
    file sequence.

    Conventions of the embedding.
    - A [std::string] is a [string]; the C view of it ([c_str()], read
      through a [const char *]) ends at the first NUL character, so the
      character functions below treat a ["000"] inside a string exactly as
      they treat the end of the string.
    - [char] is the signed 8-bit type of the x86-64 ABI.
    - The [std::multimap<std::string, Node *, Less>] of the program is the
      red-black tree of libstdc++, embedded in the module [Libstdcxx] with
      its descents, its insertion and its rebalancing: that is the container
      the code runs on.
    - Beside it stands the multimap of the C++ standard: the sequence of
      the entries in iteration order, with [lower_bound], [upper_bound] and
      [insert] as the standard specifies them for a comparator that is a
      strict weak ordering (the first entry not less than the key, the
      first entry greater than it, insertion at the upper bound).  [Less]
      is no strict weak ordering once a key holds [*], and there the tree
      and the sequence part: they hold the entries in different orders and
      return different ranges.  The sequence is the reference the code is
      written against, not the program; the two agree when no key holds
      [*], which is proved below.
    - The tree owns its nodes exclusively, so a [Node *] is embedded as the
      node itself and a write through the pointer as a functional update of
      the entry that holds it. *)

From Stdlib Require Import Bool Arith List Ascii String ZArith NArith Lia Sorted.
Import ListNotations.
Open Scope string_scope.
Open Scope list_scope.

(** ** Characters *)

Definition NUL : ascii := "000"%char.
Definition star : ascii := "*"%char.
Definition slash : ascii := "/"%char.

(** Value of a (signed) [char]. *)
Definition char_value (c : ascii) : Z :=
  let n := Z.of_N (N_of_ascii c) in
  if (n <? 128)%Z then n else (n - 256)%Z.

(** [c1 < c2] on [char]. *)
Definition char_lt (c1 c2 : ascii) : bool :=
  (char_value c1 <? char_value c2)%Z.

(** [*s] for a [const char *] into the buffer of a string. *)
Definition peek (s : string) : ascii :=
  match s with
  | EmptyString => NUL
  | String c _ => c
  end.

(** [s + 1], unless [s] is at the end of the buffer. *)
Definition tail (s : string) : string :=
  match s with
  | EmptyString => EmptyString
  | String _ r => r
  end.

(** ** Filter::Result *)

Inductive Result : Type :=
  | NoMatch
  | DescendantMatch
  | Match.

Definition Result_eqb (a b : Result) : bool :=
  match a, b with
  | NoMatch, NoMatch | DescendantMatch, DescendantMatch | Match, Match => true
  | _, _ => false
  end.

(** Precedence of a result: [Match > DescendantMatch > NoMatch]. *)
Definition precedence (r : Result) : nat :=
  match r with
  | NoMatch => 0
  | DescendantMatch => 1
  | Match => 2
  end.

Definition best (a b : Result) : Result :=
  if Nat.ltb (precedence a) (precedence b) then b else a.

Definition best_of (l : list Result) : Result :=
  fold_right best NoMatch l.

(** ** Supporting code *)

Module Detail.

(** [inline bool wildcardMatch( const char *s, const char *pattern )].
    The outer [while( true )] consumes one pattern character per turn; the
    inner [while( *s != '\0' )] of the general [*] case is the local [loop]. *)
Fixpoint wildcardMatch (s pattern : string) {struct pattern} : bool :=
  match pattern with
  | EmptyString => Ascii.eqb (peek s) NUL
  | String c pattern' =>
      if Ascii.eqb c NUL then Ascii.eqb (peek s) NUL
      else if Ascii.eqb c star then
        if Ascii.eqb (peek pattern') NUL then true
        else
          (fix loop (s : string) : bool :=
             match s with
             | EmptyString => false
             | String x s' =>
                 if Ascii.eqb x NUL then false
                 else if wildcardMatch s pattern' then true
                 else loop s'
             end) s
      else
        match s with
        | EmptyString => false
        | String x s' => if Ascii.eqb x c then wildcardMatch s' pattern' else false
        end
  end.

(** What [Less::operator()] returns once the two cursors have stopped on
    the characters [c1] and [c2]. *)
Definition diverged (c1 c2 : ascii) : bool :=
  if Ascii.eqb c1 star || Ascii.eqb c2 star then false else char_lt c1 c2.

(** [bool Less::operator() ( const std::string &s1, const std::string &s2 )]. *)
Fixpoint Less (s1 s2 : string) {struct s1} : bool :=
  match s1, s2 with
  | String c1 r1, String c2 r2 =>
      if Ascii.eqb c1 c2 && negb (Ascii.eqb c1 NUL) then Less r1 r2
      else diverged c1 c2
  | _, _ => diverged (peek s1) (peek s2)
  end.

End Detail.

(** ** Tokenizer

    [boost::tokenizer< boost::char_separator<char> >] built with
    [boost::char_separator<char>( "/" )]: the only dropped delimiter is
    [/], there is no kept delimiter, and the empty-token policy is the
    constructor's default, [drop_empty_tokens].  Each token is found by
    skipping delimiters and then taking the longest run of other
    characters.  [tok] is the run collected so far. *)
Fixpoint tokens_from (tok : string) (s : string) : list string :=
  match s with
  | EmptyString => if String.eqb tok "" then [] else [tok]
  | String c r =>
      if Ascii.eqb c slash
      then if String.eqb tok "" then tokens_from "" r else tok :: tokens_from "" r
      else tokens_from (tok ++ String c "")%string r
  end.

Definition Tokenizer (path : string) : list string := tokens_from "" path.

(** ** Node implementation, over the multimap of the C++ standard

    The node with its children as the sequence that the standard specifies
    for [std::multimap]: the reference semantics.  It is the program where
    no key holds [*]; with such keys the program is the trie of the module
    [Libstdcxx] below, and differs. *)

#[warnings="-register-all"]
Inductive Node : Type :=
  mkNode { terminator : bool; m_children : list (string * Node) }.

(** [Node()]. *)
Definition newNode : Node := mkNode false [].

Definition ChildMap : Type := list (string * Node).

Fixpoint takeWhile {A} (f : A -> bool) (l : list A) : list A :=
  match l with
  | [] => []
  | x :: r => if f x then x :: takeWhile f r else []
  end.

Fixpoint dropWhile {A} (f : A -> bool) (l : list A) : list A :=
  match l with
  | [] => []
  | x :: r => if f x then dropWhile f r else l
  end.

(** The keys that compare less than [name] / not greater than [name]. *)
Definition key_less (name : string) (e : string * Node) : bool :=
  Detail.Less (fst e) name.
Definition key_not_greater (name : string) (e : string * Node) : bool :=
  negb (Detail.Less name (fst e)).

(** [multimap::lower_bound]: the place of the first entry whose key is not
    less than [name], given as the entries from that place on. *)
Definition lower_bound (name : string) (m : ChildMap) : ChildMap :=
  dropWhile (key_less name) m.

(** [multimap::upper_bound]: the place of the first entry whose key is
    greater than [name]. *)
Definition upper_bound (name : string) (m : ChildMap) : ChildMap :=
  dropWhile (key_not_greater name) m.

(** [multimap::equal_range] as the standard specifies it: the entries from
    [lower_bound] up to [upper_bound], both found by position in the
    sequence.  No entry before the lower bound is greater than [name]
    ([Less] is asymmetric), so these are the entries taken from the lower
    bound for as long as the key is not greater than [name].  The tree of
    libstdc++ finds the bounds by a descent from the root
    ([Libstdcxx.equal_range]); with keys that hold [*] the descent can end
    elsewhere and give another range. *)
Definition equal_range (name : string) (m : ChildMap) : ChildMap :=
  takeWhile (key_not_greater name) (lower_bound name m).

(** [multimap::insert] as the standard specifies it: the new entry goes to
    the upper bound of its key, found by position.  The tree of libstdc++
    puts it where the descent of [_M_get_insert_equal_pos] ends
    ([Libstdcxx.insert_equal]); with keys that hold [*] that can be another
    place, so that the entries come in another order. *)
Definition multimap_insert (name : string) (n : Node) (m : ChildMap) : ChildMap :=
  takeWhile (key_not_greater name) m ++ (name, n) :: upper_bound name m.

(** The first entry of a range whose key is exactly [name]. *)
Fixpoint find_exact (name : string) (range : ChildMap) : option Node :=
  match range with
  | [] => None
  | (key, n) :: range' => if String.eqb key name then Some n else find_exact name range'
  end.

(** [Node *Node::child( const std::string &name )]; [None] is the null
    pointer. *)
Definition child (node : Node) (name : string) : option Node :=
  find_exact name (equal_range name (m_children node)).

(** [ChildMapRange Node::childRange( const std::string &name )]. *)
Definition childRange (node : Node) (name : string) : ChildMap :=
  equal_range name (m_children node).

(** A write through the pointer that [child] returned: the entry that
    held the pointer now holds the node [n']. *)
Fixpoint store_exact (name : string) (n' : Node) (range : ChildMap) : ChildMap :=
  match range with
  | [] => []
  | (key, n) :: range' =>
      if String.eqb key name then (key, n') :: range'
      else (key, n) :: store_exact name n' range'
  end.

Definition store_child (node : Node) (name : string) (n' : Node) : Node :=
  let m := m_children node in
  mkNode (terminator node)
    (takeWhile (key_less name) m
       ++ store_exact name n' (equal_range name m)
       ++ dropWhile (key_not_greater name) (lower_bound name m)).

(** [node->m_children.insert( pair<string, Node *>( name, n' ) )]. *)
Definition insert_child (node : Node) (name : string) (n' : Node) : Node :=
  mkNode (terminator node) (multimap_insert name n' (m_children node)).

(** ** PathMatcher implementation *)

(** [boost::shared_ptr<Node> m_root]; [None] is the empty pointer. *)
Record PathMatcher : Type := mkPathMatcher { m_root : option Node }.

(** [PathMatcher::PathMatcher()]: the body is empty, [m_root] is default
    constructed. *)
Definition PathMatcher_new : PathMatcher := mkPathMatcher None.

(** [void PathMatcher::clear()]. *)
Definition clear (m : PathMatcher) : PathMatcher := mkPathMatcher (Some newNode).

(** [void PathMatcher::matchWalk( node, start, end, result )]: [tokens] are
    the tokens from [start] to [end], and the value returned is the content
    of the reference [result] when the call returns. *)
Fixpoint matchWalk (tokens : list string) (node : Node) (result : Result)
  {struct tokens} : Result :=
  match tokens with
  | [] => if terminator node then Match else DescendantMatch
  | start :: newStart =>
      (fix loop (range : ChildMap) (result : Result) : Result :=
         match range with
         | [] => result
         | (key, n) :: range' =>
             if Detail.wildcardMatch start key then
               let result := matchWalk newStart n result in
               if Result_eqb result Match then result else loop range' result
             else loop range' result
         end) (childRange node start) result
  end.

(** [Filter::Result PathMatcher::match( const std::string &path ) const]. *)
Definition match_ (m : PathMatcher) (path : string) : Result :=
  match m_root m with
  | None => NoMatch
  | Some node => matchWalk (Tokenizer path) node NoMatch
  end.

(** The loop of [addPath], from the node the cursor [node] points to; the
    value is that node after the loop and the final
    [node->terminator = true]. *)
Fixpoint addWalk (tokens : list string) (node : Node) {struct tokens} : Node :=
  match tokens with
  | [] => mkNode true (m_children node)
  | name :: tokens' =>
      match child node name with
      | Some nextNode => store_child node name (addWalk tokens' nextNode)
      | None => insert_child node name (addWalk tokens' newNode)
      end
  end.

(** [void PathMatcher::addPath( const std::string &path )].  With an empty
    [m_root] the first use of [node] dereferences a null pointer; that is
    the outcome [None]. *)
Definition addPath (m : PathMatcher) (path : string) : option PathMatcher :=
  match m_root m with
  | None => None
  | Some node => Some (mkPathMatcher (Some (addWalk (Tokenizer path) node)))
  end.

(** A series of [addPath] calls. *)
Fixpoint addPaths (m : PathMatcher) (paths : list string) : option PathMatcher :=
  match paths with
  | [] => Some m
  | p :: paths' =>
      match addPath m p with
      | None => None
      | Some m' => addPaths m' paths'
      end
  end.

(** [match] after a series of calls that may have failed. *)
Definition match_after (m : option PathMatcher) (path : string) : option Result :=
  option_map (fun m => match_ m path) m.

Definition engine (paths : list string) : option PathMatcher :=
  addPaths (clear PathMatcher_new) paths.

(** ** The multimap as libstdc++ implements it

    [Detail::Less] is not a strict weak ordering (keys [a] and [b] are
    ordered, and each is equivalent to [*]), so the C++ standard does not
    say what [std::multimap] does once such keys meet: the sequence
    semantics above is what the code is written for, and what the program
    does is a matter of the tree it is compiled with.  This module embeds
    the red-black tree of libstdc++ ([bits/stl_tree.h], [tree.cc]):
    [_M_get_insert_equal_pos], [_Rb_tree_insert_and_rebalance],
    [_M_lower_bound], [_M_upper_bound] and [equal_range], and the trie over
    it.  This is the program. *)

Module Libstdcxx.

Inductive Rb_tree_color : Type := _S_red | _S_black.

Inductive Rb_tree (V : Type) : Type :=
  | Nil
  | Rb (color : Rb_tree_color) (left : Rb_tree V) (key : string) (value : V)
       (right : Rb_tree V).
Arguments Nil {V}.
Arguments Rb {V} color left key value right.

Fixpoint size {V} (t : Rb_tree V) : nat :=
  match t with
  | Nil => 0
  | Rb _ l _ _ r => size l + 1 + size r
  end.

(** The entries from [begin()] to [end()]. *)
Fixpoint inorder {V} (t : Rb_tree V) : list (string * V) :=
  match t with
  | Nil => []
  | Rb _ l k v r => inorder l ++ (k, v) :: inorder r
  end.

(** A node seen from one of its children: which child, and the rest of
    the node. *)
Inductive side : Type := Left | Right.

Record parent (V : Type) : Type :=
  mkParent { p_side : side; p_color : Rb_tree_color; p_key : string;
             p_value : V; p_other : Rb_tree V }.
Arguments mkParent {V}.
Arguments p_side {V}.
Arguments p_color {V}.
Arguments p_key {V}.
Arguments p_value {V}.
Arguments p_other {V}.

(** The node [p] with the subtree [x] put back as its child. *)
Definition attach {V} (x : Rb_tree V) (p : parent V) : Rb_tree V :=
  match p_side p with
  | Left => Rb (p_color p) x (p_key p) (p_value p) (p_other p)
  | Right => Rb (p_color p) (p_other p) (p_key p) (p_value p) x
  end.

Definition attach_all {V} (x : Rb_tree V) (path : list (parent V)) : Rb_tree V :=
  fold_left attach path x.

(** [_M_get_insert_equal_pos]: down to the left when the new key is less
    than the key of the node, to the right otherwise; the result is the
    way back from the free place to the root. *)
Fixpoint get_insert_equal_pos {V} (k : string) (x : Rb_tree V)
  (path : list (parent V)) : list (parent V) :=
  match x with
  | Nil => path
  | Rb c l key v r =>
      if Detail.Less k key
      then get_insert_equal_pos k l (mkParent Left c key v r :: path)
      else get_insert_equal_pos k r (mkParent Right c key v l :: path)
  end.

Definition is_red {V} (t : Rb_tree V) : bool :=
  match t with
  | Rb _S_red _ _ _ _ => true
  | _ => false
  end.

Definition set_color {V} (c : Rb_tree_color) (t : Rb_tree V) : Rb_tree V :=
  match t with
  | Nil => Nil
  | Rb _ l k v r => Rb c l k v r
  end.

(** The loop of [_Rb_tree_insert_and_rebalance].  [__x] is the red node
    with children [xl], [xr]; [path] leads from its parent to the root.
    (A red parent is never the root: the root is black after every
    insertion.) *)
Fixpoint rebalance {V} (xl : Rb_tree V) (xk : string) (xv : V) (xr : Rb_tree V)
  (path : list (parent V)) {struct path} : Rb_tree V :=
  let x := Rb _S_red xl xk xv xr in
  match path with
  | [] => x
  | p :: above =>
      match p_color p, above with
      | _S_black, _ => attach_all x path
      | _S_red, [] => attach x p
      | _S_red, xpp :: above' =>
          if is_red (p_other xpp) then
            (* the uncle is red: recolour and go on from the grandparent *)
            let xp := attach x (mkParent (p_side p) _S_black (p_key p) (p_value p) (p_other p)) in
            let y := set_color _S_black (p_other xpp) in
            match p_side xpp with
            | Left => rebalance xp (p_key xpp) (p_value xpp) y above'
            | Right => rebalance y (p_key xpp) (p_value xpp) xp above'
            end
          else
            let y := p_other xpp in
            let top :=
              match p_side xpp, p_side p with
              | Left, Left =>
                  (* rotate_right( xpp ) *)
                  Rb _S_black x (p_key p) (p_value p)
                     (Rb _S_red (p_other p) (p_key xpp) (p_value xpp) y)
              | Left, Right =>
                  (* rotate_left( parent ), rotate_right( xpp ) *)
                  Rb _S_black
                     (Rb _S_red (p_other p) (p_key p) (p_value p) xl) xk xv
                     (Rb _S_red xr (p_key xpp) (p_value xpp) y)
              | Right, Right =>
                  (* rotate_left( xpp ) *)
                  Rb _S_black
                     (Rb _S_red y (p_key xpp) (p_value xpp) (p_other p))
                     (p_key p) (p_value p) x
              | Right, Left =>
                  (* rotate_right( parent ), rotate_left( xpp ) *)
                  Rb _S_black
                     (Rb _S_red y (p_key xpp) (p_value xpp) xl) xk xv
                     (Rb _S_red xr (p_key p) (p_value p) (p_other p))
              end in
            attach_all top above'
      end
  end.

(** [multimap::insert]: [_M_insert_equal], that is the new red node at the
    place found, the rebalancing loop, and [__root->_M_color = _S_black]. *)
Definition insert_equal {V} (k : string) (v : V) (t : Rb_tree V) : Rb_tree V :=
  set_color _S_black (rebalance Nil k v Nil (get_insert_equal_pos k t [])).

(** [_M_lower_bound( __x, __y, __k )].  An iterator is the number of
    entries before it; [first] is that number for the subtree [x]. *)
Fixpoint M_lower_bound {V} (x : Rb_tree V) (first : nat) (y : nat) (k : string) : nat :=
  match x with
  | Nil => y
  | Rb _ l key _ r =>
      if negb (Detail.Less key k)
      then M_lower_bound l first (first + size l) k
      else M_lower_bound r (first + size l + 1) y k
  end.

(** [_M_upper_bound( __x, __y, __k )]. *)
Fixpoint M_upper_bound {V} (x : Rb_tree V) (first : nat) (y : nat) (k : string) : nat :=
  match x with
  | Nil => y
  | Rb _ l key _ r =>
      if Detail.Less k key
      then M_upper_bound l first (first + size l) k
      else M_upper_bound r (first + size l + 1) y k
  end.

(** The loop of [equal_range]. *)
Fixpoint equal_range_from {V} (x : Rb_tree V) (first : nat) (y : nat) (k : string)
  : nat * nat :=
  match x with
  | Nil => (y, y)
  | Rb _ l key _ r =>
      if Detail.Less key k then equal_range_from r (first + size l + 1) y k
      else if Detail.Less k key then equal_range_from l first (first + size l) k
      else (M_lower_bound l first (first + size l) k,
            M_upper_bound r (first + size l + 1) y k)
  end.

Definition equal_range {V} (k : string) (t : Rb_tree V) : nat * nat :=
  equal_range_from t 0 (size t) k.

(** The entries between two iterators. *)
Definition entries {V} (range : nat * nat) (t : Rb_tree V) : list (string * V) :=
  firstn (snd range - fst range) (skipn (fst range) (inorder t)).

(** A write to the value of the entry at an iterator. *)
Fixpoint set_value {V} (i : nat) (v' : V) (t : Rb_tree V) : Rb_tree V :=
  match t with
  | Nil => Nil
  | Rb c l k v r =>
      if Nat.ltb i (size l) then Rb c (set_value i v' l) k v r
      else if Nat.eqb i (size l) then Rb c l k v' r
      else Rb c l k v (set_value (i - size l - 1) v' r)
  end.

(** The iterator and the value of the first entry with the exact key, in
    the entries from the iterator [i] on. *)
Fixpoint find_exact {V} (name : string) (range : list (string * V)) (i : nat)
  : option (nat * V) :=
  match range with
  | [] => None
  | (key, n) :: range' =>
      if String.eqb key name then Some (i, n) else find_exact name range' (S i)
  end.

(** *** The trie *)

#[warnings="-register-all"]
Inductive Node : Type :=
  mkNode { terminator : bool; m_children : Rb_tree Node }.

Definition newNode : Node := mkNode false Nil.

Definition child (node : Node) (name : string) : option (nat * Node) :=
  let range := equal_range name (m_children node) in
  find_exact name (entries range (m_children node)) (fst range).

Definition childRange (node : Node) (name : string) : list (string * Node) :=
  entries (equal_range name (m_children node)) (m_children node).

Fixpoint matchWalk (tokens : list string) (node : Node) (result : Result)
  {struct tokens} : Result :=
  match tokens with
  | [] => if terminator node then Match else DescendantMatch
  | start :: newStart =>
      (fix loop (range : list (string * Node)) (result : Result) : Result :=
         match range with
         | [] => result
         | (key, n) :: range' =>
             if Detail.wildcardMatch start key then
               let result := matchWalk newStart n result in
               if Result_eqb result Match then result else loop range' result
             else loop range' result
         end) (childRange node start) result
  end.

Fixpoint addWalk (tokens : list string) (node : Node) {struct tokens} : Node :=
  match tokens with
  | [] => mkNode true (m_children node)
  | name :: tokens' =>
      match child node name with
      | Some (it, nextNode) =>
          mkNode (terminator node)
            (set_value it (addWalk tokens' nextNode) (m_children node))
      | None =>
          mkNode (terminator node)
            (insert_equal name (addWalk tokens' newNode) (m_children node))
      end
  end.

(** [clear()], then [addPath] for each of [paths]: the root. *)
Definition root_after (paths : list string) : Node :=
  fold_left (fun node path => addWalk (Tokenizer path) node) paths newNode.

(** [match( path )] on the engine whose root is [root]. *)
Definition match_ (root : Node) (path : string) : Result :=
  matchWalk (Tokenizer path) root NoMatch.

(** The [for] loop of [matchWalk], and the walk without the shared
    [result] and the early return. *)
Fixpoint walk_range (start : string) (newStart : list string)
  (range : list (string * Node)) (result : Result) : Result :=
  match range with
  | [] => result
  | (key, n) :: range' =>
      if Detail.wildcardMatch start key then
        let result := matchWalk newStart n result in
        if Result_eqb result Match then result
        else walk_range start newStart range' result
      else walk_range start newStart range' result
  end.

Fixpoint bestWalk (tokens : list string) (node : Node) {struct tokens} : Result :=
  match tokens with
  | [] => if terminator node then Match else DescendantMatch
  | start :: newStart =>
      best_of
        (map (fun e => bestWalk newStart (snd e))
           (filter (fun e => Detail.wildcardMatch start (fst e)) (childRange node start)))
  end.

(** The keys of a tree with their colours, in preorder. *)
Fixpoint shape {V} (t : Rb_tree V) : list (option (Rb_tree_color * string)) :=
  match t with
  | Nil => [None]
  | Rb c l k _ r => Some (c, k) :: shape l ++ shape r
  end.

(** *** Definitions used to state the properties of the tree *)

(** A write to the value of the entry at an index of a sequence. *)
Fixpoint write {V} (i : nat) (v : V) (l : list (string * V)) {struct l}
  : list (string * V) :=
  match l with
  | [] => []
  | (key, v0) :: l' =>
      match i with
      | 0 => (key, v) :: l'
      | S i' => (key, v0) :: write i' v l'
      end
  end.

Section Search.
Context {V : Type} (k : string).

(** The node [f] is on the way of [_M_get_insert_equal_pos] for [k]: left
    of it when [k] is less than its key, right of it otherwise. *)
Definition ic (f : parent V) : Prop :=
  match p_side f with
  | Left => Detail.Less k (p_key f) = true
  | Right => Detail.Less k (p_key f) = false
  end.

(** The offset of an entry in a node, from its offset [o] in the child. *)
Definition off (f : parent V) (o : nat) : nat :=
  match p_side f with
  | Left => o
  | Right => size (p_other f) + 1 + o
  end.

Definition offs (path : list (parent V)) (o : nat) : nat :=
  fold_left (fun o f => off f o) path o.

(** Where a search for [k] that enters a subtree at [first] may begin its
    range before the subtree: [g] for the child, [step f g] for the node
    [f].  (A node to the left of the way whose key is equivalent to [k]
    ends the descent of [equal_range], which then takes the lower bound of
    the left subtree of that node.) *)
Definition step (f : parent V) (g : nat -> option nat) (first : nat) : option nat :=
  match p_side f with
  | Left => g first
  | Right =>
      if Detail.Less (p_key f) k then g (first + size (p_other f) + 1)
      else Some (M_lower_bound (p_other f) first (first + size (p_other f)) k)
  end.

Definition steps (path : list (parent V)) (g : nat -> option nat) : nat -> option nat :=
  fold_left (fun g f => step f g) path g.

(** The iterator after the entry at offset [o] of a subtree of [sz]
    entries that begins at [first]; [y] is the iterator after the subtree. *)
Definition canon (sz o first y : nat) : nat :=
  if Nat.ltb (o + 1) sz then first + o + 1 else y.

(** The iterator at the offset [o]. *)
Definition spot (sz o first y : nat) : nat :=
  if Nat.ltb o sz then first + o else y.

(** The searches for [k] in a subtree [X] that holds the new entry at
    offset [o]: the range ends after the new entry, and begins at it or,
    not after it, at or after what [g] gives. *)
Definition Inv (g : nat -> option nat) (X : Rb_tree V) (o : nat) : Prop :=
  o < size X /\
  (forall first y, M_upper_bound X first y k = canon (size X) o first y) /\
  (forall first y, first + size X <= y ->
     snd (equal_range_from X first y k) = canon (size X) o first y /\
     (fst (equal_range_from X first y k) = first + o \/
      exists lo, g first = Some lo /\
                 lo <= fst (equal_range_from X first y k) /\
                 fst (equal_range_from X first y k) <= first + o)).

(** The searches for [k] in a subtree [X] with the free place for [k] at
    offset [o]: the range ends there, and begins at what [g] gives. *)
Definition InvOld (g : nat -> option nat) (X : Rb_tree V) (o : nat) : Prop :=
  o <= size X /\
  (forall first y, M_upper_bound X first y k = spot (size X) o first y) /\
  (forall first y, first + size X <= y ->
     equal_range_from X first y k =
     (match g first with Some lo => lo | None => spot (size X) o first y end,
      spot (size X) o first y)).

End Search.

End Libstdcxx.

(** ** Definitions used to state the properties *)

(** The segment matcher as the specification words it: at a [*] that is
    not the last pattern character, the rest of the pattern is tried against
    every suffix of the rest of [s], the empty suffix included. *)
Fixpoint wildcardMatchSpec (s pattern : string) {struct pattern} : bool :=
  match pattern with
  | EmptyString => Ascii.eqb (peek s) NUL
  | String c pattern' =>
      if Ascii.eqb c NUL then Ascii.eqb (peek s) NUL
      else if Ascii.eqb c star then
        if Ascii.eqb (peek pattern') NUL then true
        else
          (fix loop (s : string) : bool :=
             match s with
             | EmptyString => wildcardMatchSpec "" pattern'
             | String x s' =>
                 if Ascii.eqb x NUL then wildcardMatchSpec "" pattern'
                 else if wildcardMatchSpec s pattern' then true
                 else loop s'
             end) s
      else
        match s with
        | EmptyString => false
        | String x s' => if Ascii.eqb x c then wildcardMatchSpec s' pattern' else false
        end
  end.

(** The inner loop of the general [*] case of [wildcardMatch], from the
    position [s], with [pattern'] the pattern after the [*]. *)
Fixpoint star_loop (pattern' : string) (s : string) : bool :=
  match s with
  | EmptyString => false
  | String x s' =>
      if Ascii.eqb x NUL then false
      else if Detail.wildcardMatch s pattern' then true
      else star_loop pattern' s'
  end.

(** The same loop in [wildcardMatchSpec]. *)
Fixpoint spec_star_loop (pattern' : string) (s : string) : bool :=
  match s with
  | EmptyString => wildcardMatchSpec "" pattern'
  | String x s' =>
      if Ascii.eqb x NUL then wildcardMatchSpec "" pattern'
      else if wildcardMatchSpec s pattern' then true
      else spec_star_loop pattern' s'
  end.

(** Whether the C string holds nothing but [*]. *)
Fixpoint only_stars (p : string) : bool :=
  match p with
  | EmptyString => true
  | String c r =>
      if Ascii.eqb c NUL then true
      else if Ascii.eqb c star then only_stars r
      else false
  end.

(** Whether the C string ends with two or more [*]. *)
Fixpoint ends_with_two_stars (p : string) : bool :=
  match p with
  | EmptyString => false
  | String c r =>
      if Ascii.eqb c NUL then false
      else if Ascii.eqb c star
           then (negb (Ascii.eqb (peek r) NUL) && only_stars r) || ends_with_two_stars r
           else ends_with_two_stars r
  end.

(** The [for] loop of [matchWalk] over the candidate range, from the
    entry the iterator is at. *)
Fixpoint walk_range (start : string) (newStart : list string) (range : ChildMap)
  (result : Result) : Result :=
  match range with
  | [] => result
  | (key, n) :: range' =>
      if Detail.wildcardMatch start key then
        let result := matchWalk newStart n result in
        if Result_eqb result Match then result
        else walk_range start newStart range' result
      else walk_range start newStart range' result
  end.

(** Splitting on [/] as the specification words it: every delimiter ends a
    segment, so consecutive delimiters give empty segments. *)
Fixpoint segments_from (seg : string) (s : string) : list string :=
  match s with
  | EmptyString => [seg]
  | String c r =>
      if Ascii.eqb c slash then seg :: segments_from "" r
      else segments_from (seg ++ String c "")%string r
  end.

Definition split_on_slash (path : string) : list string := segments_from "" path.

Definition nonempty (t : string) : bool := negb (String.eqb t "").

(** [s.c_str()[i]]. *)
Fixpoint char_at (s : string) (i : nat) : ascii :=
  match i, s with
  | O, _ => peek s
  | S _, EmptyString => NUL
  | S i', String _ r => char_at r i'
  end.

(** Whether the C string holds a [*]. *)
Fixpoint has_star (s : string) : bool :=
  match s with
  | EmptyString => false
  | String c r =>
      if Ascii.eqb c NUL then false
      else if Ascii.eqb c star then true
      else has_star r
  end.

(** The walk without the shared [result] and without the early return: the
    best outcome over the branches of the walk, a branch being a child of
    the candidate range whose key wildcard-matches the head token. *)
Fixpoint bestWalk (tokens : list string) (node : Node) {struct tokens} : Result :=
  match tokens with
  | [] => if terminator node then Match else DescendantMatch
  | start :: newStart =>
      best_of
        (map (fun e => bestWalk newStart (snd e))
           (filter (fun e => Detail.wildcardMatch start (fst e)) (childRange node start)))
  end.

(** [stored node keys]: following the child edges [keys] from [node] leads
    to a terminator. *)
Fixpoint stored (node : Node) (keys : list string) {struct keys} : Prop :=
  match keys with
  | [] => terminator node = true
  | k :: keys' => exists n, In (k, n) (m_children node) /\ stored n keys'
  end.

(** Segment by segment, the query wildcard-matches the pattern. *)
Definition segments_match (query pattern : list string) : Prop :=
  Forall2 (fun s p => Detail.wildcardMatch s p = true) query pattern.

Definition strict_prefix (query pattern : list string) : Prop :=
  exists rest, rest <> [] /\ pattern = query ++ rest.

(** The node that the cursor of [addPath] moves to for the token [name]. *)
Definition nextNode_of (node : Node) (name : string) : Node :=
  match child node name with
  | Some nextNode => nextNode
  | None => newNode
  end.

(** The root after the loop of [addPath] has run for each of [paths]. *)
Definition root_after (paths : list string) (root : Node) : Node :=
  fold_left (fun node path => addWalk (Tokenizer path) node) paths root.

(** *** One-pass forms of the multimap operations

    [started] tells that the scan is at or past the lower bound. *)
Fixpoint range_from (started : bool) (name : string) (m : ChildMap) : ChildMap :=
  match m with
  | [] => []
  | e :: r =>
      if Detail.Less name (fst e) then []
      else if started || negb (Detail.Less (fst e) name)
           then e :: range_from true name r
           else range_from false name r
  end.

Fixpoint store_from (started : bool) (name : string) (n' : Node) (m : ChildMap)
  : ChildMap :=
  match m with
  | [] => []
  | e :: r =>
      if Detail.Less name (fst e) then m
      else if started || negb (Detail.Less (fst e) name)
           then if String.eqb (fst e) name then (fst e, n') :: r
                else e :: store_from true name n' r
           else e :: store_from false name n' r
  end.

Fixpoint sorted_insert (name : string) (n : Node) (m : ChildMap) : ChildMap :=
  match m with
  | [] => [(name, n)]
  | e :: r =>
      if Detail.Less name (fst e) then (name, n) :: m
      else e :: sorted_insert name n r
  end.

(** [replaced name n0 n' e e']: [e'] is [e], or [e] is the entry [(name, n0)]
    and [e'] is [(name, n')]. *)
Definition replaced (name : string) (n0 n' : Node) (e e' : string * Node) : Prop :=
  e' = e \/ (e = (name, n0) /\ e' = (name, n')).

(** ** Further definitions

    *** C strings *)

(** [s.c_str()] read as a C string: the characters before the first NUL. *)
Fixpoint c_str (s : string) : string :=
  match s with
  | EmptyString => EmptyString
  | String c r => if Ascii.eqb c NUL then EmptyString else String c (c_str r)
  end.

(** A string without NUL and without [*]. *)
Fixpoint literal (p : string) : bool :=
  match p with
  | EmptyString => true
  | String c r => negb (Ascii.eqb c NUL) && negb (Ascii.eqb c star) && literal r
  end.

(** A string of 7-bit characters. *)
Fixpoint ascii7 (s : string) : bool :=
  match s with
  | EmptyString => true
  | String c r => N.ltb (N_of_ascii c) 128 && ascii7 r
  end.

(** Whether the character occurs in the string. *)
Fixpoint mentions (c : ascii) (s : string) : bool :=
  match s with
  | EmptyString => false
  | String x r => Ascii.eqb x c || mentions c r
  end.

(** ** Gaffer::FileSystemPath

    [FileSystemPath::setFromString], [string] and [nativeString] read and
    write the root and the names of the [Gaffer::Path] they extend; the
    signal [pathChanged] is the flag that [setFromString] returns.  The
    libraries are embedded by what they document: [boost::regex_match]
    matches the whole string and [boost::regex_search] a part of it, with
    [^] at the start of the text or of a line; [IECore::StringAlgo::tokenize]
    gives the non-empty tokens between separators. *)

Module FileSystemPath.

Definition backslash : ascii := "\"%char.
Definition colon : ascii := ":"%char.

(** The state of a [Gaffer::Path] that [FileSystemPath] reads and writes:
    [root()] and [names()]. *)
Record Path : Type := mkPath { root : string; names : list string }.

(** [[A-Za-z]]. *)
Definition is_letter (c : ascii) : bool :=
  let n := N_of_ascii c in
  (N.leb 65 n && N.leb n 90) || (N.leb 97 n && N.leb n 122).

(** [boost::regex_match( s, driveLetterPattern )], the pattern being
    [^([A-Za-z]{1}:)]: the whole of [s] is a letter and a colon. *)
Definition drive_letter_match (s : string) : bool :=
  match s with
  | String c (String d EmptyString) => is_letter c && Ascii.eqb d colon
  | _ => false
  end.

(** The characters after which Boost.Regex lets [^] match inside the text
    (line feed, carriage return, form feed): its default is Perl's
    [m]-modifier. *)
Definition is_separator (c : ascii) : bool :=
  let n := N_of_ascii c in N.eqb n 10 || N.eqb n 13 || N.eqb n 12.

(** [boost::regex_search( s, driveLetterPattern )]: a letter and a colon at
    the start of [s] or of a line of [s]. *)
Fixpoint drive_letter_search_from (line_start : bool) (s : string) : bool :=
  match s with
  | EmptyString => false
  | String c r =>
      (line_start && is_letter c && Ascii.eqb (peek r) colon)
      || drive_letter_search_from (is_separator c) r
  end.

Definition drive_letter_search (s : string) : bool := drive_letter_search_from true s.

(** [std::string FileSystemPath::string() const]. *)
Definition string_ (p : Path) : string :=
  (root p ++ (if drive_letter_match (root p) then "/" else "")
          ++ String.concat "/" (names p))%string.

(** [std::string FileSystemPath::nativeString() const]; [msvc] tells
    whether [_MSC_VER] is defined. *)
Definition nativeString (msvc : bool) (p : Path) : string :=
  let separator := if msvc then "\" else "/" in
  (root p ++ (if drive_letter_match (root p) then separator else "")
          ++ String.concat separator (names p))%string.

(** [boost::replace_all] of one character by another. *)
Fixpoint replace_char (from to : ascii) (s : string) : string :=
  match s with
  | EmptyString => EmptyString
  | String c r => String (if Ascii.eqb c from then to else c) (replace_char from to r)
  end.

(** [sanitizedString] after the three statements that build it: the copy
    of [string.c_str()], the UNC prefix replaced by one separator, every
    backslash replaced by a slash. *)
Definition sanitize (s : string) : string :=
  let s0 := c_str s in
  let s1 :=
    match s0 with
    | String a (String b r) =>
        if Ascii.eqb a backslash && Ascii.eqb b backslash then String slash r else s0
    | _ => s0
    end in
  replace_char backslash slash s1.

(** [IECore::StringAlgo::tokenize( s, '/', out )]: the non-empty runs of
    characters between separators, in sequence. *)
Definition tokenize (s : string) : list string := tokens_from "" s.

Fixpoint names_eqb (a b : list string) : bool :=
  match a, b with
  | [], [] => true
  | x :: a', y :: b' => String.eqb x y && names_eqb a' b'
  | _, _ => false
  end.

(** [newRoot] and [newNames] where [setFromString] compares them with the
    path; [None] when [newNames[0]] is read from an empty vector. *)
Definition parse (s : string) : option (string * list string) :=
  let newNames := tokenize (sanitize s) in
  match s with
  | EmptyString => Some ("", newNames)
  | String c _ =>
      if Ascii.eqb c slash then Some ("/", newNames)
      else
        match newNames with
        | [] => None
        | n0 :: rest =>
            if drive_letter_search n0 then Some (n0, rest) else Some ("", newNames)
        end
  end.

(** [void FileSystemPath::setFromString( const std::string &string )]: the
    path after the call and whether [pathChanged] was emitted. *)
Definition setFromString (p : Path) (s : string) : option (Path * bool) :=
  match parse s with
  | None => None
  | Some (newRoot, newNames) =>
      if String.eqb newRoot (root p) && names_eqb newNames (names p)
      then Some (p, false)
      else Some (mkPath newRoot newNames, true)
  end.

(** The loop of [property] for the owner (or the group) of a file
    sequence: [values] are the owners of the files in order,
    [ownerCounter] the [std::map] from owner to count ([size_t]). *)
Definition size_t_wrap (n : N) : N := (n mod 2 ^ 64)%N.

Fixpoint count_of (value : string) (ownerCounter : list (string * N)) : option N :=
  match ownerCounter with
  | [] => None
  | (key, n) :: rest => if String.eqb key value then Some n else count_of value rest
  end.

(** [oIt = ownerCounter.insert( pair( value, 0 ) ); oIt.first->second++]. *)
Fixpoint insert_and_increment (value : string) (ownerCounter : list (string * N))
  : list (string * N) :=
  match ownerCounter with
  | [] => [(value, size_t_wrap (0 + 1))]
  | (key, n) :: rest =>
      if String.eqb key value then (key, size_t_wrap (n + 1)) :: rest
      else (key, n) :: insert_and_increment value rest
  end.

Fixpoint mostCommon_loop (values : list string) (ownerCounter : list (string * N))
  (maxCount : N) (mostCommon : string) : string :=
  match values with
  | [] => mostCommon
  | value :: rest =>
      let ownerCounter := insert_and_increment value ownerCounter in
      let count := match count_of value ownerCounter with Some n => n | None => 0%N end in
      mostCommon_loop rest ownerCounter maxCount
        (if N.ltb maxCount count then value else mostCommon)
  end.

Definition mostCommon (values : list string) : string :=
  mostCommon_loop values [] 0%N "".

(** Whether a string holds nothing but separators of either kind. *)
Fixpoint separators_only (s : string) : bool :=
  match s with
  | EmptyString => true
  | String c r => (Ascii.eqb c slash || Ascii.eqb c backslash) && separators_only r
  end.

(** A name that [string()] and [setFromString] carry unchanged. *)
Definition plain_name (t : string) : bool :=
  negb (String.eqb t "") && negb (mentions slash t) && negb (mentions backslash t)
  && negb (mentions NUL t).

(** The paths that [setFromString] can make from a string that
    [string()] gives back. *)
Definition canonical (p : Path) : bool :=
  forallb plain_name (names p)
  && (String.eqb (root p) "/"
      || drive_letter_match (root p)
      || (String.eqb (root p) ""
          && match names p with
             | [] => true
             | n0 :: _ => negb (drive_letter_search n0)
             end)).

End FileSystemPath.

(** ** Definitions used to state the further properties *)

(** [stored node keys]: following the child edges [keys] from [node] leads
    to a terminator. *)
Fixpoint Libstdcxx_stored (node : Libstdcxx.Node) (keys : list string) {struct keys} : Prop :=
  match keys with
  | [] => Libstdcxx.terminator node = true
  | k :: keys' =>
      exists n, In (k, n) (Libstdcxx.inorder (Libstdcxx.m_children node)) /\ Libstdcxx_stored n keys'
  end.

(** [reachable node keys]: the child edges [keys] can be followed from
    [node]. *)
Fixpoint Libstdcxx_reachable (node : Libstdcxx.Node) (keys : list string) {struct keys} : Prop :=
  match keys with
  | [] => True
  | k :: keys' =>
      exists n, In (k, n) (Libstdcxx.inorder (Libstdcxx.m_children node)) /\ Libstdcxx_reachable n keys'
  end.

Fixpoint reachable (node : Node) (keys : list string) {struct keys} : Prop :=
  match keys with
  | [] => True
  | k :: keys' => exists n, In (k, n) (m_children node) /\ reachable n keys'
  end.

(** The node that the cursor of [addPath] moves to for the token [name]. *)
Definition Libstdcxx_nextNode_of (node : Libstdcxx.Node) (name : string) : Libstdcxx.Node :=
  match Libstdcxx.child node name with
  | Some (_, nextNode) => nextNode
  | None => Libstdcxx.newNode
  end.

(** No later key is less than an earlier one. *)
Definition key_sorted {V} (l : list (string * V)) : Prop :=
  StronglySorted (fun e1 e2 => Detail.Less (fst e2) (fst e1) = false) l.

(** No key holds a [*]. *)
Definition plain_keys {V} (l : list (string * V)) : Prop :=
  Forall (fun e => has_star (fst e) = false) l.

(** The entries whose key is less than [k] / is not greater than [k]. *)
Definition less_than {V} (k : string) (e : string * V) : bool :=
  Detail.Less (fst e) k.
Definition not_greater_than {V} (k : string) (e : string * V) : bool :=
  negb (Detail.Less k (fst e)).

(** A trie in which, at every node, no key holds a [*] and the entries are
    in the order of their keys. *)
#[warnings="-register-all"]
Inductive plain_trie : Node -> Prop :=
  | plain_trie_node (t : bool) (m : ChildMap) :
      key_sorted m -> plain_keys m ->
      Forall (fun e => plain_trie (snd e)) m ->
      plain_trie (mkNode t m).

(** The node of the tree of libstdc++ as the sequence of its entries. *)
Fixpoint flatten (node : Libstdcxx.Node) : Node :=
  match node with
  | Libstdcxx.mkNode t c =>
      mkNode t
        ((fix go (x : Libstdcxx.Rb_tree Libstdcxx.Node) : ChildMap :=
            match x with
            | Libstdcxx.Nil => []
            | Libstdcxx.Rb _ l k v r => go l ++ (k, flatten v) :: go r
            end) c)
  end.

Definition flatten_entry (e : string * Libstdcxx.Node) : string * Node :=
  (fst e, flatten (snd e)).

(** * Properties *)

(** ** Results and their precedence *)

Lemma Result_eqb_eq (a b : Result) : Result_eqb a b = true <-> a = b.
Proof. destruct a, b; simpl; split; congruence. Qed.

Lemma best_NoMatch_l (r : Result) : best NoMatch r = r.
Proof. destruct r; reflexivity. Qed.

Lemma best_NoMatch_r (r : Result) : best r NoMatch = r.
Proof. destruct r; reflexivity. Qed.

Lemma best_Match_l (r : Result) : best Match r = Match.
Proof. destruct r; reflexivity. Qed.

Lemma best_assoc (a b c : Result) : best a (best b c) = best (best a b) c.
Proof. destruct a, b, c; reflexivity. Qed.

Lemma precedence_best (a b : Result) :
  precedence (best a b) = Nat.max (precedence a) (precedence b).
Proof. destruct a, b; reflexivity. Qed.

Lemma precedence_le_Match (r : Result) : precedence r <= precedence Match.
Proof. destruct r; simpl; lia. Qed.

Lemma precedence_inj (a b : Result) : precedence a = precedence b -> a = b.
Proof. destruct a, b; simpl; congruence. Qed.

(** [r] is reached by [best_of l] exactly when some member of [l] reaches it. *)
Lemma best_of_reaches (r : Result) (l : list Result) :
  r <> NoMatch ->
  (precedence r <= precedence (best_of l) <->
   exists x, In x l /\ precedence r <= precedence x).
Proof.
  intros Hr. induction l as [|y l IH]; simpl.
  - split.
    + destruct r; simpl; intros; try lia; congruence.
    + intros [x [[] _]].
  - rewrite precedence_best. split.
    + intros H. destruct (Nat.max_spec (precedence y) (precedence (best_of l)))
        as [[_ E]|[_ E]]; rewrite E in H.
      * apply IH in H. destruct H as [x [Hx Hle]]. exists x; auto.
      * exists y; auto.
    + intros [x [[->|Hx] Hle]]; [lia|].
      assert (precedence r <= precedence (best_of l)) by (apply IH; eauto). lia.
Qed.

(** ** The comparator *)

Section Comparator.
Import Detail.

Lemma char_lt_irrefl (c : ascii) : char_lt c c = false.
Proof. unfold char_lt. apply Z.ltb_irrefl. Qed.

Lemma char_lt_trans (a b c : ascii) :
  char_lt a b = true -> char_lt b c = true -> char_lt a c = true.
Proof. unfold char_lt. rewrite !Z.ltb_lt. lia. Qed.

Lemma char_lt_asym (a b : ascii) : char_lt a b = true -> char_lt b a = false.
Proof. unfold char_lt. rewrite Z.ltb_lt, Z.ltb_ge. lia. Qed.

Lemma diverged_true (a b : ascii) :
  diverged a b = true <-> a <> star /\ b <> star /\ char_lt a b = true.
Proof.
  unfold diverged.
  destruct (Ascii.eqb_spec a star), (Ascii.eqb_spec b star); simpl;
    intuition congruence.
Qed.

(** One turn of the loop of [Less]. *)
Lemma Less_step (s1 s2 : string) :
  Less s1 s2 =
  if Ascii.eqb (peek s1) (peek s2) && negb (Ascii.eqb (peek s1) NUL)
  then Less (tail s1) (tail s2)
  else diverged (peek s1) (peek s2).
Proof.
  destruct s1 as [|c1 r1], s2 as [|c2 r2]; simpl; try reflexivity.
  - rewrite andb_false_r. reflexivity.
  - destruct (Ascii.eqb c1 NUL); reflexivity.
Qed.

Lemma diverged_irrefl (c : ascii) : diverged c c = false.
Proof. unfold diverged. rewrite char_lt_irrefl. destruct (_ || _); reflexivity. Qed.

Lemma Less_cases (s1 s2 : string) :
  Less s1 s2 = true <->
  (peek s1 = peek s2 /\ peek s1 <> NUL /\ Less (tail s1) (tail s2) = true) \/
  (peek s1 <> peek s2 /\ diverged (peek s1) (peek s2) = true).
Proof.
  rewrite Less_step.
  destruct (Ascii.eqb_spec (peek s1) (peek s2)) as [E|E];
    destruct (Ascii.eqb_spec (peek s1) NUL) as [Z|Z]; simpl.
  - rewrite E, diverged_irrefl. intuition congruence.
  - intuition congruence.
  - intuition congruence.
  - intuition congruence.
Qed.

Lemma Less_irrefl (s : string) : Less s s = false.
Proof.
  induction s as [|c r IH]; simpl.
  - reflexivity.
  - rewrite Ascii.eqb_refl. simpl.
    destruct (Ascii.eqb c NUL); simpl; auto using diverged_irrefl.
Qed.

Lemma Less_trans (a b c : string) :
  Less a b = true -> Less b c = true -> Less a c = true.
Proof.
  revert b c. induction a as [|x a IH]; intros b c H1 H2;
    apply Less_cases in H1; apply Less_cases in H2; apply Less_cases;
    simpl peek in *; simpl tail in *.
  - destruct H1 as [(_ & N & _)|(N1 & D1)]; [congruence|].
    apply diverged_true in D1. destruct D1 as (S1 & S2 & L1).
    destruct H2 as [(E & _ & _)|(N2 & D2)].
    + right. rewrite <- E. split; [assumption|]. apply diverged_true; auto.
    + apply diverged_true in D2. destruct D2 as (_ & S3 & L2).
      assert (L3 := char_lt_trans _ _ _ L1 L2).
      right. split.
      * intros E. rewrite E, char_lt_irrefl in L3. discriminate.
      * apply diverged_true; auto.
  - destruct H1 as [(E1 & N1 & L1)|(N1 & D1)].
    + destruct H2 as [(E2 & N2 & L2)|(N2 & D2)].
      * left. repeat split; try congruence. eauto.
      * right. rewrite E1. auto.
    + apply diverged_true in D1. destruct D1 as (S1 & S2 & L1).
      destruct H2 as [(E & _ & _)|(N2 & D2)].
      * right. rewrite <- E. split; [assumption|]. apply diverged_true; auto.
      * apply diverged_true in D2. destruct D2 as (_ & S3 & L2).
        assert (L3 := char_lt_trans _ _ _ L1 L2).
        right. split.
        -- intros E. rewrite E, char_lt_irrefl in L3. discriminate.
        -- apply diverged_true; auto.
Qed.

Lemma Less_asym (a b : string) : Less a b = true -> Less b a = false.
Proof.
  intros H. destruct (Less b a) eqn:E; [|reflexivity].
  rewrite <- (Less_irrefl a). symmetry. eapply Less_trans; eauto.
Qed.

(** [Less] stops at the first place where the two strings differ, or at
    their common end. *)
Lemma Less_first_divergence (i : nat) : forall a b : string,
  (forall j, j < i -> char_at a j = char_at b j /\ char_at a j <> NUL) ->
  char_at a i <> char_at b i ->
  Less a b = diverged (char_at a i) (char_at b i).
Proof.
  induction i as [|i IH]; intros a b Hpre Hdiff; rewrite Less_step.
  - assert (E0 : forall s, char_at s 0 = peek s) by (intros []; reflexivity).
    rewrite !E0 in *.
    destruct (Ascii.eqb_spec (peek a) (peek b)) as [E|E]; [congruence|reflexivity].
  - destruct (Hpre 0) as [E0 N0]; [lia|]. simpl in E0, N0.
    destruct a as [|x a]; [simpl in N0; congruence|].
    destruct b as [|y b]; [simpl in *; congruence|].
    simpl in *. subst y. rewrite Ascii.eqb_refl.
    destruct (Ascii.eqb_spec x NUL); [contradiction|]. simpl.
    apply IH; [|assumption].
    intros j Hj. apply (Hpre (S j)). lia.
Qed.

(** C8. At the first position where [a] and [b] diverge after their common
    prefix, [Less] declares neither [a < b] nor [b < a] when either string
    has [*] there; when neither diverging character is [*], [Less] orders
    [a] and [b] by the ordering of those two characters. *)
Theorem Less_at_divergence (a b : string) (i : nat) :
  (forall j, j < i -> char_at a j = char_at b j /\ char_at a j <> NUL) ->
  char_at a i <> char_at b i ->
  (char_at a i = star \/ char_at b i = star ->
     Less a b = false /\ Less b a = false) /\
  (char_at a i <> star -> char_at b i <> star ->
     Less a b = char_lt (char_at a i) (char_at b i) /\
     Less b a = char_lt (char_at b i) (char_at a i)).
Proof.
  intros Hpre Hdiff.
  assert (Hab := Less_first_divergence i a b Hpre Hdiff).
  assert (Hba : Less b a = diverged (char_at b i) (char_at a i)).
  { apply Less_first_divergence; [|congruence].
    intros j Hj. destruct (Hpre j Hj) as [E N]. split; congruence. }
  rewrite Hab, Hba. unfold diverged. split.
  - intros [->| ->]; rewrite Ascii.eqb_refl, ?orb_true_r; auto.
  - intros Sa Sb.
    destruct (Ascii.eqb_spec (char_at a i) star); [contradiction|].
    destruct (Ascii.eqb_spec (char_at b i) star); [contradiction|].
    auto.
Qed.

Lemma Less_at_divergence_witness :
  (Less "ab*" "abc" = false /\ Less "abc" "ab*" = false) /\
  (Less "abd" "abc" = false /\ Less "abc" "abd" = true).
Proof.
  split.
  - apply (Less_at_divergence "ab*" "abc" 2).
    + intros [|[|j]] Hj; try lia; simpl; (split; [reflexivity|discriminate]).
    + simpl. discriminate.
    + left. reflexivity.
  - apply (Less_at_divergence "abd" "abc" 2).
    + intros [|[|j]] Hj; try lia; simpl; (split; [reflexivity|discriminate]).
    + simpl. discriminate.
    + simpl. discriminate.
    + simpl. discriminate.
Defined.

End Comparator.

(** ** The segment matcher *)

Section SegmentMatcher.
Import Detail.

(** One turn of the outer loop of [wildcardMatch]. *)
Lemma wildcardMatch_step (s : string) (c : ascii) (pattern' : string) :
  wildcardMatch s (String c pattern') =
  if Ascii.eqb c NUL then Ascii.eqb (peek s) NUL
  else if Ascii.eqb c star then
    if Ascii.eqb (peek pattern') NUL then true else star_loop pattern' s
  else match s with
       | EmptyString => false
       | String x s' => if Ascii.eqb x c then wildcardMatch s' pattern' else false
       end.
Proof.
  simpl. destruct (Ascii.eqb c NUL); [reflexivity|].
  destruct (Ascii.eqb c star); [|reflexivity].
  destruct (Ascii.eqb (peek pattern') NUL); [reflexivity|].
  induction s as [|x s' IH]; [reflexivity|].
  simpl. rewrite IH. reflexivity.
Qed.

(** Every string matches itself, whatever it holds. *)
Lemma wildcardMatch_refl (s : string) : wildcardMatch s s = true.
Proof.
  induction s as [|c r IH]; [reflexivity|].
  rewrite wildcardMatch_step. simpl.
  destruct (Ascii.eqb_spec c NUL) as [Z|Z]; [reflexivity|].
  destruct (Ascii.eqb_spec c star) as [S|S].
  - destruct (Ascii.eqb_spec (peek r) NUL) as [E|E]; [reflexivity|].
    destruct (Ascii.eqb_spec c NUL); [contradiction|].
    destruct (wildcardMatch (String c r) r); [reflexivity|].
    destruct r as [|y r']; [simpl in E; congruence|].
    simpl in E. cbn [star_loop].
    destruct (Ascii.eqb_spec y NUL); [contradiction|].
    rewrite IH. reflexivity.
  - rewrite Ascii.eqb_refl. exact IH.
Qed.

(** A segment without [*] that matches a key is neither less nor greater
    than the key. *)
Lemma wildcardMatch_equivalent (pattern : string) : forall s : string,
  wildcardMatch s pattern = true -> has_star s = false ->
  Less s pattern = false /\ Less pattern s = false.
Proof.
  assert (Hend : forall s p, peek s = NUL -> peek p = NUL ->
                 Less s p = false /\ Less p s = false).
  { intros s p Hs Hp. rewrite (Less_step s p), (Less_step p s), Hs, Hp.
    split; reflexivity. }
  induction pattern as [|c p IH]; intros s Hm Hs.
  - simpl in Hm. apply Ascii.eqb_eq in Hm. apply Hend; auto.
  - rewrite wildcardMatch_step in Hm.
    destruct (Ascii.eqb_spec c NUL) as [Z|Z].
    + apply Ascii.eqb_eq in Hm. apply Hend; auto.
    + destruct (Ascii.eqb_spec c star) as [S|S].
      * subst c. assert (Hp : peek s <> star).
        { destruct s as [|x s']; simpl; [discriminate|].
          intros E. subst x. simpl in Hs. discriminate. }
        rewrite (Less_step s), (Less_step _ s). simpl peek.
        destruct (Ascii.eqb_spec (peek s) star); [contradiction|].
        destruct (Ascii.eqb_spec star (peek s)); [congruence|].
        simpl. unfold diverged. rewrite Ascii.eqb_refl, orb_true_r. auto.
      * destruct s as [|x s']; [discriminate|].
        destruct (Ascii.eqb_spec x c) as [E|E]; [subst x|discriminate].
        simpl in Hs.
        destruct (Ascii.eqb_spec c NUL); [contradiction|].
        destruct (Ascii.eqb_spec c star); [contradiction|].
        simpl. rewrite Ascii.eqb_refl.
        destruct (Ascii.eqb_spec c NUL); [contradiction|].
        simpl. apply IH; assumption.
Qed.

Lemma wildcardMatchSpec_step (s : string) (c : ascii) (pattern' : string) :
  wildcardMatchSpec s (String c pattern') =
  if Ascii.eqb c NUL then Ascii.eqb (peek s) NUL
  else if Ascii.eqb c star then
    if Ascii.eqb (peek pattern') NUL then true else spec_star_loop pattern' s
  else match s with
       | EmptyString => false
       | String x s' => if Ascii.eqb x c then wildcardMatchSpec s' pattern' else false
       end.
Proof.
  simpl. destruct (Ascii.eqb c NUL); [reflexivity|].
  destruct (Ascii.eqb c star); [|reflexivity].
  destruct (Ascii.eqb (peek pattern') NUL); [reflexivity|].
  induction s as [|x s' IH]; [reflexivity|].
  simpl. rewrite IH. reflexivity.
Qed.

Lemma only_stars_end (p : string) : peek p = NUL -> only_stars p = true.
Proof. destruct p as [|c r]; simpl; [reflexivity|]. intros ->. reflexivity. Qed.

(** Against the empty segment, the matcher of the specification accepts
    the patterns made of [*] only. *)
Lemma wildcardMatchSpec_empty (pattern : string) :
  wildcardMatchSpec "" pattern = only_stars pattern.
Proof.
  induction pattern as [|c p IH]; [reflexivity|].
  rewrite wildcardMatchSpec_step. simpl.
  destruct (Ascii.eqb c NUL); [reflexivity|].
  destruct (Ascii.eqb c star); [|reflexivity].
  destruct (Ascii.eqb_spec (peek p) NUL) as [E|E]; [|exact IH].
  symmetry. apply only_stars_end. exact E.
Qed.

(** What the code accepts, the matcher of the specification accepts. *)
Lemma wildcardMatch_sound (pattern : string) : forall s : string,
  wildcardMatch s pattern = true -> wildcardMatchSpec s pattern = true.
Proof.
  induction pattern as [|c p IH]; intros s; [auto|].
  rewrite wildcardMatch_step, wildcardMatchSpec_step.
  destruct (Ascii.eqb c NUL); [auto|].
  destruct (Ascii.eqb c star).
  - destruct (Ascii.eqb (peek p) NUL); [auto|].
    induction s as [|x s' IHs]; simpl; [discriminate|].
    destruct (Ascii.eqb x NUL); [discriminate|].
    destruct (wildcardMatch (String x s') p) eqn:E.
    + rewrite (IH _ E). reflexivity.
    + intros H. rewrite (IHs H). destruct (wildcardMatchSpec _ _); reflexivity.
  - destruct s as [|x s']; [auto|]. destruct (Ascii.eqb x c); auto.
Qed.

(** The two matchers differ only on patterns that end with two or more
    [*]. *)
Lemma wildcardMatch_complete (pattern : string) :
  ends_with_two_stars pattern = false ->
  forall s : string, wildcardMatch s pattern = wildcardMatchSpec s pattern.
Proof.
  induction pattern as [|c p IH]; intros Hp s; [reflexivity|].
  rewrite wildcardMatch_step, wildcardMatchSpec_step. simpl in Hp.
  destruct (Ascii.eqb c NUL); [reflexivity|].
  destruct (Ascii.eqb c star).
  - apply orb_false_iff in Hp. destruct Hp as [Hs Hp].
    destruct (Ascii.eqb (peek p) NUL); [reflexivity|]. simpl in Hs.
    induction s as [|x s' IHs]; simpl.
    + rewrite wildcardMatchSpec_empty. auto.
    + destruct (Ascii.eqb x NUL); [rewrite wildcardMatchSpec_empty; auto|].
      rewrite (IH Hp), IHs. reflexivity.
  - destruct s as [|x s']; [reflexivity|]. destruct (Ascii.eqb x c); auto.
Qed.

(** C1. The matcher should accept [s] whenever, at a [*] that is not the
    last character of the pattern, the rest of the pattern matches some
    suffix of the rest of [s], the empty suffix included.  The code tries
    the non-empty suffixes only: the segment ["a"] does not match the
    pattern ["a**"], which the matcher of the specification accepts, while
    it does match ["a*"]. *)
Theorem wildcardMatch_skips_empty_suffix :
  wildcardMatch "a" "a**" = false /\
  wildcardMatchSpec "a" "a**" = true /\
  wildcardMatch "a" "a*" = true.
Proof. repeat split. Qed.

End SegmentMatcher.

(** ** Tokens *)

Lemma tokens_from_segments (s : string) : forall tok : string,
  tokens_from tok s = filter nonempty (segments_from tok s).
Proof.
  induction s as [|c r IH]; intros tok; simpl.
  - unfold nonempty. destruct (String.eqb tok ""); reflexivity.
  - destruct (Ascii.eqb c slash); simpl.
    + unfold nonempty at 1. destruct (String.eqb tok ""); simpl; rewrite IH; reflexivity.
    + apply IH.
Qed.

(** C2, as the code has it. The tokens of a path are its [/]-separated
    segments with the empty ones dropped; so on a cleared engine after only
    [addPath("/a//b")], both [match("/a/b")] and [match("/a//b")] are
    [Match]. *)
Theorem Tokenizer_drops_empty_segments :
  (forall path : string,
     Tokenizer path = filter nonempty (split_on_slash path)) /\
  match_after (engine ["/a//b"]) "/a/b" = Some Match /\
  match_after (engine ["/a//b"]) "/a//b" = Some Match.
Proof.
  split; [|split; reflexivity].
  intros path. apply tokens_from_segments.
Qed.

(** C2 fails as stated: the empty middle segment of ["/a//b"] is not kept,
    and [match("/a/b")] is [Match], not [NoMatch]. *)
Lemma empty_segment_not_preserved :
  split_on_slash "/a//b" = [""; "a"; ""; "b"] /\
  Tokenizer "/a//b" = ["a"; "b"] /\
  match_after (engine ["/a//b"]) "/a/b" <> Some NoMatch.
Proof. repeat split. discriminate. Qed.

(** ** The empty path and the engine without a root *)

(** C3, as the code has it. For a path with no token, [match] is [Match]
    when the root is a terminator and [DescendantMatch] when it is not,
    whether or not a pattern is stored; it is [NoMatch] only for an engine
    that has no root node. *)
Theorem match_empty_path (m : PathMatcher) (path : string) :
  Tokenizer path = [] ->
  match_ m path =
  match m_root m with
  | None => NoMatch
  | Some root => if terminator root then Match else DescendantMatch
  end.
Proof.
  intros H. unfold match_. rewrite H. destruct (m_root m); reflexivity.
Qed.

Lemma match_empty_path_witness :
  match_ (clear PathMatcher_new) "//" = DescendantMatch.
Proof. apply (match_empty_path (clear PathMatcher_new) "//"). reflexivity. Defined.

(** C3 fails as stated: on a freshly cleared engine, with nothing stored,
    matching the empty path is [DescendantMatch], not [NoMatch]. *)
Lemma match_empty_path_cleared :
  m_root (clear PathMatcher_new) = Some newNode /\
  m_children newNode = [] /\
  match_ (clear PathMatcher_new) "" = DescendantMatch /\
  match_ (clear PathMatcher_new) "" <> NoMatch.
Proof. repeat split. discriminate. Qed.

(** C4. The constructor leaves [m_root] empty. [match] tests for that and
    answers [NoMatch] to every query; [addPath] does not, and dereferences
    the null root for every pattern. *)
Theorem addPath_before_clear :
  m_root PathMatcher_new = None /\
  (forall path : string, match_ PathMatcher_new path = NoMatch) /\
  (forall path : string, addPath PathMatcher_new path = None) /\
  (forall path : string, addPath (clear PathMatcher_new) path <> None).
Proof. repeat split. intros path. discriminate. Qed.

(** ** The walk *)

Lemma matchWalk_step (start : string) (newStart : list string) (node : Node)
  (result : Result) :
  matchWalk (start :: newStart) node result =
  walk_range start newStart (childRange node start) result.
Proof.
  simpl. generalize (childRange node start) as range. intros range.
  revert result. induction range as [|[key n] range IH]; intros result; simpl.
  - reflexivity.
  - rewrite !IH. reflexivity.
Qed.

(** The shared [result] holds the best outcome seen so far, as long as the
    walk is entered with a result other than [Match]. *)
Lemma matchWalk_best (tokens : list string) : forall (node : Node) (result : Result),
  result <> Match ->
  matchWalk tokens node result = best result (bestWalk tokens node).
Proof.
  induction tokens as [|start newStart IH]; intros node result Hr.
  - simpl. destruct result, (terminator node); try reflexivity; congruence.
  - rewrite matchWalk_step. simpl bestWalk.
    generalize (childRange node start) as range. intros range.
    revert result Hr. induction range as [|[key n] range IHr]; intros result Hr; simpl.
    + symmetry. apply best_NoMatch_r.
    + destruct (Detail.wildcardMatch start key); simpl; [|auto].
      rewrite (IH n result Hr), best_assoc.
      destruct (Result_eqb (best result (bestWalk newStart n)) Match) eqn:E.
      * apply Result_eqb_eq in E. rewrite E. symmetry. apply best_Match_l.
      * apply IHr. intros C. rewrite C in E. discriminate.
Qed.

Lemma matchWalk_from_NoMatch (tokens : list string) (node : Node) :
  matchWalk tokens node NoMatch = bestWalk tokens node.
Proof. rewrite matchWalk_best by discriminate. apply best_NoMatch_l. Qed.

Lemma Libstdcxx_matchWalk_step (start : string) (newStart : list string)
  (node : Libstdcxx.Node) (result : Result) :
  Libstdcxx.matchWalk (start :: newStart) node result =
  Libstdcxx.walk_range start newStart (Libstdcxx.childRange node start) result.
Proof.
  simpl. generalize (Libstdcxx.childRange node start) as range. intros range.
  revert result. induction range as [|[key n] range IH]; intros result; simpl.
  - reflexivity.
  - rewrite !IH. reflexivity.
Qed.

Lemma Libstdcxx_matchWalk_best (tokens : list string) :
  forall (node : Libstdcxx.Node) (result : Result),
  result <> Match ->
  Libstdcxx.matchWalk tokens node result
  = best result (Libstdcxx.bestWalk tokens node).
Proof.
  induction tokens as [|start newStart IH]; intros node result Hr.
  - simpl. destruct result, (Libstdcxx.terminator node); try reflexivity; congruence.
  - rewrite Libstdcxx_matchWalk_step. simpl Libstdcxx.bestWalk.
    generalize (Libstdcxx.childRange node start) as range. intros range.
    revert result Hr. induction range as [|[key n] range IHr]; intros result Hr; simpl.
    + symmetry. apply best_NoMatch_r.
    + destruct (Detail.wildcardMatch start key); simpl; [|auto].
      rewrite (IH n result Hr), best_assoc.
      destruct (Result_eqb (best result (Libstdcxx.bestWalk newStart n)) Match) eqn:E.
      * apply Result_eqb_eq in E. rewrite E. symmetry. apply best_Match_l.
      * apply IHr. intros C. rewrite C in E. discriminate.
Qed.


(** The early return: once a branch has yielded [Match], the rest of the
    range is not looked at. *)
Lemma walk_range_prunes start newStart key n range result :
  Detail.wildcardMatch start key = true ->
  matchWalk newStart n result = Match ->
  walk_range start newStart ((key, n) :: range) result = Match.
Proof. intros Hw Hm. simpl. rewrite Hw, Hm. reflexivity. Qed.

(** ** The multimap of children *)

Section Multimap.
Import Detail.

Lemma takeWhile_dropWhile {A} (f : A -> bool) (l : list A) :
  takeWhile f l ++ dropWhile f l = l.
Proof.
  induction l as [|x l IH]; simpl; [reflexivity|].
  destruct (f x); simpl; [rewrite IH|]; reflexivity.
Qed.

Lemma range_from_started (name : string) (m : ChildMap) :
  range_from true name m = takeWhile (key_not_greater name) m.
Proof.
  unfold key_not_greater.
  induction m as [|e r IH]; simpl; [reflexivity|].
  destruct (Less name (fst e)); simpl; [|rewrite IH]; reflexivity.
Qed.

Lemma equal_range_one_pass (name : string) (m : ChildMap) :
  equal_range name m = range_from false name m.
Proof.
  unfold equal_range, lower_bound.
  induction m as [|e r IH]; simpl; [reflexivity|].
  unfold key_less at 1. destruct (Less (fst e) name) eqn:L; simpl.
  - rewrite (Less_asym _ _ L). exact IH.
  - rewrite range_from_started. unfold key_not_greater at 1.
    destruct (Less name (fst e)); reflexivity.
Qed.

(** The candidate range lies between the two bounds. *)
Lemma lower_bound_split (name : string) (m : ChildMap) :
  lower_bound name m = equal_range name m ++ upper_bound name m.
Proof.
  unfold equal_range, upper_bound, lower_bound.
  rewrite <- (takeWhile_dropWhile (key_not_greater name) (dropWhile (key_less name) m)) at 1.
  f_equal. unfold key_less, key_not_greater.
  induction m as [|e r IH]; simpl; [reflexivity|].
  destruct (Less (fst e) name) eqn:L.
  - rewrite (Less_asym _ _ L). simpl. exact IH.
  - reflexivity.
Qed.

Lemma multimap_insert_sorted (name : string) (n : Node) (m : ChildMap) :
  multimap_insert name n m = sorted_insert name n m.
Proof.
  unfold multimap_insert, upper_bound, key_not_greater.
  induction m as [|e r IH]; simpl; [reflexivity|].
  destruct (Less name (fst e)); simpl; [|rewrite IH]; reflexivity.
Qed.

Lemma store_from_started (name : string) (n' : Node) (m : ChildMap) :
  store_from true name n' m =
  store_exact name n' (takeWhile (key_not_greater name) m)
    ++ dropWhile (key_not_greater name) m.
Proof.
  induction m as [|[key n] r IH]; simpl; [reflexivity|].
  unfold key_not_greater at 1 3. simpl. destruct (Less name key); simpl; [reflexivity|].
  destruct (String.eqb key name); simpl.
  - rewrite takeWhile_dropWhile. reflexivity.
  - rewrite IH. reflexivity.
Qed.

Lemma store_child_one_pass (node : Node) (name : string) (n' : Node) :
  store_child node name n' =
  mkNode (terminator node) (store_from false name n' (m_children node)).
Proof.
  unfold store_child. f_equal. unfold equal_range, lower_bound.
  induction (m_children node) as [|e r IH]; [reflexivity|].
  cbn [takeWhile dropWhile store_from].
  change (key_less name e) with (Less (fst e) name).
  destruct (Less (fst e) name) eqn:L.
  - rewrite (Less_asym _ _ L). cbn [app negb orb]. f_equal. exact IH.
  - cbn [app]. rewrite <- store_from_started. simpl. reflexivity.
Qed.

Lemma insert_child_one_pass (node : Node) (name : string) (n' : Node) :
  insert_child node name n' =
  mkNode (terminator node) (sorted_insert name n' (m_children node)).
Proof. unfold insert_child. rewrite multimap_insert_sorted. reflexivity. Qed.

(** *** Ranges *)

Lemma range_from_In (name : string) (m : ChildMap) : forall (started : bool) e,
  In e (range_from started name m) -> In e m.
Proof.
  induction m as [|x r IH]; intros started e; simpl; [auto|].
  destruct (Less name (fst x)); [intros []|].
  destruct (started || negb (Less (fst x) name)); simpl; intros H.
  - destruct H; eauto.
  - eauto.
Qed.

Lemma range_from_started_more (name : string) (m : ChildMap) : forall e,
  In e (range_from false name m) -> In e (range_from true name m).
Proof.
  induction m as [|x r IH]; intros e; simpl; [auto|].
  destruct (Less name (fst x)); [auto|].
  destruct (negb (Less (fst x) name)); simpl; auto.
Qed.

(** Ranges depend on the keys only. *)
Lemma range_from_Forall2 (R : string * Node -> string * Node -> Prop)
  (name : string) :
  (forall e e', R e e' -> fst e = fst e') ->
  forall (m m' : ChildMap), Forall2 R m m' ->
  forall started, Forall2 R (range_from started name m) (range_from started name m').
Proof.
  intros Hkey m m' H. induction H as [|e e' m m' He Hm IH]; intros started; simpl.
  - constructor.
  - rewrite <- (Hkey _ _ He).
    destruct (Less name (fst e)); [constructor|].
    destruct (started || negb (Less (fst e) name)); [constructor|]; auto.
Qed.

Lemma Forall2_In_l {A B} (R : A -> B -> Prop) (l : list A) (l' : list B) :
  Forall2 R l l' -> forall x, In x l -> exists y, In y l' /\ R x y.
Proof.
  induction 1 as [|a b l l' Hab _ IH]; intros x; simpl; [intros []|].
  intros [->|Hx]; [eauto|]. destruct (IH x Hx) as [y [Hy Hr]]. eauto.
Qed.

Lemma Forall2_In_r {A B} (R : A -> B -> Prop) (l : list A) (l' : list B) :
  Forall2 R l l' -> forall y, In y l' -> exists x, In x l /\ R x y.
Proof.
  induction 1 as [|a b l l' Hab _ IH]; intros y; simpl; [intros []|].
  intros [->|Hy]; [eauto|]. destruct (IH y Hy) as [x [Hx Hr]]. eauto.
Qed.

Lemma Forall2_same {A} (R : A -> A -> Prop) (l : list A) :
  (forall x, R x x) -> Forall2 R l l.
Proof. intros HR. induction l; constructor; auto. Qed.

(** *** The child with the exact key *)

Lemma find_exact_In (name : string) (range : ChildMap) (n : Node) :
  find_exact name range = Some n -> In (name, n) range.
Proof.
  induction range as [|[key n0] range IH]; simpl; [discriminate|].
  destruct (String.eqb_spec key name) as [->|_].
  - intros [= ->]. left. reflexivity.
  - auto.
Qed.

Lemma find_exact_store (name : string) (n' : Node) (range : ChildMap) (n0 : Node) :
  find_exact name range = Some n0 ->
  find_exact name (store_exact name n' range) = Some n'.
Proof.
  induction range as [|[key n] range IH]; simpl; [discriminate|].
  destruct (String.eqb key name) eqn:E; simpl; rewrite E; auto.
Qed.

(** *** Writing through the pointer of a child *)

Lemma range_from_store (name : string) (n' : Node) (m : ChildMap) :
  forall started,
  range_from started name (store_from started name n' m) =
  store_exact name n' (range_from started name m).
Proof.
  induction m as [|[key n] r IH]; intros started; simpl; [reflexivity|].
  destruct (Less name key) eqn:G; simpl.
  - rewrite G. reflexivity.
  - destruct (started || negb (Less key name)) eqn:S; simpl.
    + destruct (String.eqb key name) eqn:E; simpl; rewrite G, S, ?E; simpl.
      * reflexivity.
      * rewrite IH. reflexivity.
    + rewrite G, S. apply IH.
Qed.

Lemma store_from_twice (name : string) (n' n'' : Node) (m : ChildMap) :
  forall started,
  store_from started name n'' (store_from started name n' m) =
  store_from started name n'' m.
Proof.
  induction m as [|[key n] r IH]; intros started; simpl; [reflexivity|].
  destruct (Less name key) eqn:G; simpl.
  - rewrite G. reflexivity.
  - destruct (started || negb (Less key name)) eqn:S; simpl.
    + destruct (String.eqb key name) eqn:E; simpl; rewrite G, S, ?E; simpl.
      * reflexivity.
      * rewrite IH. reflexivity.
    + rewrite G, S, IH. reflexivity.
Qed.

Lemma store_from_replaced (name : string) (n0 n' : Node) (m : ChildMap) :
  forall started,
  find_exact name (range_from started name m) = Some n0 ->
  Forall2 (replaced name n0 n') m (store_from started name n' m).
Proof.
  induction m as [|[key n] r IH]; intros started; simpl; [discriminate|].
  destruct (Less name key) eqn:G; simpl; [discriminate|].
  destruct (started || negb (Less key name)) eqn:S; simpl.
  - destruct (String.eqb_spec key name) as [->|_].
    + intros [= ->]. constructor.
      * right. auto.
      * apply Forall2_same. intros x. left. reflexivity.
    + intros H. constructor; [left; reflexivity|eauto].
  - intros H. constructor; [left; reflexivity|eauto].
Qed.

Lemma replaced_key (name : string) (n0 n' : Node) e e' :
  replaced name n0 n' e e' -> fst e = fst e'.
Proof. intros [->|[-> ->]]; reflexivity. Qed.

(** *** Inserting a child *)

Lemma sorted_insert_In (name : string) (n : Node) (m : ChildMap) e :
  In e (sorted_insert name n m) <-> e = (name, n) \/ In e m.
Proof.
  induction m as [|x r IH]; simpl.
  - intuition congruence.
  - destruct (Less name (fst x)); simpl; [intuition congruence|].
    rewrite IH. intuition congruence.
Qed.

(** The candidate range of any name keeps its entries when a key is
    inserted. *)
Lemma range_from_insert (name key : string) (n : Node) (m : ChildMap) :
  forall started e,
  In e (range_from started name m) ->
  In e (range_from started name (sorted_insert key n m)).
Proof.
  induction m as [|x r IH]; intros started e; [intros []|].
  cbn [sorted_insert]. destruct (Less key (fst x)) eqn:K.
  - intros H. remember (x :: r) as l eqn:El. cbn [range_from fst].
    destruct (Less name key) eqn:NK.
    + subst l. simpl in H. rewrite (Less_trans _ _ _ NK K) in H. destruct H.
    + destruct started; cbn [orb].
      * right. exact H.
      * destruct (negb (Less key name)); [right; apply range_from_started_more|]; exact H.
  - cbn [range_from]. destruct (Less name (fst x)); [auto|].
    destruct (started || negb (Less (fst x) name)); simpl.
    + intros [->|H]; auto.
    + auto.
Qed.

Lemma find_exact_insert (name : string) (n : Node) (m : ChildMap) :
  forall started,
  find_exact name (range_from started name m) = None ->
  find_exact name (range_from started name (sorted_insert name n m)) = Some n.
Proof.
  assert (Hhere : forall started r,
    find_exact name (range_from started name ((name, n) :: r)) = Some n).
  { intros started r. cbn [range_from fst]. rewrite Less_irrefl, orb_true_r.
    cbn [negb find_exact]. rewrite String.eqb_refl. reflexivity. }
  induction m as [|[key n0] r IH]; intros started; cbn [sorted_insert fst].
  - intros _. apply Hhere.
  - destruct (Less name key) eqn:G; [intros _; apply Hhere|].
    cbn [range_from fst]. rewrite G.
    destruct (started || negb (Less key name)); cbn [find_exact].
    + destruct (String.eqb key name); [discriminate|apply IH].
    + apply IH.
Qed.

Lemma store_from_insert (name : string) (n n'' : Node) (m : ChildMap) :
  forall started,
  find_exact name (range_from started name m) = None ->
  store_from started name n'' (sorted_insert name n m) = sorted_insert name n'' m.
Proof.
  assert (Hhere : forall started r,
    store_from started name n'' ((name, n) :: r) = (name, n'') :: r).
  { intros started r. cbn [store_from fst]. rewrite Less_irrefl, orb_true_r.
    cbn [negb]. rewrite String.eqb_refl. reflexivity. }
  induction m as [|[key n0] r IH]; intros started; cbn [sorted_insert fst].
  - intros _. apply Hhere.
  - destruct (Less name key) eqn:G; [intros _; apply Hhere|].
    cbn [range_from store_from fst]. rewrite G.
    destruct (started || negb (Less key name)); cbn [find_exact].
    + destruct (String.eqb key name); [discriminate|].
      intros H. rewrite (IH _ H). reflexivity.
    + intros H. rewrite (IH _ H). reflexivity.
Qed.

End Multimap.

(** ** Nodes *)

Lemma childRange_one_pass (node : Node) (name : string) :
  childRange node name = range_from false name (m_children node).
Proof. apply equal_range_one_pass. Qed.

Lemma child_one_pass (node : Node) (name : string) :
  child node name = find_exact name (range_from false name (m_children node)).
Proof. unfold child. rewrite equal_range_one_pass. reflexivity. Qed.

Lemma child_store_child (node : Node) (name : string) (n0 n' : Node) :
  child node name = Some n0 ->
  child (store_child node name n') name = Some n'.
Proof.
  rewrite !child_one_pass, store_child_one_pass. simpl.
  rewrite range_from_store. apply find_exact_store.
Qed.

Lemma child_insert_child (node : Node) (name : string) (n' : Node) :
  child node name = None ->
  child (insert_child node name n') name = Some n'.
Proof.
  rewrite !child_one_pass, insert_child_one_pass. simpl.
  apply find_exact_insert.
Qed.

Lemma store_child_twice (node : Node) (name : string) (n' n'' : Node) :
  store_child (store_child node name n') name n'' = store_child node name n''.
Proof.
  rewrite !store_child_one_pass. simpl. rewrite store_from_twice. reflexivity.
Qed.

Lemma store_child_insert_child (node : Node) (name : string) (n' n'' : Node) :
  child node name = None ->
  store_child (insert_child node name n') name n'' = insert_child node name n''.
Proof.
  rewrite child_one_pass, store_child_one_pass, !insert_child_one_pass. simpl.
  intros H. rewrite store_from_insert by assumption. reflexivity.
Qed.

Lemma addWalk_step (name : string) (tokens : list string) (node : Node) :
  child (addWalk (name :: tokens) node) name
  = Some (addWalk tokens (nextNode_of node name)).
Proof.
  unfold nextNode_of. simpl. destruct (child node name) as [n0|] eqn:E.
  - eapply child_store_child; eauto.
  - apply child_insert_child; assumption.
Qed.

Lemma terminator_addWalk (tokens : list string) (node : Node) :
  terminator node = true -> terminator (addWalk tokens node) = true.
Proof.
  destruct tokens as [|name tokens]; simpl; [reflexivity|].
  destruct (child node name); simpl; auto.
Qed.

(** ** The red-black tree of the children

    Insertion into the tree of libstdc++ under [Detail::Less], which is no
    strict weak ordering: what [equal_range] gives for the key that was
    inserted, before and after the insertion and its rotations. *)

Section RedBlackTree.
Context {V : Type} (k : string).
Import Detail.

Local Abbreviation ic := (@Libstdcxx.ic V k).
Local Abbreviation step := (@Libstdcxx.step V k).
Local Abbreviation steps := (@Libstdcxx.steps V k).
Local Abbreviation Inv := (@Libstdcxx.Inv V k).
Local Abbreviation InvOld := (@Libstdcxx.InvOld V k).
Local Abbreviation off := (@Libstdcxx.off V).
Local Abbreviation offs := (@Libstdcxx.offs V).
Local Abbreviation canon := Libstdcxx.canon.
Local Abbreviation spot := Libstdcxx.spot.
Local Abbreviation write := (@Libstdcxx.write V).

(** *** The searches stay within the subtree *)

Lemma size_attach (X : Libstdcxx.Rb_tree V) f :
  Libstdcxx.size (Libstdcxx.attach X f) = Libstdcxx.size X + Libstdcxx.size (Libstdcxx.p_other f) + 1.
Proof. unfold Libstdcxx.attach. destruct (Libstdcxx.p_side f); simpl; lia. Qed.

Lemma LB_bounds (x : Libstdcxx.Rb_tree V) : forall first y,
  first + Libstdcxx.size x <= y ->
  first <= Libstdcxx.M_lower_bound x first y k <= y.
Proof.
  induction x as [|c l IHl key v r IHr]; intros first y H; simpl in *.
  - lia.
  - destruct (negb (Less key k)).
    + specialize (IHl first (first + Libstdcxx.size l)). lia.
    + specialize (IHr (first + Libstdcxx.size l + 1) y). lia.
Qed.

Lemma UB_bounds (x : Libstdcxx.Rb_tree V) : forall first y,
  first + Libstdcxx.size x <= y ->
  first <= Libstdcxx.M_upper_bound x first y k <= y.
Proof.
  induction x as [|c l IHl key v r IHr]; intros first y H; simpl in *.
  - lia.
  - destruct (Less k key).
    + specialize (IHl first (first + Libstdcxx.size l)). lia.
    + specialize (IHr (first + Libstdcxx.size l + 1) y). lia.
Qed.

Lemma ER_bounds (x : Libstdcxx.Rb_tree V) : forall first y,
  first + Libstdcxx.size x <= y ->
  first <= fst (Libstdcxx.equal_range_from x first y k) <= y /\
  first <= snd (Libstdcxx.equal_range_from x first y k) <= y.
Proof.
  induction x as [|c l IHl key v r IHr]; intros first y H; simpl in *.
  - lia.
  - destruct (Less key k).
    + specialize (IHr (first + Libstdcxx.size l + 1) y). lia.
    + destruct (Less k key).
      * specialize (IHl first (first + Libstdcxx.size l)). lia.
      * simpl. pose proof (LB_bounds l first (first + Libstdcxx.size l)).
        pose proof (UB_bounds r (first + Libstdcxx.size l + 1) y). lia.
Qed.

(** *** The summaries, from the new node to the root *)

Lemma Inv_ext g g' X o :
  (forall first, g first = g' first) -> Inv g X o -> Inv g' X o.
Proof.
  intros E (H1 & H2 & H3). split; [assumption|]. split; [assumption|].
  intros first y Hy. destruct (H3 first y Hy) as [Hs Hf]. split; [assumption|].
  destruct Hf as [Hf|[lo [Hg Hlo]]]; [left; assumption|right].
  exists lo. rewrite <- E. auto.
Qed.

(** The new node, and the free place it takes. *)
Lemma Inv_base (v : V) :
  Inv (fun _ => None) (Libstdcxx.Rb Libstdcxx._S_red Libstdcxx.Nil k v Libstdcxx.Nil) 0.
Proof.
  split; [simpl; lia|]. split.
  - intros first y. simpl. rewrite Less_irrefl. reflexivity.
  - intros first y Hy. simpl. rewrite Less_irrefl. simpl. split; [reflexivity|].
    left. lia.
Qed.

Lemma InvOld_base : InvOld (fun _ => None) (@Libstdcxx.Nil V) 0.
Proof.
  split; [simpl; lia|]. split.
  - intros first y. reflexivity.
  - intros first y Hy. reflexivity.
Qed.

(** One node up, on the way the insertion came down. *)
Lemma Inv_attach g X o f :
  Inv g X o -> ic f -> Inv (step f g) (Libstdcxx.attach X f) (off f o).
Proof.
  intros (Ho & Hub & Her) Hic. unfold Libstdcxx.ic, Libstdcxx.off, Libstdcxx.step, Libstdcxx.attach, Inv in *.
  destruct f as [sd c key v other]. simpl in *. destruct sd; simpl.
  - (* the node is entered from its left child *)
    pose proof (Less_asym _ _ Hic) as Hn.
    split; [lia|]. split.
    + intros first y. rewrite Hic, Hub. unfold Libstdcxx.canon.
      destruct (Nat.ltb_spec (o + 1) (Libstdcxx.size X));
        destruct (Nat.ltb_spec (o + 1) (Libstdcxx.size X + 1 + Libstdcxx.size other)); lia.
    + intros first y Hy. rewrite Hn, Hic.
      destruct (Her first (first + Libstdcxx.size X)) as [Hs Hf]; [lia|].
      split.
      * rewrite Hs. unfold Libstdcxx.canon.
        destruct (Nat.ltb_spec (o + 1) (Libstdcxx.size X));
          destruct (Nat.ltb_spec (o + 1) (Libstdcxx.size X + 1 + Libstdcxx.size other)); lia.
      * exact Hf.
  - (* from its right child *)
    split; [lia|]. split.
    + intros first y. rewrite Hic, Hub. unfold Libstdcxx.canon.
      destruct (Nat.ltb_spec (o + 1) (Libstdcxx.size X));
        destruct (Nat.ltb_spec (Libstdcxx.size other + 1 + o + 1) (Libstdcxx.size other + 1 + Libstdcxx.size X)); lia.
    + intros first y Hy. destruct (Less key k) eqn:Hl.
      * destruct (Her (first + Libstdcxx.size other + 1) y) as [Hs Hf]; [lia|].
        split.
        -- rewrite Hs. unfold Libstdcxx.canon.
           destruct (Nat.ltb_spec (o + 1) (Libstdcxx.size X));
             destruct (Nat.ltb_spec (Libstdcxx.size other + 1 + o + 1) (Libstdcxx.size other + 1 + Libstdcxx.size X)); lia.
        -- destruct Hf as [Hf|[lo [Hg Hlo]]]; [left; lia|right].
           exists lo. split; [assumption|lia].
      * rewrite Hic. simpl. split.
        -- rewrite Hub. unfold Libstdcxx.canon.
           destruct (Nat.ltb_spec (o + 1) (Libstdcxx.size X));
             destruct (Nat.ltb_spec (Libstdcxx.size other + 1 + o + 1) (Libstdcxx.size other + 1 + Libstdcxx.size X)); lia.
        -- right. eexists. split; [reflexivity|].
           pose proof (LB_bounds other first (first + Libstdcxx.size other)). lia.
Qed.

Lemma InvOld_attach g X o f :
  InvOld g X o -> ic f -> InvOld (step f g) (Libstdcxx.attach X f) (off f o).
Proof.
  intros (Ho & Hub & Her) Hic. unfold Libstdcxx.ic, Libstdcxx.off, Libstdcxx.step, Libstdcxx.attach, InvOld in *.
  destruct f as [sd c key v other]. simpl in *. destruct sd; simpl.
  - pose proof (Less_asym _ _ Hic) as Hn.
    split; [lia|]. split.
    + intros first y. rewrite Hic, Hub. unfold Libstdcxx.spot.
      destruct (Nat.ltb_spec o (Libstdcxx.size X));
        destruct (Nat.ltb_spec o (Libstdcxx.size X + 1 + Libstdcxx.size other)); lia.
    + intros first y Hy. rewrite Hn, Hic.
      rewrite (Her first (first + Libstdcxx.size X)) by lia.
      assert (E : spot (Libstdcxx.size X) o first (first + Libstdcxx.size X)
                  = spot (Libstdcxx.size X + 1 + Libstdcxx.size other) o first y).
      { unfold Libstdcxx.spot. destruct (Nat.ltb_spec o (Libstdcxx.size X));
          destruct (Nat.ltb_spec o (Libstdcxx.size X + 1 + Libstdcxx.size other)); lia. }
      rewrite E. reflexivity.
  - split; [lia|]. split.
    + intros first y. rewrite Hic, Hub. unfold Libstdcxx.spot.
      destruct (Nat.ltb_spec o (Libstdcxx.size X));
        destruct (Nat.ltb_spec (Libstdcxx.size other + 1 + o) (Libstdcxx.size other + 1 + Libstdcxx.size X)); lia.
    + intros first y Hy.
      assert (E : spot (Libstdcxx.size X) o (first + Libstdcxx.size other + 1) y
                  = spot (Libstdcxx.size other + 1 + Libstdcxx.size X) (Libstdcxx.size other + 1 + o) first y).
      { unfold Libstdcxx.spot. destruct (Nat.ltb_spec o (Libstdcxx.size X));
          destruct (Nat.ltb_spec (Libstdcxx.size other + 1 + o) (Libstdcxx.size other + 1 + Libstdcxx.size X)); lia. }
      destruct (Less key k) eqn:Hl.
      * rewrite (Her (first + Libstdcxx.size other + 1) y) by lia. rewrite E. reflexivity.
      * rewrite Hic. rewrite Hub, E. reflexivity.
Qed.

(** What [Inv] says of the parts of a subtree. *)
Lemma Inv_root g c xl xk (xv : V) xr o :
  Inv g (Libstdcxx.Rb c xl xk xv xr) o ->
  (Less xk k = true -> Libstdcxx.size xl + 1 <= o) /\
  (Less k xk = true -> o < Libstdcxx.size xl) /\
  (Less xk k = false -> Less k xk = false -> Libstdcxx.size xl <= o).
Proof.
  intros (Ho & Hub & Her). simpl in *.
  destruct (Her 0 (Libstdcxx.size xl + 1 + Libstdcxx.size xr + 7)) as [Hs Hf]; [lia|].
  simpl in Hs, Hf. unfold Libstdcxx.canon in Hs.
  repeat split.
  - intros H. rewrite H in *.
    pose proof (ER_bounds xr (Libstdcxx.size xl + 1) (Libstdcxx.size xl + 1 + Libstdcxx.size xr + 7)).
    destruct Hf as [Hf|[lo [_ Hf]]]; lia.
  - intros H. rewrite H, (Less_asym _ _ H) in *.
    pose proof (ER_bounds xl 0 (Libstdcxx.size xl)).
    destruct (Nat.ltb_spec (o + 1) (Libstdcxx.size xl + 1 + Libstdcxx.size xr)); lia.
  - intros H1 H2. rewrite H1, H2 in *. simpl in Hs.
    pose proof (UB_bounds xr (Libstdcxx.size xl + 1) (Libstdcxx.size xl + 1 + Libstdcxx.size xr + 7)).
    destruct (Nat.ltb_spec (o + 1) (Libstdcxx.size xl + 1 + Libstdcxx.size xr)); lia.
Qed.

Ltac canon_lia :=
  unfold Libstdcxx.canon, Libstdcxx.spot in *;
  repeat match goal with
  | |- context [Nat.ltb ?a ?b] => destruct (Nat.ltb_spec a b)
  | H : context [Nat.ltb ?a ?b] |- _ => destruct (Nat.ltb_spec a b)
  end; try lia.

Ltac norm := repeat rewrite Nat.add_assoc in *.

(** The double rotations: the node [__x] comes to the top, between the
    parent that was to its left ([p]) and the one that was to its right
    ([xpp]). *)
Lemma Inv_split g xl xk (xv : V) xr o p xpp c0 c1 c2 c3 :
  Inv g (Libstdcxx.Rb c0 xl xk xv xr) o ->
  ic p -> ic xpp -> Libstdcxx.p_side p = Libstdcxx.Right -> Libstdcxx.p_side xpp = Libstdcxx.Left ->
  Inv (step p g)
    (Libstdcxx.Rb c1 (Libstdcxx.Rb c2 (Libstdcxx.p_other p) (Libstdcxx.p_key p) (Libstdcxx.p_value p) xl) xk xv
             (Libstdcxx.Rb c3 xr (Libstdcxx.p_key xpp) (Libstdcxx.p_value xpp) (Libstdcxx.p_other xpp)))
    (off p o).
Proof.
  intros HI Hp Hq Sp Sq.
  destruct (Inv_root _ _ _ _ _ _ _ HI) as (Ra & Rb & Rc).
  destruct HI as (Ho & Hub & Her).
  destruct p as [sp cp P pv A], xpp as [sq cq Q qv Y].
  unfold Libstdcxx.ic, Libstdcxx.off, Libstdcxx.step, Libstdcxx.Inv in *. simpl in *. subst sp sq. simpl in *.
  pose proof (Less_asym _ _ Hq) as Hq'.
  split; [lia|]. split.
  - intros first y. rewrite Hq, Hp.
    destruct (Less k xk) eqn:Kx.
    + specialize (Rb eq_refl).
      specialize (Hub (first + Libstdcxx.size A + 1) y). norm.
      rewrite Hub. canon_lia.
    + assert (Libstdcxx.size xl <= o).
      { destruct (Less xk k) eqn:Xk; [specialize (Ra eq_refl); lia|auto]. }
      specialize (Hub (first + Libstdcxx.size A + 1)
                      (first + Libstdcxx.size A + 1 + Libstdcxx.size xl + 1 + Libstdcxx.size xr)). norm.
      rewrite Hub. canon_lia.
  - intros first y Hy. rewrite Hq, Hq', Hp.
    pose proof (LB_bounds A first (first + Libstdcxx.size A)) as BA.
    destruct (Her (first + Libstdcxx.size A + 1)
                  (first + Libstdcxx.size A + 1 + Libstdcxx.size xl + 1 + Libstdcxx.size xr)) as [Hs Hf]; [lia|].
    specialize (Hub (first + Libstdcxx.size A + 1)
                    (first + Libstdcxx.size A + 1 + Libstdcxx.size xl + 1 + Libstdcxx.size xr)).
    pose proof (ER_bounds xr (first + Libstdcxx.size A + 1 + Libstdcxx.size xl + 1)
                    (first + Libstdcxx.size A + 1 + Libstdcxx.size xl + 1 + Libstdcxx.size xr)) as BR.
    pose proof (ER_bounds xl (first + Libstdcxx.size A + 1)
                    (first + Libstdcxx.size A + 1 + Libstdcxx.size xl)) as BL.
    pose proof (LB_bounds xl (first + Libstdcxx.size A + 1)
                    (first + Libstdcxx.size A + 1 + Libstdcxx.size xl)) as BLL.
    clear Her. norm.
    destruct (Less xk k) eqn:Xk.
    + specialize (Ra eq_refl).
      split; [rewrite Hs; canon_lia|].
      destruct (Less P k) eqn:Pk.
      * destruct Hf as [Hf|[lo [Hg Hlo]]]; [left; lia|right].
        exists lo. split; [assumption|lia].
      * right. eexists. split; [reflexivity|].
        destruct Hf as [Hf|[lo [Hg Hlo]]]; lia.
    + destruct (Less k xk) eqn:Kx.
      * specialize (Rb eq_refl).
        destruct (Less P k) eqn:Pk; simpl.
        -- split; [rewrite Hs; canon_lia|].
           destruct Hf as [Hf|[lo [Hg Hlo]]]; [left; lia|right].
           exists lo. split; [assumption|lia].
        -- split.
           ++ rewrite Hub. canon_lia.
           ++ right. eexists. split; [reflexivity|]. lia.
      * specialize (Rc eq_refl eq_refl). simpl in *.
        split.
        -- rewrite Hs. canon_lia.
        -- destruct (Less P k) eqn:Pk; simpl.
           ++ destruct Hf as [Hf|[lo [Hg Hlo]]]; [left; lia|right].
              exists lo. split; [assumption|lia].
           ++ right. eexists. split; [reflexivity|]. lia.
Qed.

(** The single rotations leave [__x] below its parent. *)
Lemma Inv_left_left g X o p xpp c1 c2 :
  Inv g X o ->
  ic p -> Libstdcxx.p_side p = Libstdcxx.Left ->
  Inv g
    (Libstdcxx.Rb c1 X (Libstdcxx.p_key p) (Libstdcxx.p_value p)
       (Libstdcxx.Rb c2 (Libstdcxx.p_other p) (Libstdcxx.p_key xpp) (Libstdcxx.p_value xpp) (Libstdcxx.p_other xpp)))
    o.
Proof.
  intros HI Hp Sp.
  pose (f := Libstdcxx.mkParent Libstdcxx.Left c1 (Libstdcxx.p_key p) (Libstdcxx.p_value p)
               (Libstdcxx.Rb c2 (Libstdcxx.p_other p) (Libstdcxx.p_key xpp) (Libstdcxx.p_value xpp) (Libstdcxx.p_other xpp))).
  assert (Hf : ic f) by (unfold Libstdcxx.ic in *; rewrite Sp in Hp; exact Hp).
  exact (Inv_attach g X o f HI Hf).
Qed.

Lemma Inv_right_right g X o p xpp c1 c2 :
  Inv g X o ->
  ic p -> ic xpp -> Libstdcxx.p_side p = Libstdcxx.Right -> Libstdcxx.p_side xpp = Libstdcxx.Right ->
  Inv (step xpp (step p g))
    (Libstdcxx.Rb c1
       (Libstdcxx.Rb c2 (Libstdcxx.p_other xpp) (Libstdcxx.p_key xpp) (Libstdcxx.p_value xpp) (Libstdcxx.p_other p))
       (Libstdcxx.p_key p) (Libstdcxx.p_value p) X)
    (off xpp (off p o)).
Proof.
  intros HI Hp Hq Sp Sq.
  pose (f := Libstdcxx.mkParent Libstdcxx.Right c1 (Libstdcxx.p_key p) (Libstdcxx.p_value p)
               (Libstdcxx.Rb c2 (Libstdcxx.p_other xpp) (Libstdcxx.p_key xpp) (Libstdcxx.p_value xpp) (Libstdcxx.p_other p))).
  assert (Hf : ic f) by (unfold Libstdcxx.ic in *; rewrite Sp in Hp; exact Hp).
  destruct (Inv_attach g X o f HI Hf) as (H1 & H2 & H3).
  destruct p as [sp cp P pv A], xpp as [sq cq Q qv Y].
  unfold Libstdcxx.ic, Libstdcxx.off, Libstdcxx.step, Libstdcxx.Inv, Libstdcxx.attach, f in *. simpl in *. subst sp sq. simpl in *.
  norm.
  split; [lia|]. split.
  - intros first y. rewrite H2. canon_lia.
  - intros first y Hy. destruct (H3 first y Hy) as [Hs Hd]. split.
    + rewrite Hs. canon_lia.
    + destruct Hd as [Hd|[lo [Hg Hlo]]]; [left; lia|]. right.
      pose proof (LB_bounds Y first (first + Libstdcxx.size Y)) as BY.
      pose proof (LB_bounds A (first + Libstdcxx.size Y + 1) (first + Libstdcxx.size Y + 1 + Libstdcxx.size A)) as BA.
      pose proof (ER_bounds X (first + (Libstdcxx.size Y + 1 + Libstdcxx.size A) + 1) y) as BX.
      destruct (Less P k) eqn:Pk.
      * destruct (Less Q k) eqn:Qk.
        -- exists lo. split; [|lia].
           rewrite <- Hg. f_equal. lia.
        -- eexists. split; [reflexivity|]. lia.
      * rewrite Hp in *. cbn [fst snd] in *.
        exists lo. split; [|lia].
        destruct (Less Q k) eqn:Qk; simpl in *; rewrite <- Hg; f_equal; f_equal; lia.
Qed.

(** The colours do not matter to the searches. *)
Lemma size_set_color c (t : Libstdcxx.Rb_tree V) :
  Libstdcxx.size (Libstdcxx.set_color c t) = Libstdcxx.size t.
Proof. destruct t; reflexivity. Qed.

Lemma LB_set_color c (t : Libstdcxx.Rb_tree V) first y :
  Libstdcxx.M_lower_bound (Libstdcxx.set_color c t) first y k = Libstdcxx.M_lower_bound t first y k.
Proof. destruct t; reflexivity. Qed.

Lemma Inv_set_color g c X o : Inv g X o -> Inv g (Libstdcxx.set_color c X) o.
Proof. destruct X; exact (fun H => H). Qed.

Lemma steps_ext path : forall g g',
  (forall first, g first = g' first) ->
  forall first, steps path g first = steps path g' first.
Proof.
  induction path as [|f path IH]; intros g g' E first; simpl; [apply E|].
  apply IH. intros first'. unfold Libstdcxx.step.
  destruct (Libstdcxx.p_side f); [apply E|]. destruct (Less (Libstdcxx.p_key f) k); [apply E|reflexivity].
Qed.

Lemma Inv_attach_all path : forall g X o,
  Inv g X o -> Forall ic path ->
  Inv (steps path g) (Libstdcxx.attach_all X path) (offs path o).
Proof.
  induction path as [|f path IH]; intros g X o HI Hic; simpl; [exact HI|].
  inversion Hic; subst. apply IH; [|assumption]. apply Inv_attach; assumption.
Qed.

Lemma InvOld_attach_all path : forall g X o,
  InvOld g X o -> Forall ic path ->
  InvOld (steps path g) (Libstdcxx.attach_all X path) (offs path o).
Proof.
  induction path as [|f path IH]; intros g X o HI Hic; simpl; [exact HI|].
  inversion Hic; subst. apply IH; [|assumption]. apply InvOld_attach; assumption.
Qed.

Lemma two_step_ind {A} (P : list A -> Prop) :
  P [] -> (forall a, P [a]) -> (forall a b l, P l -> P (a :: b :: l)) ->
  forall l, P l.
Proof.
  intros H0 H1 H2.
  assert (H : forall l, P l /\ forall a, P (a :: l)).
  { induction l as [|b l [IH1 IH2]]; split; auto. }
  intros l. apply H.
Qed.

(** The rebalancing loop keeps the summary. *)
Lemma Inv_rebalance path :
  Forall ic path ->
  forall g xl xk (xv : V) xr o,
  Inv g (Libstdcxx.Rb Libstdcxx._S_red xl xk xv xr) o ->
  Inv (steps path g) (Libstdcxx.rebalance xl xk xv xr path) (offs path o).
Proof.
  induction path as [| p | p xpp above IH] using two_step_ind;
    intros Hic g xl xk xv xr o HI.
  - exact HI.
  - simpl. destruct (Libstdcxx.p_color p).
    + inversion Hic; subst. apply Inv_attach; assumption.
    + apply (Inv_attach_all [p]); assumption.
  - inversion Hic as [|? ? Hp Hic']; subst. inversion Hic' as [|? ? Hq Hic'']; subst.
    cbn [Libstdcxx.rebalance]. destruct (Libstdcxx.p_color p) eqn:Cp.
    + destruct (Libstdcxx.is_red (Libstdcxx.p_other xpp)) eqn:Ru.
      * (* recolour *)
        pose (p' := Libstdcxx.mkParent (Libstdcxx.p_side p) Libstdcxx._S_black (Libstdcxx.p_key p) (Libstdcxx.p_value p) (Libstdcxx.p_other p)).
        pose (q' := Libstdcxx.mkParent (Libstdcxx.p_side xpp) Libstdcxx._S_red (Libstdcxx.p_key xpp) (Libstdcxx.p_value xpp)
                      (Libstdcxx.set_color Libstdcxx._S_black (Libstdcxx.p_other xpp))).
        assert (Hp' : ic p') by exact Hp.
        assert (Hq' : ic q') by exact Hq.
        pose proof (Inv_attach _ _ _ q' (Inv_attach _ _ _ p' HI Hp') Hq') as H2.
        assert (E : Libstdcxx.attach (Libstdcxx.attach (Libstdcxx.Rb Libstdcxx._S_red xl xk xv xr) p') q'
                    = match Libstdcxx.p_side xpp with
                      | Libstdcxx.Left => Libstdcxx.Rb Libstdcxx._S_red (Libstdcxx.attach (Libstdcxx.Rb Libstdcxx._S_red xl xk xv xr) p')
                                    (Libstdcxx.p_key xpp) (Libstdcxx.p_value xpp)
                                    (Libstdcxx.set_color Libstdcxx._S_black (Libstdcxx.p_other xpp))
                      | Libstdcxx.Right => Libstdcxx.Rb Libstdcxx._S_red (Libstdcxx.set_color Libstdcxx._S_black (Libstdcxx.p_other xpp))
                                    (Libstdcxx.p_key xpp) (Libstdcxx.p_value xpp)
                                    (Libstdcxx.attach (Libstdcxx.Rb Libstdcxx._S_red xl xk xv xr) p')
                      end).
        { unfold Libstdcxx.attach at 1. unfold q'. simpl. destruct (Libstdcxx.p_side xpp); reflexivity. }
        assert (Eo : off q' (off p' o) = off xpp (off p o)).
        { unfold Libstdcxx.off, q', p'. simpl. rewrite size_set_color. reflexivity. }
        assert (Eg : forall first, step q' (step p' g) first = step xpp (step p g) first).
        { intros first. unfold Libstdcxx.step, q', p'. simpl.
          rewrite size_set_color, LB_set_color. reflexivity. }
        simpl offs. simpl steps. rewrite <- Eo.
        apply (Inv_ext (steps above (step q' (step p' g)))).
        { apply steps_ext. exact Eg. }
        destruct (Libstdcxx.p_side xpp) eqn:Sq.
        -- apply IH; [assumption|]. rewrite E in H2. exact H2.
        -- apply IH; [assumption|]. rewrite E in H2. exact H2.
      * (* rotations *)
        simpl offs. simpl steps.
        apply Inv_attach_all; [|assumption].
        destruct (Libstdcxx.p_side xpp) eqn:Sq, (Libstdcxx.p_side p) eqn:Sp.
        -- apply (Inv_ext g).
           { intros first. unfold Libstdcxx.step. rewrite Sq, Sp. reflexivity. }
           replace (off xpp (off p o)) with o by (unfold Libstdcxx.off; rewrite Sq, Sp; reflexivity).
           apply Inv_left_left; assumption.
        -- apply (Inv_ext (step p g)).
           { intros first. unfold Libstdcxx.step at 2. rewrite Sq. reflexivity. }
           replace (off xpp (off p o)) with (off p o) by (unfold Libstdcxx.off at 2; rewrite Sq; reflexivity).
           eapply Inv_split; eassumption.
        -- apply (Inv_ext (step xpp g)).
           { intros first. unfold Libstdcxx.step. rewrite Sq, Sp. reflexivity. }
           replace (off xpp (off p o)) with (off xpp o)
             by (unfold Libstdcxx.off at 3; rewrite Sp; reflexivity).
           eapply Inv_split; eassumption.
        -- apply Inv_right_right; assumption.
    + apply (Inv_attach_all (p :: xpp :: above)); assumption.
Qed.

(** *** The entries in order *)

Lemma length_inorder (t : Libstdcxx.Rb_tree V) :
  List.length (Libstdcxx.inorder t) = Libstdcxx.size t.
Proof.
  induction t as [|c l IHl key v r IHr]; simpl; [reflexivity|].
  rewrite List.length_app. simpl. lia.
Qed.

Lemma inorder_set_color c (t : Libstdcxx.Rb_tree V) :
  Libstdcxx.inorder (Libstdcxx.set_color c t) = Libstdcxx.inorder t.
Proof. destruct t; reflexivity. Qed.

(** The entries around a subtree do not depend on it. *)
Lemma inorder_attach_all path :
  exists pre post, List.length pre = offs path 0 /\
    forall X : Libstdcxx.Rb_tree V, Libstdcxx.inorder (Libstdcxx.attach_all X path) = pre ++ Libstdcxx.inorder X ++ post.
Proof.
  assert (H : forall path a b, exists pre post,
            List.length pre = offs path (List.length a) /\
            forall X X' : Libstdcxx.Rb_tree V, Libstdcxx.inorder X' = a ++ Libstdcxx.inorder X ++ b ->
              Libstdcxx.inorder (Libstdcxx.attach_all X' path) = pre ++ Libstdcxx.inorder X ++ post).
  { clear path. induction path as [|f path IH]; intros a b.
    - exists a, b. split; [reflexivity|]. intros X X' E. exact E.
    - destruct f as [sd c key v other]. destruct sd.
      + destruct (IH a (b ++ (key, v) :: Libstdcxx.inorder other)) as (pre & post & Hl & Hi).
        exists pre, post. split; [exact Hl|].
        intros X X' E. apply Hi. unfold Libstdcxx.attach. simpl. rewrite E.
        repeat rewrite <- app_assoc. reflexivity.
      + destruct (IH (Libstdcxx.inorder other ++ (key, v) :: a) b) as (pre & post & Hl & Hi).
        exists pre, post. split.
        * rewrite Hl. simpl. unfold Libstdcxx.off. simpl.
          rewrite List.length_app, length_inorder. simpl.
          f_equal. lia.
        * intros X X' E. apply Hi. unfold Libstdcxx.attach. simpl. rewrite E.
          repeat rewrite <- app_assoc. reflexivity. }
  destruct (H path [] []) as (pre & post & Hl & Hi).
  exists pre, post. split; [exact Hl|].
  intros X. apply Hi. rewrite app_nil_r. reflexivity.
Qed.

Lemma inorder_attach_all_congr path (X X' : Libstdcxx.Rb_tree V) :
  Libstdcxx.inorder X = Libstdcxx.inorder X' ->
  Libstdcxx.inorder (Libstdcxx.attach_all X path) = Libstdcxx.inorder (Libstdcxx.attach_all X' path).
Proof.
  intros E. destruct (inorder_attach_all path) as (pre & post & _ & Hi).
  rewrite !Hi, E. reflexivity.
Qed.

(** The rebalancing loop keeps the order of the entries. *)
Lemma inorder_rebalance path : forall xl xk (xv : V) xr,
  Libstdcxx.inorder (Libstdcxx.rebalance xl xk xv xr path)
  = Libstdcxx.inorder (Libstdcxx.attach_all (Libstdcxx.Rb Libstdcxx._S_red xl xk xv xr) path).
Proof.
  induction path as [| p | p xpp above IH] using two_step_ind; intros xl xk xv xr.
  - reflexivity.
  - simpl. destruct (Libstdcxx.p_color p); reflexivity.
  - cbn [Libstdcxx.rebalance]. destruct (Libstdcxx.p_color p) eqn:Cp; [|reflexivity].
    change (Libstdcxx.attach_all (Libstdcxx.Rb Libstdcxx._S_red xl xk xv xr) (p :: xpp :: above))
      with (Libstdcxx.attach_all (Libstdcxx.attach (Libstdcxx.attach (Libstdcxx.Rb Libstdcxx._S_red xl xk xv xr) p) xpp) above).
    destruct (Libstdcxx.is_red (Libstdcxx.p_other xpp)) eqn:Ru.
    + destruct (Libstdcxx.p_side xpp) eqn:Sq; rewrite IH; apply inorder_attach_all_congr;
        unfold Libstdcxx.attach; rewrite Sq; destruct (Libstdcxx.p_side p); simpl;
        rewrite inorder_set_color; reflexivity.
    + apply inorder_attach_all_congr.
      unfold Libstdcxx.attach.
      destruct (Libstdcxx.p_side xpp) eqn:Sq, (Libstdcxx.p_side p) eqn:Sp; simpl;
        repeat rewrite <- app_assoc; simpl; repeat rewrite <- app_assoc; reflexivity.
Qed.

(** *** The way [_M_get_insert_equal_pos] takes *)

Lemma get_insert_equal_pos_ic (x : Libstdcxx.Rb_tree V) : forall acc,
  Forall ic acc -> Forall ic (Libstdcxx.get_insert_equal_pos k x acc).
Proof.
  induction x as [|c l IHl key v r IHr]; intros acc H; simpl; [exact H|].
  destruct (Less k key) eqn:E.
  - apply IHl. constructor; [exact E|exact H].
  - apply IHr. constructor; [exact E|exact H].
Qed.

Lemma attach_get_insert_equal_pos (x : Libstdcxx.Rb_tree V) : forall acc,
  Libstdcxx.attach_all Libstdcxx.Nil (Libstdcxx.get_insert_equal_pos k x acc) = Libstdcxx.attach_all x acc.
Proof.
  induction x as [|c l IHl key v r IHr]; intros acc; simpl; [reflexivity|].
  destruct (Less k key); [rewrite IHl|rewrite IHr]; reflexivity.
Qed.

(** The range of [equal_range] is never reversed. *)
Lemma ER_ordered (x : Libstdcxx.Rb_tree V) : forall first y,
  first + Libstdcxx.size x <= y ->
  fst (Libstdcxx.equal_range_from x first y k) <= snd (Libstdcxx.equal_range_from x first y k).
Proof.
  induction x as [|c l IHl key v r IHr]; intros first y H; simpl in *.
  - lia.
  - destruct (Less key k).
    + apply IHr. lia.
    + destruct (Less k key).
      * apply IHl. lia.
      * simpl. pose proof (LB_bounds l first (first + Libstdcxx.size l)).
        pose proof (UB_bounds r (first + Libstdcxx.size l + 1) y). lia.
Qed.

(** *** The first entry with the exact key *)

Lemma find_exact_ge name (range : list (string * V)) : forall i j n,
  Libstdcxx.find_exact name range i = Some (j, n) ->
  exists d, j = i + d /\ d < List.length range.
Proof.
  induction range as [|[key n0] range IH]; intros i j n H; simpl in H; [discriminate|].
  destruct (String.eqb key name).
  - injection H as <- <-. exists 0. simpl. lia.
  - destruct (IH _ _ _ H) as (d & -> & Hd). exists (S d). simpl. lia.
Qed.

Lemma find_exact_None_shift name (range : list (string * V)) : forall i j,
  Libstdcxx.find_exact name range i = None -> Libstdcxx.find_exact name range j = None.
Proof.
  induction range as [|[key n0] range IH]; intros i j H; simpl in *; [reflexivity|].
  destruct (String.eqb key name); [discriminate|]. eapply IH; eassumption.
Qed.

Lemma find_exact_None_skipn name n : forall (range : list (string * V)) i j,
  Libstdcxx.find_exact name range i = None -> Libstdcxx.find_exact name (skipn n range) j = None.
Proof.
  induction n as [|n IH]; intros range i j H.
  - simpl. eapply find_exact_None_shift; eassumption.
  - destruct range as [|[key n0] range]; [reflexivity|]. simpl in *.
    destruct (String.eqb key name); [discriminate|]. eapply IH; eassumption.
Qed.

Lemma find_exact_app_None name (a b : list (string * V)) : forall i,
  Libstdcxx.find_exact name a i = None ->
  Libstdcxx.find_exact name (a ++ b) i = Libstdcxx.find_exact name b (i + List.length a).
Proof.
  induction a as [|[key n0] a IH]; intros i H; simpl in *.
  - f_equal. lia.
  - destruct (String.eqb key name); [discriminate|].
    rewrite (IH _ H). f_equal. lia.
Qed.

(** *** [insert] where [child] has found nothing

    The new entry is then what [child] finds. *)
Lemma find_exact_insert_equal (t : Libstdcxx.Rb_tree V) (v : V) :
  Libstdcxx.find_exact k (Libstdcxx.entries (Libstdcxx.equal_range k t) t) (fst (Libstdcxx.equal_range k t)) = None ->
  exists it,
    Libstdcxx.find_exact k (Libstdcxx.entries (Libstdcxx.equal_range k (Libstdcxx.insert_equal k v t)) (Libstdcxx.insert_equal k v t))
      (fst (Libstdcxx.equal_range k (Libstdcxx.insert_equal k v t))) = Some (it, v) /\
    nth_error (Libstdcxx.inorder (Libstdcxx.insert_equal k v t)) it = Some (k, v).
Proof.
  intros Hnone.
  pose (path := Libstdcxx.get_insert_equal_pos k t []).
  assert (Hic : Forall ic path) by (apply get_insert_equal_pos_ic; constructor).
  assert (Ht : Libstdcxx.attach_all Libstdcxx.Nil path = t) by apply attach_get_insert_equal_pos.
  pose proof (InvOld_attach_all path _ _ _ InvOld_base Hic) as Hold.
  rewrite Ht in Hold.
  pose proof (Inv_set_color _ Libstdcxx._S_black _ _
                (Inv_rebalance path Hic _ _ _ v _ _ (Inv_base v))) as Hnew.
  fold (Libstdcxx.insert_equal k v t) in Hnew.
  destruct (inorder_attach_all path) as (pre & post & Hl & Hi).
  assert (Eold : Libstdcxx.inorder t = pre ++ post).
  { rewrite <- Ht. rewrite Hi. reflexivity. }
  assert (Enew : Libstdcxx.inorder (Libstdcxx.insert_equal k v t) = pre ++ (k, v) :: post).
  { unfold Libstdcxx.insert_equal. rewrite inorder_set_color, inorder_rebalance, Hi. reflexivity. }
  assert (Sz : Libstdcxx.size (Libstdcxx.insert_equal k v t) = Libstdcxx.size t + 1).
  { rewrite <- !length_inorder, Enew, Eold, !List.length_app. simpl. lia. }
  assert (St : Libstdcxx.size t = List.length pre + List.length post).
  { rewrite <- length_inorder, Eold, List.length_app. reflexivity. }
  set (G := steps path (fun _ => None)) in *.
  set (O := offs path 0) in *.
  set (t' := Libstdcxx.insert_equal k v t) in *.
  change (Inv G t' O) in Hnew.
  destruct Hnew as (Ho & _ & Hnew). destruct (Hnew 0 (Libstdcxx.size t')) as [Hs Hf]; [lia|].
  destruct Hold as (Ho' & _ & Hold). specialize (Hold 0 (Libstdcxx.size t)).
  exists O. split.
  2:{ rewrite Enew, nth_error_app2 by lia. rewrite Hl, Nat.sub_diag. reflexivity. }
  unfold Libstdcxx.equal_range, Libstdcxx.entries in *.
  assert (Hs' : snd (Libstdcxx.equal_range_from t' 0 (Libstdcxx.size t') k) = O + 1).
  { rewrite Hs. unfold Libstdcxx.canon. destruct (Nat.ltb_spec (O + 1) (Libstdcxx.size t')); lia. }
  rewrite Hs', Enew.
  set (lo' := fst (Libstdcxx.equal_range_from t' 0 (Libstdcxx.size t') k)) in *.
  assert (Hlo' : lo' <= O) by (destruct Hf as [Hf|[lo [_ Hf]]]; lia).
  assert (Hnone' : Libstdcxx.find_exact k (skipn lo' pre) lo' = None).
  { destruct Hf as [Hf|[lo [Hg Hf]]].
    - rewrite skipn_all2 by lia. reflexivity.
    - rewrite Hold in Hnone by lia. rewrite Hg in Hnone. simpl in Hnone.
      assert (Hsp : spot (Libstdcxx.size t) O 0 (Libstdcxx.size t) = O).
      { unfold Libstdcxx.spot. destruct (Nat.ltb_spec O (Libstdcxx.size t)); lia. }
      rewrite Hsp, Eold in Hnone.
      rewrite skipn_app in Hnone.
      replace (lo - List.length pre) with 0 in Hnone by lia. simpl in Hnone.
      rewrite firstn_app in Hnone.
      rewrite length_skipn in Hnone.
      replace (O - lo - (List.length pre - lo)) with 0 in Hnone by lia.
      rewrite firstn_O, app_nil_r in Hnone.
      rewrite firstn_all2 in Hnone by (rewrite length_skipn; lia).
      replace (skipn lo' pre) with (skipn (lo' - lo) (skipn lo pre)).
      + eapply find_exact_None_skipn; eassumption.
      + rewrite skipn_skipn. f_equal. lia. }
  rewrite skipn_app. replace (lo' - List.length pre) with 0 by lia. simpl skipn.
  rewrite firstn_app, length_skipn.
  replace (O + 1 - lo' - (List.length pre - lo')) with 1 by lia.
  rewrite firstn_all2 by (rewrite length_skipn; lia).
  simpl firstn.
  rewrite (find_exact_app_None _ _ _ _ Hnone'). simpl.
  rewrite String.eqb_refl, length_skipn. repeat f_equal. lia.
Qed.

(** *** A write through the iterator *)

Lemma size_set_value i (v : V) (t : Libstdcxx.Rb_tree V) :
  Libstdcxx.size (Libstdcxx.set_value i v t) = Libstdcxx.size t.
Proof.
  revert i. induction t as [|c l IHl key v0 r IHr]; intros i; simpl; [reflexivity|].
  destruct (Nat.ltb i (Libstdcxx.size l)); [|destruct (Nat.eqb i (Libstdcxx.size l))]; simpl;
    rewrite ?IHl, ?IHr; reflexivity.
Qed.

Lemma LB_set_value i (v : V) (t : Libstdcxx.Rb_tree V) : forall first y,
  Libstdcxx.M_lower_bound (Libstdcxx.set_value i v t) first y k = Libstdcxx.M_lower_bound t first y k.
Proof.
  revert i. induction t as [|c l IHl key v0 r IHr]; intros i first y; simpl; [reflexivity|].
  destruct (Nat.ltb i (Libstdcxx.size l)); [|destruct (Nat.eqb i (Libstdcxx.size l))]; simpl;
    rewrite ?size_set_value, ?IHl, ?IHr; reflexivity.
Qed.

Lemma UB_set_value i (v : V) (t : Libstdcxx.Rb_tree V) : forall first y,
  Libstdcxx.M_upper_bound (Libstdcxx.set_value i v t) first y k = Libstdcxx.M_upper_bound t first y k.
Proof.
  revert i. induction t as [|c l IHl key v0 r IHr]; intros i first y; simpl; [reflexivity|].
  destruct (Nat.ltb i (Libstdcxx.size l)); [|destruct (Nat.eqb i (Libstdcxx.size l))]; simpl;
    rewrite ?size_set_value, ?IHl, ?IHr; reflexivity.
Qed.

Lemma ER_set_value i (v : V) (t : Libstdcxx.Rb_tree V) : forall first y,
  Libstdcxx.equal_range_from (Libstdcxx.set_value i v t) first y k = Libstdcxx.equal_range_from t first y k.
Proof.
  revert i. induction t as [|c l IHl key v0 r IHr]; intros i first y; simpl; [reflexivity|].
  destruct (Nat.ltb i (Libstdcxx.size l)); [|destruct (Nat.eqb i (Libstdcxx.size l))]; simpl;
    rewrite ?size_set_value, ?IHl, ?IHr, ?LB_set_value, ?UB_set_value; reflexivity.
Qed.

Lemma write_app i (v : V) (a b : list (string * V)) :
  write i v (a ++ b)
  = if Nat.ltb i (List.length a) then write i v a ++ b
    else a ++ write (i - List.length a) v b.
Proof.
  revert i. induction a as [|[key v0] a IH]; intros i; simpl.
  - rewrite Nat.sub_0_r. reflexivity.
  - destruct i as [|i]; [reflexivity|]. simpl. rewrite IH.
    change (Nat.ltb (S i) (S (List.length a))) with (Nat.ltb i (List.length a)).
    destruct (Nat.ltb i (List.length a)); reflexivity.
Qed.

Lemma inorder_set_value i (v : V) (t : Libstdcxx.Rb_tree V) :
  Libstdcxx.inorder (Libstdcxx.set_value i v t) = write i v (Libstdcxx.inorder t).
Proof.
  revert i. induction t as [|c l IHl key v0 r IHr]; intros i; simpl; [reflexivity|].
  rewrite write_app, length_inorder.
  destruct (Nat.ltb i (Libstdcxx.size l)) eqn:E1.
  - simpl. rewrite IHl. reflexivity.
  - destruct (Nat.eqb_spec i (Libstdcxx.size l)) as [E2|E2]; simpl.
    + subst i. rewrite Nat.sub_diag. reflexivity.
    + apply Nat.ltb_ge in E1.
      destruct (i - Libstdcxx.size l) as [|j] eqn:E3; [lia|].
      simpl. rewrite Nat.sub_0_r, IHr. reflexivity.
Qed.

Lemma skipn_write lo : forall j (v : V) (l : list (string * V)),
  skipn lo (write (lo + j) v l) = write j v (skipn lo l).
Proof.
  induction lo as [|lo IH]; intros j v l; [reflexivity|].
  destruct l as [|[key v0] l]; simpl; [reflexivity|]. apply IH.
Qed.

Lemma firstn_write n : forall j (v : V) (l : list (string * V)),
  firstn n (write j v l) = write j v (firstn n l).
Proof.
  induction n as [|n IH]; intros j v l; [reflexivity|].
  destruct l as [|[key v0] l]; [reflexivity|].
  destruct j as [|j]; simpl; [reflexivity|]. rewrite IH. reflexivity.
Qed.

Lemma find_exact_write name (range : list (string * V)) : forall i j n (v : V),
  Libstdcxx.find_exact name range i = Some (i + j, n) ->
  Libstdcxx.find_exact name (write j v range) i = Some (i + j, v).
Proof.
  induction range as [|[key v0] range IH]; intros i j n v H; simpl in H; [discriminate|].
  destruct (String.eqb key name) eqn:E.
  - injection H as Hj _. assert (j = 0) by lia. subst j. simpl. rewrite E, Nat.add_0_r. reflexivity.
  - destruct (find_exact_ge _ _ _ _ _ H) as (d & Hd & _).
    destruct j as [|j]; [lia|]. simpl. rewrite E.
    replace (i + S j) with (S i + j) in * by lia. eapply IH; eassumption.
Qed.

(** Writing the value that is there, and writing twice. *)
Lemma set_value_same (t : Libstdcxx.Rb_tree V) : forall i key (v : V),
  nth_error (Libstdcxx.inorder t) i = Some (key, v) -> Libstdcxx.set_value i v t = t.
Proof.
  induction t as [|c l IHl k0 v0 r IHr]; intros i key v H; simpl in *; [reflexivity|].
  destruct (Nat.ltb_spec i (Libstdcxx.size l)) as [E1|E1].
  - rewrite nth_error_app1 in H by (rewrite length_inorder; lia).
    rewrite (IHl _ _ _ H). reflexivity.
  - rewrite nth_error_app2 in H by (rewrite length_inorder; lia).
    rewrite length_inorder in H.
    destruct (Nat.eqb_spec i (Libstdcxx.size l)) as [E2|E2].
    + subst i. rewrite Nat.sub_diag in H. simpl in H. congruence.
    + destruct (i - Libstdcxx.size l) as [|j] eqn:E3; [lia|]. simpl in *.
      rewrite Nat.sub_0_r, (IHr _ _ _ H). reflexivity.
Qed.

Lemma set_value_twice (t : Libstdcxx.Rb_tree V) : forall i (v v' : V),
  Libstdcxx.set_value i v (Libstdcxx.set_value i v' t) = Libstdcxx.set_value i v t.
Proof.
  induction t as [|c l IHl k0 v0 r IHr]; intros i v v'; simpl; [reflexivity|].
  destruct (Nat.ltb i (Libstdcxx.size l)) eqn:E1; simpl.
  - rewrite size_set_value, E1, IHl. reflexivity.
  - destruct (Nat.eqb i (Libstdcxx.size l)) eqn:E2; simpl; rewrite ?size_set_value, E1, E2, ?IHr;
      reflexivity.
Qed.

(** What [child] finds after the write through the iterator it gave. *)
Lemma find_exact_set_value (t : Libstdcxx.Rb_tree V) it n (v : V) :
  Libstdcxx.find_exact k (Libstdcxx.entries (Libstdcxx.equal_range k t) t) (fst (Libstdcxx.equal_range k t)) = Some (it, n) ->
  Libstdcxx.find_exact k (Libstdcxx.entries (Libstdcxx.equal_range k (Libstdcxx.set_value it v t)) (Libstdcxx.set_value it v t))
    (fst (Libstdcxx.equal_range k (Libstdcxx.set_value it v t))) = Some (it, v).
Proof.
  intros H. unfold Libstdcxx.equal_range, Libstdcxx.entries in *.
  rewrite size_set_value, ER_set_value, inorder_set_value.
  destruct (find_exact_ge _ _ _ _ _ H) as (d & -> & _).
  rewrite skipn_write, firstn_write. eapply find_exact_write. eassumption.
Qed.

End RedBlackTree.

(** *** Insertion twice

    The second [addPath] finds, at every level, the child that the first
    one wrote or inserted, and writes the same subtree to it. *)
Lemma Libstdcxx_addWalk_idempotent (tokens : list string) : forall node,
  Libstdcxx.addWalk tokens (Libstdcxx.addWalk tokens node) = Libstdcxx.addWalk tokens node.
Proof.
  induction tokens as [|name tokens IH]; intros node; [reflexivity|].
  cbn [Libstdcxx.addWalk].
  destruct (Libstdcxx.child node name) as [[it nextNode]|] eqn:E.
  - unfold Libstdcxx.child in *. cbn [Libstdcxx.m_children Libstdcxx.terminator].
    rewrite (find_exact_set_value name _ _ _ _ E).
    rewrite IH, set_value_twice. reflexivity.
  - unfold Libstdcxx.child in *. cbn [Libstdcxx.m_children Libstdcxx.terminator].
    destruct (find_exact_insert_equal name _ (Libstdcxx.addWalk tokens Libstdcxx.newNode) E)
      as (it & Hc & Hn).
    rewrite Hc, IH, (set_value_same _ _ _ _ Hn). reflexivity.
Qed.

(** ** Insertion *)

(** Adding the same tokens a second time leaves the trie as it is. *)
Lemma addWalk_idempotent (tokens : list string) : forall node : Node,
  addWalk tokens (addWalk tokens node) = addWalk tokens node.
Proof.
  induction tokens as [|name tokens IH]; intros node.
  - reflexivity.
  - change (addWalk (name :: tokens) (addWalk (name :: tokens) node))
      with (match child (addWalk (name :: tokens) node) name with
            | Some nextNode =>
                store_child (addWalk (name :: tokens) node) name (addWalk tokens nextNode)
            | None =>
                insert_child (addWalk (name :: tokens) node) name (addWalk tokens newNode)
            end).
    rewrite addWalk_step, IH. simpl. unfold nextNode_of.
    destruct (child node name) as [n0|] eqn:E.
    + apply store_child_twice.
    + apply store_child_insert_child. assumption.
Qed.

Lemma addPath_idempotent (m : PathMatcher) (path : string) :
  addPaths m [path; path] = addPaths m [path].
Proof.
  unfold addPaths, addPath. destruct (m_root m) as [root|]; [|reflexivity].
  simpl. rewrite addWalk_idempotent. reflexivity.
Qed.

(** C9. Insertion is idempotent: from every engine state, for every
    pattern [p] and every query [q], [match(q)] after [addPath(p)] twice is
    [match(q)] after [addPath(p)] once (and both calls fail alike on the
    engine without a root).  This holds in the sequence semantics of the
    multimap and, from every root, over the tree of libstdc++: the second
    call finds the child that the first one wrote or inserted, whatever the
    rotations. *)
Theorem addPath_twice_same_match (m : PathMatcher) (p q : string) :
  match_after (addPaths m [p; p]) q = match_after (addPaths m [p]) q /\
  forall root : Libstdcxx.Node,
    Libstdcxx.match_
      (Libstdcxx.addWalk (Tokenizer p) (Libstdcxx.addWalk (Tokenizer p) root)) q
    = Libstdcxx.match_ (Libstdcxx.addWalk (Tokenizer p) root) q.
Proof.
  split.
  - rewrite addPath_idempotent. reflexivity.
  - intros root. rewrite Libstdcxx_addWalk_idempotent. reflexivity.
Qed.

(** *** Insertion never lowers a match *)

(** A walk over a trie whose branches are at least as good is at least as
    good. *)
Lemma bestWalk_branches (start : string) (newStart : list string) (node node' : Node) :
  (forall e, In e (childRange node start) ->
     exists e', In e' (childRange node' start) /\ fst e = fst e' /\
       precedence (bestWalk newStart (snd e)) <= precedence (bestWalk newStart (snd e'))) ->
  precedence (bestWalk (start :: newStart) node)
  <= precedence (bestWalk (start :: newStart) node').
Proof.
  intros H.
  assert (Hreach : forall r, r <> NoMatch ->
            precedence r <= precedence (bestWalk (start :: newStart) node) ->
            precedence r <= precedence (bestWalk (start :: newStart) node')).
  { intros r Hn Hle. cbn [bestWalk] in *.
    apply best_of_reaches in Hle; [|assumption].
    apply best_of_reaches; [assumption|].
    destruct Hle as [x [Hx Hle]].
    apply in_map_iff in Hx. destruct Hx as [e [<- He]].
    apply filter_In in He. destruct He as [He Hw].
    destruct (H e He) as [e' [He' [Hk Hp]]].
    exists (bestWalk newStart (snd e')). split; [|lia].
    apply in_map_iff. exists e'. split; [reflexivity|].
    apply filter_In. split; [assumption|]. rewrite <- Hk. assumption. }
  destruct (bestWalk (start :: newStart) node) eqn:E.
  - simpl. lia.
  - apply Hreach; [discriminate|]. lia.
  - apply Hreach; [discriminate|]. lia.
Qed.

Lemma bestWalk_addWalk_mono (query : list string) :
  forall (tokens : list string) (node : Node),
  precedence (bestWalk query node)
  <= precedence (bestWalk query (addWalk tokens node)).
Proof.
  induction query as [|start newStart IH]; intros tokens node.
  - simpl. destruct (terminator node) eqn:T.
    + rewrite (terminator_addWalk tokens node T). lia.
    + destruct (terminator (addWalk tokens node)); simpl; lia.
  - apply bestWalk_branches. intros e He.
    rewrite childRange_one_pass in *.
    destruct tokens as [|name tokens]; [exists e; simpl; auto|].
    simpl. destruct (child node name) as [n0|] eqn:C.
    + rewrite store_child_one_pass. simpl.
      rewrite child_one_pass in C.
      assert (F := store_from_replaced name n0 (addWalk tokens n0) _ _ C).
      apply (range_from_Forall2 _ start (replaced_key name n0 (addWalk tokens n0))) with (started := false) in F.
      destruct (Forall2_In_l _ _ _ F e He) as [e' [He' R]].
      exists e'. split; [assumption|].
      destruct R as [->|[-> ->]]; simpl; auto.
    + rewrite insert_child_one_pass. simpl.
      exists e. split; [|auto]. apply range_from_insert. assumption.
Qed.

(** With the sequence semantics of the multimap, a successful [addPath]
    never lowers the precedence of the result of [match]. *)
Lemma addPath_match_monotone (m m' : PathMatcher) (p q : string) :
  addPath m p = Some m' ->
  precedence (match_ m q) <= precedence (match_ m' q).
Proof.
  unfold addPath, match_. destruct (m_root m) as [root|]; [|discriminate].
  intros [= <-]. simpl. rewrite !matchWalk_from_NoMatch.
  apply bestWalk_addWalk_mono.
Qed.

(** ** Stored patterns and the queries they answer *)

Lemma bestWalk_branch (start key : string) (newStart : list string)
  (node n : Node) (r : Result) :
  In (key, n) (childRange node start) ->
  Detail.wildcardMatch start key = true ->
  r <> NoMatch ->
  precedence r <= precedence (bestWalk newStart n) ->
  precedence r <= precedence (bestWalk (start :: newStart) node).
Proof.
  intros Hin Hw Hr Hle. cbn [bestWalk]. apply best_of_reaches; [assumption|].
  exists (bestWalk newStart n). split; [|assumption].
  apply in_map_iff. exists (key, n). split; [reflexivity|].
  apply filter_In. auto.
Qed.

Lemma child_in_childRange (node : Node) (name : string) (n : Node) :
  child node name = Some n -> In (name, n) (childRange node name).
Proof. apply find_exact_In. Qed.

(** After [addPath], the walk along the tokens added reaches a node at every
    depth, and the terminator at the end. *)
Lemma bestWalk_addWalk_prefix (query : list string) :
  forall (rest : list string) (node : Node),
  precedence DescendantMatch
  <= precedence (bestWalk query (addWalk (query ++ rest) node)) /\
  (rest = [] -> bestWalk query (addWalk (query ++ rest) node) = Match).
Proof.
  induction query as [|k query IH]; intros rest node.
  - split.
    + simpl. destruct (terminator _); simpl; lia.
    + intros ->. reflexivity.
  - assert (Hc := addWalk_step k (query ++ rest) node).
    apply child_in_childRange in Hc.
    destruct (IH rest (nextNode_of node k)) as [Hd Hm]. split.
    + eapply bestWalk_branch; eauto using wildcardMatch_refl.
      discriminate.
    + intros E. apply precedence_inj. apply Nat.le_antisymm.
      * apply precedence_le_Match.
      * eapply bestWalk_branch; eauto using wildcardMatch_refl; [discriminate|].
        rewrite (Hm E). lia.
Qed.

(** A walk that ends in [Match] has followed the keys of a stored pattern,
    each matched by the query segment of its level. *)
Lemma bestWalk_Match_stored (query : list string) : forall node : Node,
  bestWalk query node = Match ->
  exists keys, segments_match query keys /\ stored node keys.
Proof.
  induction query as [|start newStart IH]; intros node H.
  - exists []. split; [constructor|]. simpl in *.
    destruct (terminator node); [reflexivity|discriminate].
  - assert (Hle : precedence Match <= precedence (bestWalk (start :: newStart) node))
      by (rewrite H; lia).
    cbn [bestWalk] in Hle. apply best_of_reaches in Hle; [|discriminate].
    destruct Hle as [x [Hx Hle]].
    apply in_map_iff in Hx. destruct Hx as [[key n] [<- He]].
    apply filter_In in He. destruct He as [He Hw]. simpl in *.
    destruct (IH n) as [keys [Hs Hst]].
    { apply precedence_inj. destruct (bestWalk newStart n); simpl in *; lia. }
    exists (key :: keys). split; [constructor; assumption|].
    simpl. exists n. split; [|assumption].
    rewrite childRange_one_pass in He. eapply range_from_In; eauto.
Qed.

Lemma stored_newNode (keys : list string) : ~ stored newNode keys.
Proof. destruct keys; simpl; [discriminate|]. intros [n [[] _]]. Qed.

(** [addPath] stores the pattern it is given and nothing else. *)
Lemma stored_addWalk (tokens : list string) : forall (node : Node) (keys : list string),
  stored (addWalk tokens node) keys -> keys = tokens \/ stored node keys.
Proof.
  induction tokens as [|name tokens IH]; intros node keys H.
  - destruct keys; [left; reflexivity|right; exact H].
  - simpl in H. destruct (child node name) as [n0|] eqn:C.
    + rewrite store_child_one_pass in H.
      destruct keys as [|k keys]; [right; exact H|].
      simpl in H. destruct H as [n [Hin Hst]].
      rewrite child_one_pass in C.
      assert (F := store_from_replaced name n0 (addWalk tokens n0) _ _ C).
      destruct (Forall2_In_r _ _ _ F _ Hin) as [e [He [E|[-> E]]]].
      * subst e. right. simpl. eauto.
      * injection E as -> ->. destruct (IH _ _ Hst) as [->|Hs].
        -- left. reflexivity.
        -- right. simpl. eauto.
    + rewrite insert_child_one_pass in H.
      destruct keys as [|k keys]; [right; exact H|].
      simpl in H. destruct H as [n [Hin Hst]].
      apply sorted_insert_In in Hin. destruct Hin as [E|Hin].
      * injection E as -> ->. destruct (IH _ _ Hst) as [->|Hs].
        -- left. reflexivity.
        -- destruct (stored_newNode _ Hs).
      * right. simpl. eauto.
Qed.

Lemma addPaths_root_after (paths : list string) : forall (m : PathMatcher) (root : Node),
  m_root m = Some root ->
  addPaths m paths = Some (mkPathMatcher (Some (root_after paths root))).
Proof.
  induction paths as [|p paths IH]; intros [r] root H; simpl in *.
  - subst r. reflexivity.
  - unfold addPath. simpl. subst r. apply IH. reflexivity.
Qed.

Lemma engine_root_after (paths : list string) :
  engine paths = Some (mkPathMatcher (Some (root_after paths newNode))).
Proof. apply addPaths_root_after. reflexivity. Qed.

Lemma root_after_mono (query : list string) (paths : list string) : forall root : Node,
  precedence (bestWalk query root)
  <= precedence (bestWalk query (root_after paths root)).
Proof.
  induction paths as [|p paths IH]; intros root; simpl; [lia|].
  etransitivity; [|apply IH]. apply bestWalk_addWalk_mono.
Qed.

Lemma stored_root_after (paths : list string) : forall (root : Node) (keys : list string),
  stored (root_after paths root) keys ->
  stored root keys \/ exists p, In p paths /\ Tokenizer p = keys.
Proof.
  induction paths as [|p paths IH]; intros root keys H; simpl in *; [auto|].
  destruct (IH _ _ H) as [Hs|[p' [Hin E]]].
  - destruct (stored_addWalk _ _ _ Hs) as [->|Hs']; eauto.
  - eauto.
Qed.

Lemma root_after_app (paths1 paths2 : list string) (root : Node) :
  root_after (paths1 ++ paths2) root = root_after paths2 (root_after paths1 root).
Proof. apply fold_left_app. Qed.

(** In the sequence semantics of the standard, on an engine filled after
    [clear()], a query whose segments are a strict prefix of the segments of
    a stored pattern, and which no stored pattern wildcard-matches segment
    by segment, gets [DescendantMatch].  This is what the code is written
    for; what the program does is stated further down, over the tree. *)
Lemma strict_ancestor_in_sequence
  (paths : list string) (m : PathMatcher) (p q : string) :
  engine paths = Some m ->
  In p paths ->
  strict_prefix (Tokenizer q) (Tokenizer p) ->
  (forall p', In p' paths -> ~ segments_match (Tokenizer q) (Tokenizer p')) ->
  match_ m q = DescendantMatch.
Proof.
  intros Hm Hin [rest [_ Hp]] Hnone.
  rewrite engine_root_after in Hm. injection Hm as <-.
  unfold match_. simpl. rewrite matchWalk_from_NoMatch.
  assert (Hlow : precedence DescendantMatch
                 <= precedence (bestWalk (Tokenizer q) (root_after paths newNode))).
  { destruct (in_split _ _ Hin) as [l1 [l2 ->]].
    rewrite root_after_app. simpl. etransitivity; [|apply root_after_mono].
    rewrite Hp. apply bestWalk_addWalk_prefix. }
  destruct (bestWalk (Tokenizer q) (root_after paths newNode)) eqn:E.
  - simpl in Hlow. lia.
  - reflexivity.
  - exfalso. destruct (bestWalk_Match_stored _ _ E) as [keys [Hs Hst]].
    destruct (stored_root_after _ _ _ Hst) as [Hn|[p' [Hp' Hk]]].
    + exact (stored_newNode _ Hn).
    + apply (Hnone p' Hp'). rewrite Hk. exact Hs.
Qed.

(** C7 fails as stated: ["/a"] is a strict ancestor of the stored ["/a/b"]
    and is not itself a stored pattern, yet the stored ["/*"] makes
    [match("/a")] a [Match]. *)
Lemma strict_ancestor_under_wildcard :
  Tokenizer "/a/b" = Tokenizer "/a" ++ ["b"] /\
  Tokenizer "/a/b" <> Tokenizer "/a" /\
  Tokenizer "/*" <> Tokenizer "/a" /\
  match_after (engine ["/a/b"; "/*"]) "/a" = Some Match /\
  match_after (engine ["/a/b"; "/*"]) "/a" <> Some DescendantMatch /\
  Libstdcxx.match_ (Libstdcxx.root_after ["/a/b"; "/*"]) "/a" = Match.
Proof. repeat split; discriminate. Qed.

(** ** What the candidate range misses *)

(** [Less] is not a strict weak ordering: ["a"] is less than ["b"], and
    each of them is equivalent to ["*"]. *)
Lemma Less_not_strict_weak :
  Detail.Less "a" "b" = true /\
  (Detail.Less "a" "*" = false /\ Detail.Less "*" "a" = false) /\
  (Detail.Less "*" "b" = false /\ Detail.Less "b" "*" = false).
Proof. repeat split. Qed.

(** C6. An inserted pattern should give [Match] on every query with as
    many segments whose i-th segment wildcard-matches its i-th segment, and
    [childRange] is meant to return all the children that may match.  It
    does not: after [addPath("/b")] and [addPath("/*")] the keys of the root
    are ["b"], ["*"]; the query segment ["a"] matches [*], but ["b"] is
    greater than ["a"] and comes first, so the candidate range of ["a"] is
    empty and [match("/a")] is [NoMatch], in the sequence semantics and in
    the tree of libstdc++ alike. *)
Theorem inserted_wildcard_missed :
  segments_match (Tokenizer "/a") (Tokenizer "/*") /\
  option_map (fun m => option_map (map fst) (option_map m_children (m_root m)))
    (engine ["/b"; "/*"]) = Some (Some ["b"; "*"]) /\
  equal_range "a" [("b", mkNode true []); ("*", mkNode true [])] = [] /\
  match_after (engine ["/b"; "/*"]) "/a" = Some NoMatch /\
  Libstdcxx.shape (Libstdcxx.m_children (Libstdcxx.root_after ["/b"; "/*"]))
  = [Some (Libstdcxx._S_black, "b"); None;
     Some (Libstdcxx._S_red, "*"); None; None] /\
  Libstdcxx.match_ (Libstdcxx.root_after ["/b"; "/*"]) "/a" = NoMatch.
Proof.
  split; [repeat constructor|]. repeat split.
Qed.

(** C10. [addPath] should never lower the result of [match].  With the
    tree of libstdc++ it does: after [addPath("/*")] and [addPath("/a")],
    [match("/c")] is [Match] through the key [*]; [addPath("/b")] makes the
    tree rotate, ["a"] becomes the root with [*] to its left and ["b"] to
    its right, [equal_range("c")] goes right at ["a"] and at ["b"] and is
    empty, and [match("/c")] is [NoMatch]. *)
Theorem addPath_lowers_match :
  Libstdcxx.match_ (Libstdcxx.root_after ["/*"; "/a"]) "/c" = Match /\
  Libstdcxx.shape (Libstdcxx.m_children (Libstdcxx.root_after ["/*"; "/a"]))
  = [Some (Libstdcxx._S_black, "*"); None;
     Some (Libstdcxx._S_red, "a"); None; None] /\
  Libstdcxx.shape (Libstdcxx.m_children (Libstdcxx.root_after ["/*"; "/a"; "/b"]))
  = [Some (Libstdcxx._S_black, "a");
     Some (Libstdcxx._S_red, "*"); None; None;
     Some (Libstdcxx._S_red, "b"); None; None] /\
  Libstdcxx.equal_range "c"
    (Libstdcxx.m_children (Libstdcxx.root_after ["/*"; "/a"; "/b"])) = (3, 3) /\
  Libstdcxx.match_ (Libstdcxx.root_after ["/*"; "/a"; "/b"]) "/c" = NoMatch.
Proof. repeat split. Qed.

(** * Further properties *)

(** ** C strings, patterns and the comparator *)

Section Strings.
Import Detail.

Lemma peek_c_str (s : string) : peek (c_str s) = peek s.
Proof.
  destruct s as [|c r]; [reflexivity|]. simpl.
  destruct (Ascii.eqb_spec c NUL) as [->|]; reflexivity.
Qed.

Lemma c_str_empty (s : string) : peek s = NUL -> c_str s = "".
Proof.
  destruct s as [|c r]; [reflexivity|]. simpl. intros ->. reflexivity.
Qed.

Lemma c_str_cons (s : string) :
  peek s <> NUL -> c_str s = String (peek s) (c_str (tail s)).
Proof.
  destruct s as [|c r]; simpl; [congruence|].
  intros H. destruct (Ascii.eqb_spec c NUL); [contradiction|reflexivity].
Qed.

Lemma c_str_literal (p : string) : literal p = true -> c_str p = p.
Proof.
  induction p as [|c r IH]; simpl; [reflexivity|].
  intros H. apply andb_true_iff in H. destruct H as [H Hr].
  apply andb_true_iff in H. destruct H as [Hn _].
  destruct (Ascii.eqb c NUL); [discriminate|]. rewrite IH; auto.
Qed.

Lemma has_star_literal (p : string) : literal p = true -> has_star p = false.
Proof.
  induction p as [|c r IH]; simpl; [reflexivity|].
  intros H. apply andb_true_iff in H. destruct H as [H Hr].
  apply andb_true_iff in H. destruct H as [Hn Hs].
  destruct (Ascii.eqb c NUL); [reflexivity|].
  destruct (Ascii.eqb c star); [discriminate|]. auto.
Qed.

Lemma has_star_step (s : string) :
  has_star s = false -> peek s <> star /\ (peek s <> NUL -> has_star (tail s) = false).
Proof.
  destruct s as [|c r]; simpl.
  - intros _. split; [discriminate|reflexivity].
  - destruct (Ascii.eqb_spec c NUL) as [->|Hn].
    + intros _. split; [discriminate|congruence].
    + destruct (Ascii.eqb_spec c star) as [->|Hs]; [discriminate|]. auto.
Qed.

(** A pattern without [*] matches by equality of C strings. *)
Lemma wildcardMatch_literal (pattern : string) : forall s : string,
  has_star pattern = false ->
  wildcardMatch s pattern = String.eqb (c_str s) (c_str pattern).
Proof.
  induction pattern as [|c p IH]; intros s H.
  - simpl. destruct s as [|x s']; [reflexivity|]. simpl.
    destruct (Ascii.eqb x NUL); reflexivity.
  - rewrite wildcardMatch_step. simpl in H |- *.
    destruct (Ascii.eqb_spec c NUL) as [->|Hn].
    + destruct s as [|x s']; [reflexivity|]. simpl.
      destruct (Ascii.eqb x NUL); reflexivity.
    + destruct (Ascii.eqb_spec c star) as [->|Hs]; [discriminate|].
      destruct s as [|x s']; [reflexivity|]. simpl.
      destruct (Ascii.eqb_spec x c) as [->|Hx].
      * destruct (Ascii.eqb_spec c NUL); [contradiction|].
        simpl. rewrite Ascii.eqb_refl. apply IH. exact H.
      * destruct (Ascii.eqb x NUL); [reflexivity|]. simpl.
        destruct (Ascii.eqb_spec x c); [contradiction|reflexivity].
Qed.

(** [p*]: the names that begin with [p]. *)
Lemma wildcardMatch_prefix (p : string) : forall s : string,
  literal p = true ->
  wildcardMatch s (p ++ "*") = String.prefix p (c_str s).
Proof.
  induction p as [|c p IH]; intros s H.
  - simpl. destruct (c_str s); reflexivity.
  - change ((String c p ++ "*")%string) with (String c (p ++ "*")).
    rewrite wildcardMatch_step. simpl in H.
    apply andb_true_iff in H. destruct H as [H Hp].
    apply andb_true_iff in H. destruct H as [Hn Hs].
    destruct (Ascii.eqb_spec c NUL) as [|Hn']; [discriminate|].
    destruct (Ascii.eqb_spec c star) as [|Hs']; [discriminate|].
    destruct s as [|x s']; [reflexivity|]. simpl.
    destruct (Ascii.eqb_spec x c) as [->|Hx].
    + destruct (Ascii.eqb_spec c NUL); [contradiction|]. simpl.
      destruct (ascii_dec c c); [|congruence]. apply IH. exact Hp.
    + destruct (Ascii.eqb x NUL); [reflexivity|]. simpl.
      destruct (ascii_dec c x); [congruence|reflexivity].
Qed.

Lemma star_loop_suffix (p : string) : literal p = true -> p <> "" ->
  forall s : string, star_loop p s = true <-> exists a, c_str s = (a ++ p)%string.
Proof.
  intros H Hne. induction s as [|x s' IH]; simpl.
  - split; [discriminate|]. intros [a Ha]. destruct a; simpl in Ha; [congruence|discriminate].
  - destruct (Ascii.eqb_spec x NUL) as [->|Hx].
    + split; [discriminate|]. intros [a Ha]. destruct a; simpl in Ha; [congruence|discriminate].
    + rewrite (wildcardMatch_literal p (String x s') (has_star_literal _ H)).
      rewrite (c_str_literal _ H). simpl.
      destruct (Ascii.eqb_spec x NUL); [contradiction|].
      destruct (String.eqb_spec (String x (c_str s')) p) as [E|E].
      * split; [|reflexivity]. intros _. exists "". exact E.
      * rewrite IH. split.
        -- intros [a Ha]. exists (String x a). simpl. rewrite Ha. reflexivity.
        -- intros [a Ha]. destruct a as [|y a]; simpl in Ha; [congruence|].
           injection Ha as _ Ha. exists a. exact Ha.
Qed.

(** [*p]: the names that end with [p]. *)
Lemma wildcardMatch_suffix (p : string) (s : string) :
  literal p = true -> p <> "" ->
  (wildcardMatch s (String star p) = true <-> exists a, c_str s = (a ++ p)%string).
Proof.
  intros H Hne. rewrite wildcardMatch_step.
  change (Ascii.eqb star NUL) with false. rewrite Ascii.eqb_refl.
  destruct p as [|c p]; [congruence|]. cbn [peek].
  simpl in H. apply andb_true_iff in H. destruct H as [H Hp].
  apply andb_true_iff in H. destruct H as [Hn Hs].
  destruct (Ascii.eqb c NUL) eqn:En; [discriminate|].
  apply star_loop_suffix; [|discriminate].
  simpl. rewrite En, Hs, Hp. reflexivity.
Qed.

(** *** The comparator on keys without [*] *)

Lemma char_value_inj (a b : ascii) : char_value a = char_value b -> a = b.
Proof.
  unfold char_value. intros H.
  pose proof (N_ascii_bounded a). pose proof (N_ascii_bounded b).
  assert (E : N_of_ascii a = N_of_ascii b).
  { destruct (Z.ltb_spec (Z.of_N (N_of_ascii a)) 128);
      destruct (Z.ltb_spec (Z.of_N (N_of_ascii b)) 128); lia. }
  rewrite <- (ascii_N_embedding a), <- (ascii_N_embedding b), E. reflexivity.
Qed.

(** [Less] says no, on strings without [*]: what the cursors see. *)
Lemma Less_false_cases (a b : string) :
  has_star a = false -> has_star b = false ->
  (Less a b = false <->
   (peek a = peek b /\ peek a <> NUL /\ Less (tail a) (tail b) = false) \/
   ((peek a <> peek b \/ peek a = NUL) /\ (char_value (peek b) <= char_value (peek a))%Z)).
Proof.
  intros Ha Hb. rewrite Less_step.
  destruct (has_star_step _ Ha) as [Sa _]. destruct (has_star_step _ Hb) as [Sb _].
  destruct (Ascii.eqb_spec (peek a) (peek b)) as [E|E];
    destruct (Ascii.eqb_spec (peek a) NUL) as [N|N]; simpl.
  - unfold diverged, char_lt.
    destruct (Ascii.eqb_spec (peek a) star); [contradiction|].
    destruct (Ascii.eqb_spec (peek b) star); [contradiction|]. simpl.
    rewrite Z.ltb_ge. split; [intros H; right; split; [auto|exact H]|].
    intros [[_ [C _]]|[_ H]]; [contradiction|exact H].
  - split; [intros H; left; auto|].
    intros [[_ [_ H]]|[[C|C] _]]; [exact H|contradiction|contradiction].
  - unfold diverged, char_lt.
    destruct (Ascii.eqb_spec (peek a) star); [contradiction|].
    destruct (Ascii.eqb_spec (peek b) star); [contradiction|]. simpl.
    rewrite Z.ltb_ge. split; [intros H; right; split; [auto|exact H]|].
    intros [[C _]|[_ H]]; [contradiction|exact H].
  - unfold diverged, char_lt.
    destruct (Ascii.eqb_spec (peek a) star); [contradiction|].
    destruct (Ascii.eqb_spec (peek b) star); [contradiction|]. simpl.
    rewrite Z.ltb_ge. split; [intros H; right; split; [auto|exact H]|].
    intros [[C _]|[_ H]]; [contradiction|exact H].
Qed.

Lemma Less_false_value (a b : string) :
  has_star a = false -> has_star b = false -> Less a b = false ->
  (char_value (peek b) <= char_value (peek a))%Z.
Proof.
  intros Ha Hb H. apply (Less_false_cases a b Ha Hb) in H.
  destruct H as [[E _]|[_ H]]; [rewrite E; lia|exact H].
Qed.

(** Without [*], "not less" is transitive. *)
Lemma Less_negtrans (a : string) : forall b c : string,
  has_star a = false -> has_star b = false -> has_star c = false ->
  Less a b = false -> Less b c = false -> Less a c = false.
Proof.
  induction a as [|x a IH]; intros b c Ha Hb Hc Hab Hbc.
  - pose proof (Less_false_value _ _ Ha Hb Hab) as V1.
    pose proof (Less_false_value _ _ Hb Hc Hbc) as V2.
    apply (Less_false_cases "" c Ha Hc). right. split; [right; reflexivity|]. lia.
  - pose proof (Less_false_value _ _ Ha Hb Hab) as V1.
    pose proof (Less_false_value _ _ Hb Hc Hbc) as V2.
    apply (Less_false_cases _ c Ha Hc).
    destruct (Ascii.eqb_spec (peek (String x a)) (peek c)) as [E|E].
    + destruct (Ascii.eqb_spec (peek (String x a)) NUL) as [N|N].
      * right. split; [right; exact N|]. rewrite E. lia.
      * left. split; [exact E|]. split; [exact N|].
        assert (Eb : peek b = peek (String x a)).
        { apply char_value_inj. rewrite E in *. lia. }
        apply (Less_false_cases _ b Ha Hb) in Hab.
        apply (Less_false_cases b c Hb Hc) in Hbc.
        destruct Hab as [[_ [_ Hab]]|[[C|C] _]]; [|congruence|contradiction].
        destruct Hbc as [[_ [_ Hbc]]|[[C|C] _]]; [|congruence|congruence].
        destruct (has_star_step _ Ha) as [_ Ta].
        destruct (has_star_step _ Hb) as [_ Tb].
        destruct (has_star_step _ Hc) as [_ Tc].
        cbn [peek tail] in *.
        apply (IH (tail b) (tail c)); auto.
        -- apply Tb. congruence.
        -- apply Tc. congruence.
    + right. split; [left; exact E|]. lia.
Qed.

(** Without [*], two keys that are not ordered are the same C string. *)
Lemma Less_total (a : string) : forall b : string,
  has_star a = false -> has_star b = false ->
  Less a b = false -> Less b a = false -> c_str a = c_str b.
Proof.
  induction a as [|x a IH]; intros b Ha Hb Hab Hba.
  - pose proof (Less_false_value _ _ Ha Hb Hab) as V1.
    pose proof (Less_false_value _ _ Hb Ha Hba) as V2.
    assert (E : peek b = NUL) by (apply char_value_inj; simpl in *; lia).
    rewrite (c_str_empty b E). reflexivity.
  - pose proof (Less_false_value _ _ Ha Hb Hab) as V1.
    pose proof (Less_false_value _ _ Hb Ha Hba) as V2.
    assert (E : peek b = x) by (apply char_value_inj; simpl in *; lia).
    destruct (Ascii.eqb_spec x NUL) as [N|N].
    + rewrite (c_str_empty b) by congruence. apply c_str_empty. exact N.
    + rewrite (c_str_cons b) by congruence. simpl.
      destruct (Ascii.eqb_spec x NUL); [contradiction|]. rewrite E. f_equal.
      destruct (has_star_step _ Ha) as [_ Ta].
      destruct (has_star_step _ Hb) as [_ Tb].
      apply (Less_false_cases _ b Ha Hb) in Hab.
      destruct Hab as [[_ [_ Hab]]|[[C|C] _]]; cbn [peek tail] in *;
        [|congruence|contradiction].
      apply (Less_false_cases b _ Hb Ha) in Hba.
      destruct Hba as [[_ [_ Hba]]|[[C|C] _]]; cbn [peek tail] in *;
        [|congruence|congruence].
      apply IH; auto. apply Tb. congruence.
Qed.

(** [Less] reads its arguments as C strings. *)
Lemma Less_c_str (a : string) : forall b : string, Less (c_str a) (c_str b) = Less a b.
Proof.
  induction a as [|x a IH]; intros b.
  - rewrite (Less_step "" b), (Less_step (c_str "") (c_str b)), !peek_c_str.
    cbn [peek]. change (Ascii.eqb NUL NUL) with true. cbn [negb].
    rewrite andb_false_r. reflexivity.
  - rewrite (Less_step (String x a) b), (Less_step (c_str (String x a)) (c_str b)), !peek_c_str.
    destruct (Ascii.eqb_spec (peek (String x a)) (peek b)) as [E|E]; [|reflexivity].
    destruct (Ascii.eqb_spec (peek (String x a)) NUL) as [N|N]; [reflexivity|].
    cbn [andb negb].
    rewrite (c_str_cons (String x a)) by exact N.
    rewrite (c_str_cons b) by congruence. cbn [tail]. apply IH.
Qed.

Lemma Less_same_c_str (a b : string) : c_str a = c_str b -> Less a b = false.
Proof.
  intros E. rewrite <- Less_c_str, E. apply Less_irrefl.
Qed.

Lemma char_value_ascii7 (c : ascii) :
  N.ltb (N_of_ascii c) 128 = true -> char_value c = Z.of_N (N_of_ascii c).
Proof.
  intros H. apply N.ltb_lt in H. unfold char_value.
  destruct (Z.ltb_spec (Z.of_N (N_of_ascii c)) 128); lia.
Qed.

Lemma char_lt_ascii7 (x y : ascii) :
  N.ltb (N_of_ascii x) 128 = true -> N.ltb (N_of_ascii y) 128 = true ->
  char_lt x y = Ascii.ltb x y.
Proof.
  intros Hx Hy. unfold char_lt, Ascii.ltb, Ascii.compare.
  rewrite (char_value_ascii7 _ Hx), (char_value_ascii7 _ Hy).
  destruct (N.compare_spec (N_of_ascii x) (N_of_ascii y));
    destruct (Z.ltb_spec (Z.of_N (N_of_ascii x)) (Z.of_N (N_of_ascii y))); lia.
Qed.

(** On 7-bit strings without NUL and [*], [Less] is [std::less<string>]. *)
Lemma Less_ltb (a : string) : forall b : string,
  literal a = true -> ascii7 a = true -> literal b = true -> ascii7 b = true ->
  Less a b = String.ltb a b.
Proof.
  unfold String.ltb.
  induction a as [|x a IH]; intros b La Aa Lb Ab.
  - destruct b as [|y b]; [reflexivity|]. simpl in *.
    apply andb_true_iff in Lb. destruct Lb as [Lb _].
    apply andb_true_iff in Lb. destruct Lb as [Ny Sy].
    apply andb_true_iff in Ab. destruct Ab as [Ay _].
    unfold diverged. change (Ascii.eqb NUL star) with false.
    destruct (Ascii.eqb y star); [discriminate|]. simpl.
    rewrite (char_lt_ascii7 NUL y eq_refl Ay).
    unfold Ascii.ltb, Ascii.compare. simpl.
    destruct (N_of_ascii y) eqn:E; [|reflexivity].
    destruct (Ascii.eqb_spec y NUL); [discriminate|].
    exfalso. apply n. rewrite <- (ascii_N_embedding y), E. reflexivity.
  - simpl in La, Aa.
    apply andb_true_iff in La. destruct La as [La La'].
    apply andb_true_iff in La. destruct La as [Nx Sx].
    apply andb_true_iff in Aa. destruct Aa as [Ax Aa'].
    destruct b as [|y b].
    + simpl. unfold diverged. change (Ascii.eqb NUL star) with false.
      destruct (Ascii.eqb x star); [discriminate|]. simpl.
      rewrite (char_lt_ascii7 x NUL Ax eq_refl).
      unfold Ascii.ltb, Ascii.compare. simpl.
      destruct (N_of_ascii x); reflexivity.
    + simpl in Lb, Ab.
      apply andb_true_iff in Lb. destruct Lb as [Lb Lb'].
      apply andb_true_iff in Lb. destruct Lb as [Ny Sy].
      apply andb_true_iff in Ab. destruct Ab as [Ay Ab'].
      cbn [Less String.compare].
      destruct (Ascii.eqb_spec x y) as [->|Hxy].
      * destruct (Ascii.eqb y NUL); [discriminate|]. simpl.
        unfold Ascii.compare. rewrite N.compare_refl. apply IH; assumption.
      * simpl. unfold diverged.
        destruct (Ascii.eqb x star); [discriminate|].
        destruct (Ascii.eqb y star); [discriminate|]. simpl.
        rewrite (char_lt_ascii7 x y Ax Ay). unfold Ascii.ltb.
        destruct (Ascii.compare x y) eqn:C; try reflexivity.
        apply Ascii.compare_eq_iff in C. contradiction.
Qed.

(** X1. [Detail::Less] is a strict partial order on all strings, with or
    without [*]: it is irreflexive, asymmetric and transitive. *)
Theorem Less_strict_partial_order :
  (forall a, Less a a = false) /\
  (forall a b, Less a b = true -> Less b a = false) /\
  (forall a b c, Less a b = true -> Less b c = true -> Less a c = true).
Proof.
  split; [exact Less_irrefl|]. split; [exact Less_asym|exact Less_trans].
Qed.

Lemma Less_strict_partial_order_witness : Less "a" "c" = true /\ Less "c" "a" = false.
Proof.
  split.
  - apply (proj2 (proj2 Less_strict_partial_order) "a" "b" "c"); reflexivity.
  - apply (proj1 (proj2 Less_strict_partial_order) "a" "c"); reflexivity.
Defined.

(** X2. On keys without [*], [Less] is a strict weak ordering: "not less"
    is transitive, and two keys are unordered exactly when they are the
    same C string. *)
Theorem Less_strict_weak_without_star (a b c : string) :
  has_star a = false -> has_star b = false -> has_star c = false ->
  (Less a b = false -> Less b c = false -> Less a c = false) /\
  (Less a b = false /\ Less b a = false <-> c_str a = c_str b).
Proof.
  intros Ha Hb Hc. split.
  - apply Less_negtrans; assumption.
  - split.
    + intros [H1 H2]. apply Less_total; assumption.
    + intros E. split; apply Less_same_c_str; congruence.
Qed.

Lemma Less_strict_weak_without_star_witness :
  (Less "b" "a" = false -> Less "a" "a" = false -> Less "b" "a" = false) /\
  (Less "b" "a" = false /\ Less "a" "b" = false <-> c_str "b" = c_str "a").
Proof. apply (Less_strict_weak_without_star "b" "a" "a"); reflexivity. Defined.

(** X3. On strings of 7-bit characters without NUL and without [*], [Less]
    is [std::less<std::string>], the lexicographic order, as the comment on
    [Less] says. *)
Theorem Less_is_std_less (a b : string) :
  literal a = true -> ascii7 a = true -> literal b = true -> ascii7 b = true ->
  Less a b = String.ltb a b.
Proof. apply Less_ltb. Qed.

Lemma Less_is_std_less_witness : Less "ab" "abc" = String.ltb "ab" "abc".
Proof. apply (Less_is_std_less "ab" "abc"); reflexivity. Defined.

(** X4. A pattern without [*] matches the strings that are equal to it as
    C strings, and no other. *)
Theorem wildcardMatch_literal_pattern (s pattern : string) :
  has_star pattern = false ->
  wildcardMatch s pattern = String.eqb (c_str s) (c_str pattern).
Proof. apply wildcardMatch_literal. Qed.

Lemma wildcardMatch_literal_pattern_witness :
  wildcardMatch "abc" "abd" = String.eqb (c_str "abc") (c_str "abd").
Proof. apply (wildcardMatch_literal_pattern "abc" "abd"). reflexivity. Defined.

(** X5. For a literal [p] that is not empty, the pattern [p*] matches
    exactly the strings that begin with [p], and the pattern [*p] exactly
    the strings that end with [p]. *)
Theorem wildcardMatch_prefix_suffix (s p : string) :
  literal p = true -> p <> "" ->
  wildcardMatch s (p ++ "*") = String.prefix p (c_str s) /\
  (wildcardMatch s ("*" ++ p) = true <-> exists a, c_str s = (a ++ p)%string).
Proof.
  intros H Hne. split.
  - apply wildcardMatch_prefix. exact H.
  - apply wildcardMatch_suffix; assumption.
Qed.

Lemma wildcardMatch_prefix_suffix_witness :
  wildcardMatch "a.exr" (".exr" ++ "*") = String.prefix ".exr" (c_str "a.exr") /\
  (wildcardMatch "a.exr" ("*" ++ ".exr") = true
   <-> exists a, c_str "a.exr" = (a ++ ".exr")%string).
Proof. apply (wildcardMatch_prefix_suffix "a.exr" ".exr"); [reflexivity|discriminate]. Defined.

(** X6. Every string matches itself taken as a pattern, whatever [*] it
    holds, and the pattern [*] matches every string. *)
Theorem wildcardMatch_self_and_star (s : string) :
  wildcardMatch s s = true /\ wildcardMatch s "*" = true.
Proof. split; [apply wildcardMatch_refl|reflexivity]. Qed.

(** X7. A key that wildcard-matches a name without [*] is equivalent to
    the name under [Less], neither less nor greater: the keys that may match
    are among those [equal_range] is asked for. *)
Theorem matching_key_is_equivalent (name key : string) :
  has_star name = false -> wildcardMatch name key = true ->
  Less name key = false /\ Less key name = false.
Proof. intros H W. exact (wildcardMatch_equivalent key name W H). Qed.

Lemma matching_key_is_equivalent_witness :
  Less "abc" "a*c" = false /\ Less "a*c" "abc" = false.
Proof. apply (matching_key_is_equivalent "abc" "a*c"); reflexivity. Defined.

End Strings.

(** ** Tokens *)

Section Tokens.

Lemma append_nil_r (s : string) : (s ++ "")%string = s.
Proof. induction s; simpl; congruence. Qed.

Lemma append_assoc (a b c : string) : ((a ++ b) ++ c)%string = (a ++ (b ++ c))%string.
Proof. induction a; simpl; congruence. Qed.

Lemma append_empty (a b : string) : (a ++ b)%string = "" -> a = "" /\ b = "".
Proof. destruct a; simpl; [auto|discriminate]. Qed.

Lemma mentions_append (c : ascii) (a b : string) :
  mentions c (a ++ b) = mentions c a || mentions c b.
Proof.
  induction a as [|x a IH]; simpl; [reflexivity|]. rewrite IH, orb_assoc. reflexivity.
Qed.

(** A separator ends the token that is being collected. *)
Lemma tokens_from_app (a b : string) : forall tok : string,
  tokens_from tok (a ++ String slash b) = tokens_from tok a ++ tokens_from "" b.
Proof.
  induction a as [|c a IH]; intros tok; simpl.
  - destruct (String.eqb tok ""); reflexivity.
  - destruct (Ascii.eqb c slash).
    + destruct (String.eqb tok ""); rewrite IH; reflexivity.
    + apply IH.
Qed.

(** Without a separator there is one token, or none. *)
Lemma tokens_from_token (t : string) : forall tok : string,
  mentions slash t = false ->
  tokens_from tok t = if String.eqb (tok ++ t) "" then [] else [(tok ++ t)%string].
Proof.
  induction t as [|c t IH]; intros tok H; simpl in *.
  - rewrite append_nil_r. reflexivity.
  - apply orb_false_iff in H. destruct H as [Hc Ht]. rewrite Hc.
    rewrite (IH _ Ht), append_assoc. reflexivity.
Qed.

Lemma tokens_from_nonempty (s : string) : forall tok : string,
  mentions slash tok = false ->
  Forall (fun t => t <> "" /\ mentions slash t = false) (tokens_from tok s).
Proof.
  induction s as [|c s IH]; intros tok H; simpl.
  - destruct (String.eqb_spec tok ""); constructor; auto.
  - destruct (Ascii.eqb c slash) eqn:E.
    + destruct (String.eqb_spec tok ""); [apply IH; reflexivity|].
      constructor; [auto|apply IH; reflexivity].
    + apply IH. rewrite mentions_append, H. simpl. rewrite E. reflexivity.
Qed.

(** The characters of the string that are not [c]. *)
Lemma tokens_from_concat (s : string) : forall tok : string,
  String.concat "" (tokens_from tok s)
  = (tok ++ string_of_list_ascii
              (filter (fun c => negb (Ascii.eqb c slash)) (list_ascii_of_string s)))%string.
Proof.
  assert (C : forall t l, String.concat "" (t :: l) = (t ++ String.concat "" l)%string).
  { intros t [|u l]; simpl; [rewrite append_nil_r|]; reflexivity. }
  induction s as [|c s IH]; intros tok; simpl.
  - rewrite append_nil_r. destruct (String.eqb_spec tok ""); [subst|]; reflexivity.
  - destruct (Ascii.eqb c slash); simpl.
    + destruct (String.eqb_spec tok "") as [->|].
      * apply IH.
      * rewrite C, IH. reflexivity.
    + rewrite IH, append_assoc. reflexivity.
Qed.

Lemma Tokenizer_concat_slash (ts : list string) :
  Forall (fun t => t <> "" /\ mentions slash t = false) ts ->
  Tokenizer (String.concat "/" ts) = ts.
Proof.
  unfold Tokenizer.
  induction ts as [|t ts IH]; intros H; [reflexivity|].
  inversion H as [|? ? [Hne Hs] Hts]; subst.
  destruct ts as [|u ts].
  - simpl. rewrite (tokens_from_token t "" Hs). simpl.
    destruct (String.eqb_spec t ""); [contradiction|reflexivity].
  - change (String.concat "/" (t :: u :: ts))
      with (t ++ String slash (String.concat "/" (u :: ts)))%string.
    rewrite tokens_from_app, (tokens_from_token t "" Hs), (IH Hts). simpl.
    destruct (String.eqb_spec t ""); [contradiction|reflexivity].
Qed.

(** X8. No token is empty, no token holds a [/], and the tokens put
    together are the path without its [/]. *)
Theorem Tokenizer_tokens (path : string) :
  Forall (fun t => t <> "" /\ mentions slash t = false) (Tokenizer path) /\
  String.concat "" (Tokenizer path)
  = string_of_list_ascii
      (filter (fun c => negb (Ascii.eqb c slash)) (list_ascii_of_string path)).
Proof.
  split.
  - apply tokens_from_nonempty. reflexivity.
  - apply (tokens_from_concat path "").
Qed.

(** X9. A [/] separates: the tokens of [a/b] are the tokens of [a]
    followed by the tokens of [b], so that leading, trailing and repeated
    [/] change nothing. *)
Theorem Tokenizer_separator (a b : string) :
  Tokenizer (a ++ "/" ++ b) = Tokenizer a ++ Tokenizer b.
Proof. apply tokens_from_app. Qed.

(** X10. Tokens that are not empty and hold no [/], joined with [/], are
    tokenized into themselves. *)
Theorem Tokenizer_of_joined_tokens (ts : list string) :
  Forall (fun t => t <> "" /\ mentions slash t = false) ts ->
  Tokenizer (String.concat "/" ts) = ts.
Proof. apply Tokenizer_concat_slash. Qed.

Lemma Tokenizer_of_joined_tokens_witness :
  Tokenizer (String.concat "/" ["a"; "b*"; "c"]) = ["a"; "b*"; "c"].
Proof.
  apply (Tokenizer_of_joined_tokens ["a"; "b*"; "c"]).
  repeat constructor; discriminate.
Defined.

End Tokens.

(** ** The children of a node in the tree of libstdc++ *)

Section Entries.
Context {V : Type}.

Lemma In_firstn_skipn (e : string * V) (n m : nat) (l : list (string * V)) :
  In e (firstn n (skipn m l)) -> In e l.
Proof.
  intros H. apply In_nth_error in H. destruct H as [i H].
  rewrite nth_error_firstn in H. destruct (Nat.ltb i n); [|discriminate].
  rewrite nth_error_skipn in H. eapply nth_error_In; eassumption.
Qed.

Lemma entries_In (e : string * V) (range : nat * nat) (t : Libstdcxx.Rb_tree V) :
  In e (Libstdcxx.entries range t) -> In e (Libstdcxx.inorder t).
Proof. apply In_firstn_skipn. Qed.

Lemma find_exact_nth name (range : list (string * V)) : forall i j n,
  Libstdcxx.find_exact name range i = Some (j, n) ->
  i <= j /\ nth_error range (j - i) = Some (name, n).
Proof.
  induction range as [|[key n0] range IH]; intros i j n H; simpl in H; [discriminate|].
  destruct (String.eqb_spec key name) as [->|Hk].
  - injection H as <- <-. rewrite Nat.sub_diag. split; [lia|reflexivity].
  - destruct (IH _ _ _ H) as [Hle Hn]. split; [lia|].
    replace (j - i) with (S (j - S i)) by lia. exact Hn.
Qed.

(** What [child] finds is an entry of the candidate range, at the iterator
    that [child] holds. *)
Lemma find_exact_entries name (range : nat * nat) (t : Libstdcxx.Rb_tree V) it n :
  Libstdcxx.find_exact name (Libstdcxx.entries range t) (fst range) = Some (it, n) ->
  In (name, n) (Libstdcxx.entries range t) /\ nth_error (Libstdcxx.inorder t) it = Some (name, n).
Proof.
  intros H. destruct (find_exact_nth _ _ _ _ _ H) as [Hle Hn]. split.
  - eapply nth_error_In; eassumption.
  - unfold Libstdcxx.entries in Hn. rewrite nth_error_firstn in Hn.
    destruct (Nat.ltb (it - fst range) (snd range - fst range)); [|discriminate].
    rewrite nth_error_skipn in Hn.
    replace (fst range + (it - fst range)) with it in Hn by lia. exact Hn.
Qed.

Lemma In_write (e : string * V) (v : V) : forall (l : list (string * V)) i,
  In e (Libstdcxx.write i v l) ->
  In e l \/ exists v0, nth_error l i = Some (fst e, v0) /\ snd e = v.
Proof.
  induction l as [|[key v0] l IH]; intros i H; [destruct H|].
  destruct i as [|i]; simpl in H.
  - destruct H as [<-|H]; [right; exists v0; auto|left; right; exact H].
  - destruct H as [<-|H]; [left; left; reflexivity|].
    destruct (IH i H) as [H'|H']; [left; right; exact H'|right; exact H'].
Qed.

Lemma write_In (e : string * V) (v : V) : forall (l : list (string * V)) i,
  In e l -> In e (Libstdcxx.write i v l) \/ nth_error l i = Some e.
Proof.
  induction l as [|[key v0] l IH]; intros i H; [destruct H|].
  destruct i as [|i]; simpl.
  - destruct H as [<-|H]; [right; reflexivity|left; right; exact H].
  - destruct H as [<-|H]; [left; left; reflexivity|].
    destruct (IH i H) as [H'|H']; [left; right; exact H'|right; exact H'].
Qed.

Lemma write_nth i (v : V) : forall (l : list (string * V)) key v0,
  nth_error l i = Some (key, v0) -> In (key, v) (Libstdcxx.write i v l).
Proof.
  induction i as [|i IH]; intros [|[k0 w] l] key v0 H; simpl in *; try discriminate.
  - injection H as -> _. left. reflexivity.
  - right. eapply IH. eassumption.
Qed.

End Entries.

Section Insert.
Context {V : Type} (k : string).

(** [insert] puts the new entry between the entries that were there. *)
Lemma inorder_insert_equal (t : Libstdcxx.Rb_tree V) (v : V) :
  exists pre post,
    Libstdcxx.inorder t = pre ++ post /\
    Libstdcxx.inorder (Libstdcxx.insert_equal k v t) = pre ++ (k, v) :: post /\
    List.length pre = Libstdcxx.M_upper_bound t 0 (Libstdcxx.size t) k.
Proof.
  pose (path := Libstdcxx.get_insert_equal_pos k t []).
  assert (Hic : Forall (Libstdcxx.ic k) path) by (apply get_insert_equal_pos_ic; constructor).
  assert (Ht : Libstdcxx.attach_all Libstdcxx.Nil path = t) by apply attach_get_insert_equal_pos.
  pose proof (InvOld_attach_all k path _ _ _ (InvOld_base k) Hic) as Hold.
  rewrite Ht in Hold.
  destruct (inorder_attach_all path) as (pre & post & Hl & Hi).
  exists pre, post.
  assert (Eold : Libstdcxx.inorder t = pre ++ post).
  { rewrite <- Ht. rewrite Hi. reflexivity. }
  split; [exact Eold|]. split.
  - unfold Libstdcxx.insert_equal. rewrite inorder_set_color, inorder_rebalance, Hi. reflexivity.
  - destruct Hold as (Ho & Hub & _). rewrite Hub, Hl. unfold Libstdcxx.spot.
    destruct (Nat.ltb_spec (Libstdcxx.offs path 0) (Libstdcxx.size t)); lia.
Qed.

End Insert.

(** X11. Whatever [Less] makes of the keys, [equal_range] on the tree of
    libstdc++ gives a range of the map: the first iterator is not after
    the second, the second not after [end()].  The loops of [child] and
    [matchWalk] run over the entries between them. *)
Theorem equal_range_is_a_range {V : Type} (k : string) (t : Libstdcxx.Rb_tree V) :
  fst (Libstdcxx.equal_range k t) <= snd (Libstdcxx.equal_range k t) /\
  snd (Libstdcxx.equal_range k t) <= Libstdcxx.size t /\
  List.length (Libstdcxx.entries (Libstdcxx.equal_range k t) t)
  = snd (Libstdcxx.equal_range k t) - fst (Libstdcxx.equal_range k t).
Proof.
  unfold Libstdcxx.equal_range, Libstdcxx.entries.
  pose proof (ER_ordered k t 0 (Libstdcxx.size t) (Nat.le_refl _)) as H1.
  pose proof (ER_bounds k t 0 (Libstdcxx.size t) (Nat.le_refl _)) as [_ [_ H2]].
  split; [exact H1|]. split; [exact H2|].
  rewrite length_firstn, length_skipn, length_inorder. lia.
Qed.

(** X12. [insert] on the tree of libstdc++ keeps the entries and their
    order, whatever [Less] makes of the keys: the new entry goes in where
    [_M_upper_bound] points, between the entries that were there. *)
Theorem insert_keeps_the_entries {V : Type} (k : string) (v : V)
  (t : Libstdcxx.Rb_tree V) :
  exists pre post,
    Libstdcxx.inorder t = pre ++ post /\
    Libstdcxx.inorder (Libstdcxx.insert_equal k v t) = pre ++ (k, v) :: post /\
    List.length pre = Libstdcxx.M_upper_bound t 0 (Libstdcxx.size t) k.
Proof. apply inorder_insert_equal. Qed.

(** ** The trie over the tree of libstdc++ *)

Section LibstdcxxTrie.

Lemma Libstdcxx_child_spec (node : Libstdcxx.Node) (name : string) it n :
  Libstdcxx.child node name = Some (it, n) ->
  In (name, n) (Libstdcxx.childRange node name) /\
  nth_error (Libstdcxx.inorder (Libstdcxx.m_children node)) it = Some (name, n).
Proof. apply find_exact_entries. Qed.

Lemma Libstdcxx_childRange_In (node : Libstdcxx.Node) (name : string) e :
  In e (Libstdcxx.childRange node name) -> In e (Libstdcxx.inorder (Libstdcxx.m_children node)).
Proof. apply entries_In. Qed.

(** After the loop of [addPath] has passed a node, [child] finds there the
    node the cursor moved to. *)
Lemma Libstdcxx_addWalk_step (name : string) (tokens : list string) (node : Libstdcxx.Node) :
  exists it,
    Libstdcxx.child (Libstdcxx.addWalk (name :: tokens) node) name
    = Some (it, Libstdcxx.addWalk tokens (Libstdcxx_nextNode_of node name)).
Proof.
  cbn [Libstdcxx.addWalk]. unfold Libstdcxx_nextNode_of.
  destruct (Libstdcxx.child node name) as [[it nextNode]|] eqn:E; unfold Libstdcxx.child in *;
    cbn [Libstdcxx.m_children].
  - exists it. apply (find_exact_set_value name _ _ _ _ E).
  - destruct (find_exact_insert_equal name _ (Libstdcxx.addWalk tokens Libstdcxx.newNode) E) as (it & Hc & _).
    exists it. exact Hc.
Qed.

Lemma Libstdcxx_bestWalk_branch (start key : string) (newStart : list string)
  (node n : Libstdcxx.Node) (r : Result) :
  In (key, n) (Libstdcxx.childRange node start) ->
  Detail.wildcardMatch start key = true ->
  r <> NoMatch ->
  precedence r <= precedence (Libstdcxx.bestWalk newStart n) ->
  precedence r <= precedence (Libstdcxx.bestWalk (start :: newStart) node).
Proof.
  intros Hin Hw Hr Hle. cbn [Libstdcxx.bestWalk]. apply best_of_reaches; [assumption|].
  exists (Libstdcxx.bestWalk newStart n). split; [|assumption].
  apply in_map_iff. exists (key, n). split; [reflexivity|].
  apply filter_In. auto.
Qed.

Lemma Libstdcxx_bestWalk_addWalk_prefix (query : list string) :
  forall (rest : list string) (node : Libstdcxx.Node),
  precedence DescendantMatch
  <= precedence (Libstdcxx.bestWalk query (Libstdcxx.addWalk (query ++ rest) node)) /\
  (rest = [] -> Libstdcxx.bestWalk query (Libstdcxx.addWalk (query ++ rest) node) = Match).
Proof.
  induction query as [|k query IH]; intros rest node.
  - split.
    + simpl. destruct (Libstdcxx.terminator _); simpl; lia.
    + intros ->. reflexivity.
  - destruct (Libstdcxx_addWalk_step k (query ++ rest) node) as [it Hc].
    apply Libstdcxx_child_spec in Hc. destruct Hc as [Hc _].
    destruct (IH rest (Libstdcxx_nextNode_of node k)) as [Hd Hm]. split.
    + eapply Libstdcxx_bestWalk_branch; eauto using wildcardMatch_refl.
      discriminate.
    + intros E. apply precedence_inj. apply Nat.le_antisymm.
      * apply precedence_le_Match.
      * eapply Libstdcxx_bestWalk_branch; eauto using wildcardMatch_refl; [discriminate|].
        rewrite (Hm E). lia.
Qed.

(** A branch of the walk that is better than [NoMatch]. *)
Lemma Libstdcxx_bestWalk_reaches (r : Result) (start : string) (newStart : list string)
  (node : Libstdcxx.Node) :
  r <> NoMatch ->
  precedence r <= precedence (Libstdcxx.bestWalk (start :: newStart) node) ->
  exists key n,
    In (key, n) (Libstdcxx.inorder (Libstdcxx.m_children node)) /\
    Detail.wildcardMatch start key = true /\
    precedence r <= precedence (Libstdcxx.bestWalk newStart n).
Proof.
  intros Hr Hle. cbn [Libstdcxx.bestWalk] in Hle. apply best_of_reaches in Hle; [|assumption].
  destruct Hle as [x [Hx Hle]].
  apply in_map_iff in Hx. destruct Hx as [[key n] [<- He]].
  apply filter_In in He. destruct He as [He Hw]. simpl in *.
  exists key, n. split; [|auto]. eapply Libstdcxx_childRange_In; eassumption.
Qed.

Lemma Libstdcxx_bestWalk_Match_stored (query : list string) : forall node : Libstdcxx.Node,
  Libstdcxx.bestWalk query node = Match ->
  exists keys, segments_match query keys /\ Libstdcxx_stored node keys.
Proof.
  induction query as [|start newStart IH]; intros node H.
  - exists []. split; [constructor|]. simpl in *.
    destruct (Libstdcxx.terminator node); [reflexivity|discriminate].
  - destruct (Libstdcxx_bestWalk_reaches Match start newStart node) as (key & n & Hin & Hw & Hle);
      [discriminate|rewrite H; lia|].
    destruct (IH n) as [keys [Hs Hst]].
    { apply precedence_inj. destruct (Libstdcxx.bestWalk newStart n); simpl in *; lia. }
    exists (key :: keys). split; [constructor; assumption|].
    simpl. eauto.
Qed.

Lemma Libstdcxx_bestWalk_reachable (query : list string) : forall node : Libstdcxx.Node,
  Libstdcxx.bestWalk query node <> NoMatch ->
  exists keys, segments_match query keys /\ Libstdcxx_reachable node keys.
Proof.
  induction query as [|start newStart IH]; intros node H.
  - exists []. split; [constructor|exact I].
  - destruct (Libstdcxx_bestWalk_reaches DescendantMatch start newStart node)
      as (key & n & Hin & Hw & Hle); [discriminate| |].
    { destruct (Libstdcxx.bestWalk (start :: newStart) node); simpl; [congruence|lia|lia]. }
    destruct (IH n) as [keys [Hs Hst]].
    { intros E. rewrite E in Hle. simpl in Hle. lia. }
    exists (key :: keys). split; [constructor; assumption|].
    simpl. eauto.
Qed.

Lemma Libstdcxx_stored_newNode (keys : list string) : ~ Libstdcxx_stored Libstdcxx.newNode keys.
Proof. destruct keys; simpl; [discriminate|]. intros [n [[] _]]. Qed.

Lemma Libstdcxx_reachable_newNode (keys : list string) : Libstdcxx_reachable Libstdcxx.newNode keys -> keys = [].
Proof. destruct keys; simpl; [reflexivity|]. intros [n [[] _]]. Qed.

(** The entries of a node after the loop of [addPath] has passed it. *)
Lemma Libstdcxx_addWalk_entries (name : string) (tokens : list string) (node : Libstdcxx.Node) e :
  In e (Libstdcxx.inorder (Libstdcxx.m_children (Libstdcxx.addWalk (name :: tokens) node))) ->
  In e (Libstdcxx.inorder (Libstdcxx.m_children node)) \/
  (e = (name, Libstdcxx.addWalk tokens (Libstdcxx_nextNode_of node name)) /\
   (Libstdcxx.child node name <> None ->
    In (name, Libstdcxx_nextNode_of node name) (Libstdcxx.inorder (Libstdcxx.m_children node)))).
Proof.
  cbn [Libstdcxx.addWalk]. unfold Libstdcxx_nextNode_of.
  destruct (Libstdcxx.child node name) as [[it nextNode]|] eqn:E; cbn [Libstdcxx.m_children]; intros H.
  - apply Libstdcxx_child_spec in E. destruct E as [_ E].
    rewrite inorder_set_value in H. apply In_write in H.
    destruct H as [H|[v0 [Hn Hv]]]; [left; exact H|right].
    rewrite E in Hn. injection Hn as Hk _. split.
    + destruct e; simpl in *; congruence.
    + intros _. eapply nth_error_In; eassumption.
  - destruct (inorder_insert_equal name (Libstdcxx.m_children node) (Libstdcxx.addWalk tokens Libstdcxx.newNode))
      as (pre & post & E1 & E2 & _).
    rewrite E2 in H. rewrite E1. apply in_app_or in H.
    destruct H as [H|[H|H]].
    + left. apply in_or_app. auto.
    + right. split; [congruence|congruence].
    + left. apply in_or_app. auto.
Qed.

(** [addPath] stores the pattern it is given and nothing else. *)
Lemma Libstdcxx_stored_addWalk (tokens : list string) : forall (node : Libstdcxx.Node) (keys : list string),
  Libstdcxx_stored (Libstdcxx.addWalk tokens node) keys -> keys = tokens \/ Libstdcxx_stored node keys.
Proof.
  induction tokens as [|name tokens IH]; intros node keys H.
  - destruct keys; [left; reflexivity|right; exact H].
  - destruct keys as [|k keys].
    + right. revert H. cbn [Libstdcxx.addWalk]. destruct (Libstdcxx.child node name) as [[it n]|]; exact (fun H => H).
    + cbn [Libstdcxx_stored] in H. destruct H as [n [Hin Hst]].
      apply Libstdcxx_addWalk_entries in Hin. destruct Hin as [Hin|[E Hnext]].
      * right. simpl. eauto.
      * injection E as -> ->. destruct (IH _ _ Hst) as [->|Hs]; [left; reflexivity|].
        right. unfold Libstdcxx_nextNode_of in *.
        destruct (Libstdcxx.child node name) as [[it nextNode]|].
        -- simpl. exists nextNode. split; [apply Hnext; discriminate|exact Hs].
        -- destruct (Libstdcxx_stored_newNode _ Hs).
Qed.

(** [addPath] makes the nodes along the pattern it is given and no other. *)
Lemma Libstdcxx_reachable_addWalk (tokens : list string) :
  forall (node : Libstdcxx.Node) (keys : list string),
  Libstdcxx_reachable (Libstdcxx.addWalk tokens node) keys ->
  Libstdcxx_reachable node keys \/ exists rest, tokens = keys ++ rest.
Proof.
  induction tokens as [|name tokens IH]; intros node keys H.
  - left. destruct keys; [exact I|exact H].
  - destruct keys as [|k keys]; [left; exact I|].
    cbn [Libstdcxx_reachable] in H. destruct H as [n [Hin Hst]].
    apply Libstdcxx_addWalk_entries in Hin. destruct Hin as [Hin|[E Hnext]].
    + left. simpl. eauto.
    + injection E as -> ->. destruct (IH _ _ Hst) as [Hs|[rest ->]].
      * unfold Libstdcxx_nextNode_of in *.
        destruct (Libstdcxx.child node name) as [[it nextNode]|].
        -- left. simpl. exists nextNode. split; [apply Hnext; discriminate|exact Hs].
        -- right. rewrite (Libstdcxx_reachable_newNode _ Hs). exists tokens. reflexivity.
      * right. exists rest. reflexivity.
Qed.

(** [addPath] removes nothing: what was stored stays stored. *)
Lemma Libstdcxx_stored_kept (tokens : list string) : forall (node : Libstdcxx.Node) (keys : list string),
  Libstdcxx_stored node keys -> Libstdcxx_stored (Libstdcxx.addWalk tokens node) keys.
Proof.
  induction tokens as [|name tokens IH]; intros node keys H.
  - destruct keys; [reflexivity|exact H].
  - destruct keys as [|k keys].
    + revert H. cbn [Libstdcxx.addWalk Libstdcxx_stored].
      destruct (Libstdcxx.child node name) as [[it n]|]; exact (fun H => H).
    + cbn [Libstdcxx_stored] in *. destruct H as [n [Hin Hst]]. cbn [Libstdcxx.addWalk].
      destruct (Libstdcxx.child node name) as [[it nextNode]|] eqn:E; cbn [Libstdcxx.m_children].
      * apply Libstdcxx_child_spec in E. destruct E as [_ E].
        rewrite inorder_set_value.
        destruct (write_In _ (Libstdcxx.addWalk tokens nextNode) _ it Hin) as [H|H].
        -- eauto.
        -- rewrite E in H. injection H as <- <-.
           exists (Libstdcxx.addWalk tokens nextNode). split; [|apply IH; exact Hst].
           eapply write_nth. eassumption.
      * destruct (inorder_insert_equal name (Libstdcxx.m_children node) (Libstdcxx.addWalk tokens Libstdcxx.newNode))
          as (pre & post & E1 & E2 & _).
        rewrite E2. rewrite E1 in Hin. exists n. split; [|exact Hst].
        apply in_app_or in Hin. apply in_or_app. destruct Hin; [left|right; right]; assumption.
Qed.

Lemma Libstdcxx_stored_root_after (paths : list string) :
  forall (root : Libstdcxx.Node) (keys : list string),
  Libstdcxx_stored (fold_left (fun node path => Libstdcxx.addWalk (Tokenizer path) node) paths root) keys ->
  Libstdcxx_stored root keys \/ exists p, In p paths /\ Tokenizer p = keys.
Proof.
  induction paths as [|p paths IH]; intros root keys H; simpl in *; [auto|].
  destruct (IH _ _ H) as [Hs|[p' [Hin E]]].
  - destruct (Libstdcxx_stored_addWalk _ _ _ Hs) as [->|Hs']; eauto.
  - eauto.
Qed.

Lemma Libstdcxx_reachable_root_after (paths : list string) :
  forall (root : Libstdcxx.Node) (keys : list string),
  Libstdcxx_reachable (fold_left (fun node path => Libstdcxx.addWalk (Tokenizer path) node) paths root) keys ->
  Libstdcxx_reachable root keys \/ exists p rest, In p paths /\ Tokenizer p = keys ++ rest.
Proof.
  induction paths as [|p paths IH]; intros root keys H; simpl in *; [auto|].
  destruct (IH _ _ H) as [Hs|[p' [rest [Hin E]]]].
  - destruct (Libstdcxx_reachable_addWalk _ _ _ Hs) as [Hs'|[rest E]]; [auto|].
    right. exists p, rest. auto.
  - right. exists p', rest. auto.
Qed.

End LibstdcxxTrie.

(** ** The trie in the sequence semantics *)

Section SequenceTrie.

Lemma bestWalk_reaches (r : Result) (start : string) (newStart : list string)
  (node : Node) :
  r <> NoMatch ->
  precedence r <= precedence (bestWalk (start :: newStart) node) ->
  exists key n,
    In (key, n) (m_children node) /\
    Detail.wildcardMatch start key = true /\
    precedence r <= precedence (bestWalk newStart n).
Proof.
  intros Hr Hle. cbn [bestWalk] in Hle. apply best_of_reaches in Hle; [|assumption].
  destruct Hle as [x [Hx Hle]].
  apply in_map_iff in Hx. destruct Hx as [[key n] [<- He]].
  apply filter_In in He. destruct He as [He Hw]. simpl in *.
  exists key, n. split; [|auto].
  rewrite childRange_one_pass in He. eapply range_from_In; eauto.
Qed.

Lemma bestWalk_reachable (query : list string) : forall node : Node,
  bestWalk query node <> NoMatch ->
  exists keys, segments_match query keys /\ reachable node keys.
Proof.
  induction query as [|start newStart IH]; intros node H.
  - exists []. split; [constructor|exact I].
  - destruct (bestWalk_reaches DescendantMatch start newStart node)
      as (key & n & Hin & Hw & Hle); [discriminate| |].
    { destruct (bestWalk (start :: newStart) node); simpl; [congruence|lia|lia]. }
    destruct (IH n) as [keys [Hs Hst]].
    { intros E. rewrite E in Hle. simpl in Hle. lia. }
    exists (key :: keys). split; [constructor; assumption|].
    simpl. eauto.
Qed.

Lemma reachable_newNode (keys : list string) : reachable newNode keys -> keys = [].
Proof. destruct keys; simpl; [reflexivity|]. intros [n [[] _]]. Qed.

Lemma addWalk_entries (name : string) (tokens : list string) (node : Node) e :
  In e (m_children (addWalk (name :: tokens) node)) ->
  In e (m_children node) \/
  (e = (name, addWalk tokens (nextNode_of node name)) /\
   (child node name <> None -> In (name, nextNode_of node name) (m_children node))).
Proof.
  cbn [addWalk]. unfold nextNode_of.
  destruct (child node name) as [n0|] eqn:C; intros H.
  - rewrite store_child_one_pass in H. cbn [m_children] in H.
    rewrite child_one_pass in C.
    assert (F := store_from_replaced name n0 (addWalk tokens n0) _ _ C).
    destruct (Forall2_In_r _ _ _ F _ H) as [e0 [He [E|[-> E]]]].
    + subst e. left. exact He.
    + right. split; [exact E|]. intros _. exact He.
  - rewrite insert_child_one_pass in H. cbn [m_children] in H.
    apply sorted_insert_In in H. destruct H as [E|H]; [right|left; exact H].
    split; [exact E|congruence].
Qed.

Lemma reachable_addWalk (tokens : list string) :
  forall (node : Node) (keys : list string),
  reachable (addWalk tokens node) keys ->
  reachable node keys \/ exists rest, tokens = keys ++ rest.
Proof.
  induction tokens as [|name tokens IH]; intros node keys H.
  - left. destruct keys; [exact I|exact H].
  - destruct keys as [|k keys]; [left; exact I|].
    cbn [reachable] in H. destruct H as [n [Hin Hst]].
    apply addWalk_entries in Hin. destruct Hin as [Hin|[E Hnext]].
    + left. simpl. eauto.
    + injection E as -> ->. destruct (IH _ _ Hst) as [Hs|[rest ->]].
      * unfold nextNode_of in *.
        destruct (child node name) as [nextNode|].
        -- left. simpl. exists nextNode. split; [apply Hnext; discriminate|exact Hs].
        -- right. rewrite (reachable_newNode _ Hs). exists tokens. reflexivity.
      * right. exists rest. reflexivity.
Qed.

Lemma reachable_root_after (paths : list string) :
  forall (root : Node) (keys : list string),
  reachable (root_after paths root) keys ->
  reachable root keys \/ exists p rest, In p paths /\ Tokenizer p = keys ++ rest.
Proof.
  induction paths as [|p paths IH]; intros root keys H; simpl in *; [auto|].
  destruct (IH _ _ H) as [Hs|[p' [rest [Hin E]]]].
  - destruct (reachable_addWalk _ _ _ Hs) as [Hs'|[rest E]]; [auto|].
    right. exists p, rest. auto.
  - right. exists p', rest. auto.
Qed.

Lemma stored_kept (tokens : list string) : forall (node : Node) (keys : list string),
  stored node keys -> stored (addWalk tokens node) keys.
Proof.
  induction tokens as [|name tokens IH]; intros node keys H.
  - destruct keys; [reflexivity|exact H].
  - destruct keys as [|k keys].
    + apply terminator_addWalk. exact H.
    + cbn [stored] in *. destruct H as [n [Hin Hst]]. cbn [addWalk].
      destruct (child node name) as [n0|] eqn:C.
      * rewrite store_child_one_pass. cbn [m_children].
        rewrite child_one_pass in C.
        assert (F := store_from_replaced name n0 (addWalk tokens n0) _ _ C).
        destruct (Forall2_In_l _ _ _ F _ Hin) as [e' [He' [E|[E ->]]]].
        -- subst e'. eauto.
        -- injection E as -> ->. exists (addWalk tokens n0). split; [exact He'|].
           apply IH. exact Hst.
      * rewrite insert_child_one_pass. cbn [m_children].
        exists n. split; [|exact Hst]. apply sorted_insert_In. auto.
Qed.

End SequenceTrie.

(** ** What [addPath] and [match] do together *)

Section Engine.
Import Detail.

Lemma Libstdcxx_match_bestWalk (root : Libstdcxx.Node) (q : string) :
  Libstdcxx.match_ root q = Libstdcxx.bestWalk (Tokenizer q) root.
Proof.
  unfold Libstdcxx.match_. rewrite Libstdcxx_matchWalk_best by discriminate.
  apply best_NoMatch_l.
Qed.

Lemma match_bestWalk (root : Node) (q : string) :
  match_ (mkPathMatcher (Some root)) q = bestWalk (Tokenizer q) root.
Proof. unfold match_. simpl. apply matchWalk_from_NoMatch. Qed.

Lemma engine_match (paths : list string) (q : string) :
  match_after (engine paths) q
  = Some (bestWalk (Tokenizer q) (root_after paths newNode)).
Proof. rewrite engine_root_after. simpl. rewrite match_bestWalk. reflexivity. Qed.

(** X13. Right after [addPath( p )], [match( p )] is [Match], from every
    state of the engine, in the sequence semantics and over the tree of
    libstdc++. *)
Theorem addPath_then_match (m : PathMatcher) (root : Libstdcxx.Node) (p : string) :
  match_after (addPath m p) p = option_map (fun _ => Match) (m_root m) /\
  Libstdcxx.match_ (Libstdcxx.addWalk (Tokenizer p) root) p = Match.
Proof.
  split.
  - unfold addPath. destruct (m_root m) as [r|]; [|reflexivity]. simpl.
    rewrite match_bestWalk. f_equal.
    rewrite <- (app_nil_r (Tokenizer p)) at 2.
    apply bestWalk_addWalk_prefix. reflexivity.
  - rewrite Libstdcxx_match_bestWalk.
    rewrite <- (app_nil_r (Tokenizer p)) at 2.
    apply Libstdcxx_bestWalk_addWalk_prefix. reflexivity.
Qed.

(** X14. Right after [addPath( p )], a query whose tokens are the first
    tokens of [p] is never answered [NoMatch], over either multimap. *)
Theorem addPath_then_match_ancestor (m : PathMatcher) (root : Libstdcxx.Node)
  (p q : string) (rest : list string) :
  Tokenizer p = Tokenizer q ++ rest ->
  match_after (addPath m p) q <> Some NoMatch /\
  Libstdcxx.match_ (Libstdcxx.addWalk (Tokenizer p) root) q <> NoMatch.
Proof.
  intros E. split.
  - unfold addPath. destruct (m_root m) as [r|]; [|discriminate]. simpl.
    rewrite match_bestWalk, E.
    pose proof (proj1 (bestWalk_addWalk_prefix (Tokenizer q) rest r)) as H.
    intros [= C]. rewrite C in H. simpl in H. lia.
  - rewrite Libstdcxx_match_bestWalk, E.
    pose proof (proj1 (Libstdcxx_bestWalk_addWalk_prefix (Tokenizer q) rest root)) as H.
    intros C. rewrite C in H. simpl in H. lia.
Qed.

Lemma addPath_then_match_ancestor_witness :
  match_after (addPath (clear PathMatcher_new) "/a/b/c") "/a/b" <> Some NoMatch /\
  Libstdcxx.match_ (Libstdcxx.addWalk (Tokenizer "/a/b/c") Libstdcxx.newNode) "/a/b" <> NoMatch.
Proof.
  apply (addPath_then_match_ancestor (clear PathMatcher_new) Libstdcxx.newNode "/a/b/c" "/a/b" ["c"]).
  reflexivity.
Defined.

(** X15. [Match] is never invented: on an engine filled after [clear()],
    [match( q ) == Match] only if one of the paths added has as many tokens
    as [q], each wildcard-matched by the token of [q] at its place.  This
    holds over either multimap. *)
Theorem Match_names_a_pattern (paths : list string) (q : string) :
  match_after (engine paths) q = Some Match \/ Libstdcxx.match_ (Libstdcxx.root_after paths) q = Match ->
  exists p, In p paths /\ segments_match (Tokenizer q) (Tokenizer p).
Proof.
  intros [H|H].
  - rewrite engine_match in H. injection H as H.
    destruct (bestWalk_Match_stored _ _ H) as [keys [Hs Hst]].
    destruct (stored_root_after _ _ _ Hst) as [Hn|[p [Hp Hk]]].
    + destruct (stored_newNode _ Hn).
    + exists p. rewrite Hk. auto.
  - rewrite Libstdcxx_match_bestWalk in H.
    destruct (Libstdcxx_bestWalk_Match_stored _ _ H) as [keys [Hs Hst]].
    destruct (Libstdcxx_stored_root_after _ _ _ Hst) as [Hn|[p [Hp Hk]]].
    + destruct (Libstdcxx_stored_newNode _ Hn).
    + exists p. rewrite Hk. auto.
Qed.

Lemma Match_names_a_pattern_witness :
  exists p, In p ["/a/*"; "/b"] /\ segments_match (Tokenizer "/a/x") (Tokenizer p).
Proof.
  apply (Match_names_a_pattern ["/a/*"; "/b"] "/a/x"). left. reflexivity.
Defined.

(** X16. Nor is [DescendantMatch]: a result other than [NoMatch] for a
    query with tokens means that the first tokens of one of the paths added
    are wildcard-matched by the tokens of the query, one by one. *)
Theorem result_names_a_prefix (paths : list string) (q : string) :
  match_after (engine paths) q <> Some NoMatch \/
  Libstdcxx.match_ (Libstdcxx.root_after paths) q <> NoMatch ->
  Tokenizer q = [] \/
  exists p keys rest,
    In p paths /\ Tokenizer p = keys ++ rest /\ segments_match (Tokenizer q) keys.
Proof.
  intros [H|H].
  - rewrite engine_match in H.
    destruct (bestWalk_reachable (Tokenizer q) (root_after paths newNode))
      as [keys [Hs Hst]]; [congruence|].
    destruct (reachable_root_after _ _ _ Hst) as [Hn|[p [rest [Hp Hk]]]].
    + apply reachable_newNode in Hn. subst keys. left. inversion Hs. reflexivity.
    + right. exists p, keys, rest. auto.
  - rewrite Libstdcxx_match_bestWalk in H.
    destruct (Libstdcxx_bestWalk_reachable _ _ H) as [keys [Hs Hst]].
    destruct (Libstdcxx_reachable_root_after _ _ _ Hst) as [Hn|[p [rest [Hp Hk]]]].
    + apply Libstdcxx_reachable_newNode in Hn. subst keys. left. inversion Hs. reflexivity.
    + right. exists p, keys, rest. auto.
Qed.

Lemma result_names_a_prefix_witness :
  Tokenizer "/a" = [] \/
  exists p keys rest,
    In p ["/*/b"] /\ Tokenizer p = keys ++ rest /\ segments_match (Tokenizer "/a") keys.
Proof.
  apply (result_names_a_prefix ["/*/b"] "/a"). right. discriminate.
Defined.

(** X17. [addPath] removes nothing from the trie: a chain of keys that
    led from a node to a terminator leads to one after the call, over either
    multimap. *)
Theorem addPath_keeps_stored (tokens keys : list string) :
  (forall node : Node, stored node keys -> stored (addWalk tokens node) keys) /\
  (forall node : Libstdcxx.Node, Libstdcxx_stored node keys -> Libstdcxx_stored (Libstdcxx.addWalk tokens node) keys).
Proof. split; intros node; [apply stored_kept|apply Libstdcxx_stored_kept]. Qed.

Lemma addPath_keeps_stored_witness :
  stored (addWalk ["b"] (addWalk ["a"] newNode)) ["a"] /\
  Libstdcxx_stored (Libstdcxx.addWalk ["b"] (Libstdcxx.addWalk ["a"] Libstdcxx.newNode)) ["a"].
Proof.
  split.
  - apply (proj1 (addPath_keeps_stored ["b"] ["a"])).
    simpl. eexists. split; [left; reflexivity|reflexivity].
  - apply (proj2 (addPath_keeps_stored ["b"] ["a"])).
    simpl. eexists. split; [left; reflexivity|reflexivity].
Defined.

(** X18. [addPath] of a path without tokens (the empty path, [/], [//])
    marks the root: [match] of a path without tokens is then [Match], and
    every other query is answered as before. *)
Theorem addPath_without_segments (m : PathMatcher) (root : Libstdcxx.Node) (p q : string) :
  Tokenizer p = [] ->
  match_after (addPath m p) q
  = option_map (fun _ => match Tokenizer q with [] => Match | _ => match_ m q end) (m_root m) /\
  Libstdcxx.match_ (Libstdcxx.addWalk (Tokenizer p) root) q
  = match Tokenizer q with [] => Match | _ => Libstdcxx.match_ root q end.
Proof.
  intros E. rewrite E. split.
  - unfold addPath, match_after, match_. rewrite E.
    destruct (m_root m) as [r|]; [|reflexivity]. simpl.
    destruct (Tokenizer q); reflexivity.
  - unfold Libstdcxx.match_. destruct (Tokenizer q); reflexivity.
Qed.

Lemma addPath_without_segments_witness :
  match_after (addPath (clear PathMatcher_new) "//") "/a"
  = option_map (fun _ => match Tokenizer "/a" with
                         | [] => Match
                         | _ => match_ (clear PathMatcher_new) "/a"
                         end) (m_root (clear PathMatcher_new)) /\
  Libstdcxx.match_ (Libstdcxx.addWalk (Tokenizer "//") Libstdcxx.newNode) "/a"
  = match Tokenizer "/a" with [] => Match | _ => Libstdcxx.match_ Libstdcxx.newNode "/a" end.
Proof.
  apply (addPath_without_segments (clear PathMatcher_new) Libstdcxx.newNode "//" "/a").
  reflexivity.
Defined.

(** X19. After [clear()], whatever the engine held, every query with a
    token is answered [NoMatch], and a query without one
    [DescendantMatch]. *)
Theorem match_after_clear (m : PathMatcher) (q : string) :
  match_ (clear m) q = match Tokenizer q with [] => DescendantMatch | _ => NoMatch end /\
  Libstdcxx.match_ Libstdcxx.newNode q = match Tokenizer q with [] => DescendantMatch | _ => NoMatch end.
Proof.
  unfold match_, Libstdcxx.match_. simpl. destruct (Tokenizer q); split; reflexivity.
Qed.

End Engine.

(** ** The tree of libstdc++ under a strict weak ordering *)

Section Lists.
Context {A : Type}.

Lemma takeWhile_app_stop (f : A -> bool) (a : list A) (x : A) (b : list A) :
  f x = false -> takeWhile f (a ++ x :: b) = takeWhile f a.
Proof.
  intros H. induction a as [|y a IH]; simpl; [rewrite H; reflexivity|].
  destruct (f y); [rewrite IH|]; reflexivity.
Qed.

Lemma takeWhile_app_all (f : A -> bool) (a b : list A) :
  Forall (fun x => f x = true) a -> takeWhile f (a ++ b) = a ++ takeWhile f b.
Proof.
  induction 1 as [|y a Hy _ IH]; simpl; [reflexivity|]. rewrite Hy, IH. reflexivity.
Qed.

Lemma dropWhile_app_all (f : A -> bool) (a b : list A) :
  Forall (fun x => f x = true) a -> dropWhile f (a ++ b) = dropWhile f b.
Proof.
  induction 1 as [|y a Hy _ IH]; simpl; [reflexivity|]. rewrite Hy, IH. reflexivity.
Qed.

Lemma takeWhile_Forall (f : A -> bool) (l : list A) :
  Forall (fun x => f x = true) (takeWhile f l).
Proof.
  induction l as [|x l IH]; simpl; [constructor|].
  destruct (f x) eqn:E; constructor; assumption.
Qed.

Lemma length_takeWhile (f : A -> bool) (l : list A) :
  List.length (takeWhile f l) <= List.length l.
Proof.
  induction l as [|x l IH]; simpl; [lia|]. destruct (f x); simpl; lia.
Qed.

Lemma firstn_takeWhile (f : A -> bool) (l : list A) :
  firstn (List.length (takeWhile f l)) l = takeWhile f l.
Proof.
  induction l as [|x l IH]; simpl; [reflexivity|].
  destruct (f x); simpl; [rewrite IH|]; reflexivity.
Qed.

Lemma skipn_takeWhile (f : A -> bool) (l : list A) :
  skipn (List.length (takeWhile f l)) l = dropWhile f l.
Proof.
  induction l as [|x l IH]; simpl; [reflexivity|].
  destruct (f x); simpl; [rewrite IH|]; reflexivity.
Qed.

Lemma takeWhile_weaker (f g : A -> bool) (l : list A) :
  (forall x, f x = true -> g x = true) ->
  takeWhile g l = takeWhile f l ++ takeWhile g (dropWhile f l).
Proof.
  intros H. induction l as [|x l IH]; simpl; [reflexivity|].
  destruct (f x) eqn:E.
  - rewrite (H _ E). simpl. rewrite IH. reflexivity.
  - reflexivity.
Qed.

Lemma StronglySorted_app_inv (R : A -> A -> Prop) (a b : list A) :
  StronglySorted R (a ++ b) ->
  StronglySorted R a /\ StronglySorted R b /\
  forall x y, In x a -> In y b -> R x y.
Proof.
  induction a as [|x a IH]; simpl; intros H.
  - split; [constructor|]. split; [exact H|]. intros ? ? [].
  - apply StronglySorted_inv in H. destruct H as [H Hx].
    destruct (IH H) as (Ha & Hb & Hab).
    rewrite Forall_app in Hx. destruct Hx as [Hxa Hxb].
    split; [constructor; assumption|]. split; [exact Hb|].
    intros u y [<-|Hu] Hy.
    + rewrite Forall_forall in Hxb. auto.
    + auto.
Qed.

Lemma StronglySorted_app (R : A -> A -> Prop) (a b : list A) :
  StronglySorted R a -> StronglySorted R b ->
  (forall x y, In x a -> In y b -> R x y) ->
  StronglySorted R (a ++ b).
Proof.
  intros Ha Hb Hab. induction Ha as [|x a Ha IH Hx]; simpl; [exact Hb|].
  constructor.
  - apply IH. intros u y Hu Hy. apply Hab; [right; exact Hu|exact Hy].
  - rewrite Forall_app. split; [exact Hx|].
    rewrite Forall_forall. intros y Hy. apply Hab; [left; reflexivity|exact Hy].
Qed.

End Lists.

Lemma takeWhile_map {A B} (f : B -> bool) (g : A -> B) (l : list A) :
  takeWhile f (map g l) = map g (takeWhile (fun x => f (g x)) l).
Proof.
  induction l as [|x l IH]; simpl; [reflexivity|].
  destruct (f (g x)); simpl; [rewrite IH|]; reflexivity.
Qed.

Lemma dropWhile_map {A B} (f : B -> bool) (g : A -> B) (l : list A) :
  dropWhile f (map g l) = map g (dropWhile (fun x => f (g x)) l).
Proof.
  induction l as [|x l IH]; simpl; [reflexivity|].
  destruct (f (g x)); simpl; [rewrite IH|]; reflexivity.
Qed.

Lemma find_exact_from_0 {V} name (range : list (string * V)) : forall i,
  Libstdcxx.find_exact name range i
  = option_map (fun p => (i + fst p, snd p)) (Libstdcxx.find_exact name range 0).
Proof.
  induction range as [|[key n0] range IH]; intros i; simpl; [reflexivity|].
  destruct (String.eqb key name); simpl; [rewrite Nat.add_0_r; reflexivity|].
  rewrite (IH (S i)), (IH 1).
  destruct (Libstdcxx.find_exact name range 0) as [[d n]|]; simpl; [|reflexivity].
  f_equal. f_equal. lia.
Qed.

Section Conformance.
Context {V : Type} (k : string).
Import Detail.
Hypothesis plain_k : has_star k = false.

Local Abbreviation less := (@less_than V k).
Local Abbreviation not_greater := (@not_greater_than V k).

Lemma less_not_greater (e : string * V) : less e = true -> not_greater e = true.
Proof.
  unfold less_than, not_greater_than. intros H. rewrite (Less_asym _ _ H). reflexivity.
Qed.

(** In order, the entries before an entry less than [k] are less than [k]. *)
Lemma sorted_left_less (il : list (string * V)) key (v : V) (ir : list (string * V)) :
  key_sorted (il ++ (key, v) :: ir) -> plain_keys (il ++ (key, v) :: ir) ->
  Less key k = true -> Forall (fun e => less e = true) il.
Proof.
  intros Hs Hp Hk. apply StronglySorted_app_inv in Hs. destruct Hs as (_ & _ & Hc).
  unfold plain_keys in Hp. rewrite Forall_app in Hp. destruct Hp as [Hpl Hpr].
  apply Forall_inv in Hpr. simpl in Hpr.
  rewrite Forall_forall in *. intros x Hx. unfold less_than.
  specialize (Hc x (key, v) Hx (or_introl eq_refl)). simpl in Hc.
  destruct (Less (fst x) k) eqn:E; [reflexivity|].
  rewrite (Less_negtrans key (fst x) k Hpr (Hpl x Hx) plain_k Hc E) in Hk. discriminate.
Qed.

(** In order, the entries before an entry not greater than [k] are not
    greater than [k]. *)
Lemma sorted_left_not_greater (il : list (string * V)) key (v : V) (ir : list (string * V)) :
  key_sorted (il ++ (key, v) :: ir) -> plain_keys (il ++ (key, v) :: ir) ->
  Less k key = false -> Forall (fun e => not_greater e = true) il.
Proof.
  intros Hs Hp Hk. apply StronglySorted_app_inv in Hs. destruct Hs as (_ & _ & Hc).
  unfold plain_keys in Hp. rewrite Forall_app in Hp. destruct Hp as [Hpl Hpr].
  apply Forall_inv in Hpr. simpl in Hpr.
  rewrite Forall_forall in *. intros x Hx. unfold not_greater_than.
  specialize (Hc x (key, v) Hx (or_introl eq_refl)). simpl in Hc.
  rewrite (Less_negtrans k key (fst x) plain_k Hpr (Hpl x Hx) Hk Hc). reflexivity.
Qed.

Lemma sorted_parts (il : list (string * V)) e (ir : list (string * V)) :
  key_sorted (il ++ e :: ir) -> plain_keys (il ++ e :: ir) ->
  (key_sorted il /\ plain_keys il) /\ (key_sorted ir /\ plain_keys ir).
Proof.
  intros Hs Hp. apply StronglySorted_app_inv in Hs. destruct Hs as (Hl & Hr & _).
  apply StronglySorted_inv in Hr. destruct Hr as [Hr _].
  unfold plain_keys in *. rewrite Forall_app in Hp. destruct Hp as [Hpl Hpr].
  apply Forall_inv_tail in Hpr. auto.
Qed.

Ltac spot_lia :=
  unfold Libstdcxx.spot;
  repeat match goal with
  | |- context [Nat.ltb ?a ?b] => destruct (Nat.ltb_spec a b)
  end; try lia.

(** [_M_lower_bound] finds the first entry that is not less than [k]. *)
Lemma M_lower_bound_sorted (t : Libstdcxx.Rb_tree V) :
  key_sorted (Libstdcxx.inorder t) -> plain_keys (Libstdcxx.inorder t) ->
  forall first y,
  Libstdcxx.M_lower_bound t first y k
  = Libstdcxx.spot (Libstdcxx.size t) (List.length (takeWhile less (Libstdcxx.inorder t))) first y.
Proof.
  induction t as [|c l IHl key v r IHr]; intros Hs Hp first y; [reflexivity|].
  cbn [Libstdcxx.inorder Libstdcxx.M_lower_bound Libstdcxx.size] in *.
  destruct (sorted_parts _ _ _ Hs Hp) as [[Hsl Hpl] [Hsr Hpr]].
  pose proof (length_takeWhile less (Libstdcxx.inorder l)) as Bl.
  pose proof (length_takeWhile less (Libstdcxx.inorder r)) as Br.
  rewrite length_inorder in Bl, Br.
  destruct (Less key k) eqn:E; cbn [negb].
  - rewrite (IHr Hsr Hpr).
    rewrite (takeWhile_app_all less _ _ (sorted_left_less _ _ _ _ Hs Hp E)).
    cbn [takeWhile]. unfold less_than at 2. cbn [fst]. rewrite E.
    rewrite List.length_app. cbn [List.length]. rewrite length_inorder. spot_lia.
  - rewrite (IHl Hsl Hpl).
    rewrite (takeWhile_app_stop less) by exact E. spot_lia.
Qed.

(** [_M_upper_bound] finds the first entry that is greater than [k]. *)
Lemma M_upper_bound_sorted (t : Libstdcxx.Rb_tree V) :
  key_sorted (Libstdcxx.inorder t) -> plain_keys (Libstdcxx.inorder t) ->
  forall first y,
  Libstdcxx.M_upper_bound t first y k
  = Libstdcxx.spot (Libstdcxx.size t) (List.length (takeWhile not_greater (Libstdcxx.inorder t))) first y.
Proof.
  induction t as [|c l IHl key v r IHr]; intros Hs Hp first y; [reflexivity|].
  cbn [Libstdcxx.inorder Libstdcxx.M_upper_bound Libstdcxx.size] in *.
  destruct (sorted_parts _ _ _ Hs Hp) as [[Hsl Hpl] [Hsr Hpr]].
  pose proof (length_takeWhile not_greater (Libstdcxx.inorder l)) as Bl.
  pose proof (length_takeWhile not_greater (Libstdcxx.inorder r)) as Br.
  rewrite length_inorder in Bl, Br.
  destruct (Less k key) eqn:E.
  - rewrite (IHl Hsl Hpl).
    rewrite (takeWhile_app_stop not_greater) by (unfold not_greater_than; simpl; rewrite E; reflexivity).
    spot_lia.
  - rewrite (IHr Hsr Hpr).
    rewrite (takeWhile_app_all not_greater _ _ (sorted_left_not_greater _ _ _ _ Hs Hp E)).
    cbn [takeWhile]. unfold not_greater_than at 2. cbn [fst]. rewrite E. cbn [negb].
    rewrite List.length_app. cbn [List.length]. rewrite length_inorder. spot_lia.
Qed.

(** The loop of [equal_range] finds both. *)
Lemma equal_range_from_sorted (t : Libstdcxx.Rb_tree V) :
  key_sorted (Libstdcxx.inorder t) -> plain_keys (Libstdcxx.inorder t) ->
  forall first y,
  Libstdcxx.equal_range_from t first y k
  = (Libstdcxx.spot (Libstdcxx.size t) (List.length (takeWhile less (Libstdcxx.inorder t))) first y,
     Libstdcxx.spot (Libstdcxx.size t) (List.length (takeWhile not_greater (Libstdcxx.inorder t))) first y).
Proof.
  induction t as [|c l IHl key v r IHr]; intros Hs Hp first y; [reflexivity|].
  pose proof (M_lower_bound_sorted _ Hs Hp first y) as HL.
  pose proof (M_upper_bound_sorted _ Hs Hp first y) as HU.
  cbn [Libstdcxx.inorder Libstdcxx.M_lower_bound Libstdcxx.M_upper_bound Libstdcxx.equal_range_from Libstdcxx.size] in *.
  destruct (sorted_parts _ _ _ Hs Hp) as [[Hsl Hpl] [Hsr Hpr]].
  destruct (Less key k) eqn:E1; cbn [negb] in HL.
  - rewrite (Less_asym _ _ E1) in HU.
    rewrite (IHr Hsr Hpr), <- HL, <- HU.
    rewrite (M_lower_bound_sorted _ Hsr Hpr), (M_upper_bound_sorted _ Hsr Hpr). reflexivity.
  - destruct (Less k key) eqn:E2.
    + rewrite (IHl Hsl Hpl), <- HL, <- HU.
      rewrite (M_lower_bound_sorted _ Hsl Hpl), (M_upper_bound_sorted _ Hsl Hpl). reflexivity.
    + rewrite <- HL, <- HU. reflexivity.
Qed.

(** [equal_range] gives the entries from the first that is not less than
    [k] up to the first that is greater. *)
Lemma entries_equal_range_sorted (t : Libstdcxx.Rb_tree V) :
  key_sorted (Libstdcxx.inorder t) -> plain_keys (Libstdcxx.inorder t) ->
  fst (Libstdcxx.equal_range k t) = List.length (takeWhile less (Libstdcxx.inorder t)) /\
  Libstdcxx.entries (Libstdcxx.equal_range k t) t
  = takeWhile not_greater (dropWhile less (Libstdcxx.inorder t)).
Proof.
  intros Hs Hp. unfold Libstdcxx.equal_range, Libstdcxx.entries.
  rewrite (equal_range_from_sorted t Hs Hp). cbn [fst snd].
  pose proof (length_takeWhile less (Libstdcxx.inorder t)) as Bl.
  pose proof (length_takeWhile not_greater (Libstdcxx.inorder t)) as Bu.
  rewrite length_inorder in Bl, Bu.
  assert (E1 : Libstdcxx.spot (Libstdcxx.size t) (List.length (takeWhile less (Libstdcxx.inorder t))) 0 (Libstdcxx.size t)
               = List.length (takeWhile less (Libstdcxx.inorder t))) by spot_lia.
  assert (E2 : Libstdcxx.spot (Libstdcxx.size t) (List.length (takeWhile not_greater (Libstdcxx.inorder t))) 0 (Libstdcxx.size t)
               = List.length (takeWhile not_greater (Libstdcxx.inorder t))) by spot_lia.
  rewrite E1, E2. split; [reflexivity|].
  rewrite skipn_takeWhile.
  rewrite (takeWhile_weaker less not_greater (Libstdcxx.inorder t) less_not_greater) at 1.
  rewrite List.length_app.
  replace (List.length (takeWhile less (Libstdcxx.inorder t))
           + List.length (takeWhile not_greater (dropWhile less (Libstdcxx.inorder t)))
           - List.length (takeWhile less (Libstdcxx.inorder t)))
    with (List.length (takeWhile not_greater (dropWhile less (Libstdcxx.inorder t)))) by lia.
  apply firstn_takeWhile.
Qed.

(** [insert] puts the new entry before the first entry that is greater. *)
Lemma inorder_insert_equal_sorted (t : Libstdcxx.Rb_tree V) (v : V) :
  key_sorted (Libstdcxx.inorder t) -> plain_keys (Libstdcxx.inorder t) ->
  Libstdcxx.inorder (Libstdcxx.insert_equal k v t)
  = takeWhile not_greater (Libstdcxx.inorder t) ++ (k, v) :: dropWhile not_greater (Libstdcxx.inorder t).
Proof.
  intros Hs Hp.
  destruct (inorder_insert_equal k t v) as (pre & post & E1 & E2 & E3).
  rewrite (M_upper_bound_sorted t Hs Hp) in E3.
  pose proof (length_takeWhile not_greater (Libstdcxx.inorder t)) as Bu.
  rewrite length_inorder in Bu.
  assert (E4 : List.length pre = List.length (takeWhile not_greater (Libstdcxx.inorder t))).
  { rewrite E3. spot_lia. }
  rewrite E2, <- (firstn_takeWhile not_greater), <- (skipn_takeWhile not_greater), <- E4, E1.
  rewrite firstn_app, firstn_all, Nat.sub_diag, firstn_O, app_nil_r.
  rewrite skipn_app, skipn_all, Nat.sub_diag. reflexivity.
Qed.

(** The write through the iterator of [child]: the entry is in the
    candidate range. *)
Lemma inorder_set_value_sorted (t : Libstdcxx.Rb_tree V) it n (v : V) :
  key_sorted (Libstdcxx.inorder t) -> plain_keys (Libstdcxx.inorder t) ->
  Libstdcxx.find_exact k (Libstdcxx.entries (Libstdcxx.equal_range k t) t) (fst (Libstdcxx.equal_range k t)) = Some (it, n) ->
  exists d,
    Libstdcxx.find_exact k (takeWhile not_greater (dropWhile less (Libstdcxx.inorder t))) 0 = Some (d, n) /\
    Libstdcxx.inorder (Libstdcxx.set_value it v t)
    = takeWhile less (Libstdcxx.inorder t)
      ++ Libstdcxx.write d v (takeWhile not_greater (dropWhile less (Libstdcxx.inorder t)))
      ++ dropWhile not_greater (dropWhile less (Libstdcxx.inorder t)).
Proof.
  intros Hs Hp H.
  destruct (entries_equal_range_sorted t Hs Hp) as [E1 E2].
  rewrite E1, E2 in H.
  destruct (find_exact_ge _ _ _ _ _ H) as (d & -> & Hd).
  exists d. split.
  - rewrite find_exact_from_0 in H.
    destruct (Libstdcxx.find_exact k (takeWhile not_greater (dropWhile less (Libstdcxx.inorder t))) 0)
      as [[d' n']|]; [|discriminate].
    simpl in H. injection H as Hd2 <-. f_equal. f_equal. lia.
  - rewrite inorder_set_value.
    set (A := takeWhile less (Libstdcxx.inorder t)) in *.
    set (R := takeWhile not_greater (dropWhile less (Libstdcxx.inorder t))) in *.
    set (B := dropWhile not_greater (dropWhile less (Libstdcxx.inorder t))).
    assert (El : Libstdcxx.inorder t = A ++ R ++ B).
    { unfold A, R, B. rewrite !takeWhile_dropWhile. reflexivity. }
    rewrite El, write_app.
    destruct (Nat.ltb_spec (List.length A + d) (List.length A)); [lia|].
    f_equal. replace (List.length A + d - List.length A) with d by lia.
    rewrite write_app.
    destruct (Nat.ltb_spec d (List.length R)); [reflexivity|lia].
Qed.

End Conformance.

(** ** Tries without wildcards: the tree and the sequence agree *)

Section Flatten.
Import Detail.

Lemma flatten_eq (t : bool) (c : Libstdcxx.Rb_tree Libstdcxx.Node) :
  flatten (Libstdcxx.mkNode t c) = mkNode t (map flatten_entry (Libstdcxx.inorder c)).
Proof.
  simpl. f_equal. induction c as [|col l IHl key v r IHr]; simpl; [reflexivity|].
  rewrite IHl, IHr, map_app. reflexivity.
Qed.

Lemma flatten_node (node : Libstdcxx.Node) :
  flatten node
  = mkNode (Libstdcxx.terminator node) (map flatten_entry (Libstdcxx.inorder (Libstdcxx.m_children node))).
Proof. destruct node. apply flatten_eq. Qed.

Lemma key_sorted_flatten (l : list (string * Libstdcxx.Node)) :
  key_sorted (map flatten_entry l) <-> key_sorted l.
Proof.
  unfold key_sorted. induction l as [|e l IH]; simpl.
  - split; constructor.
  - split; intros H; apply StronglySorted_inv in H; destruct H as [H1 H2];
      constructor; try (apply IH; exact H1).
    + rewrite Forall_map in H2. exact H2.
    + rewrite Forall_map. exact H2.
Qed.

Lemma plain_keys_flatten (l : list (string * Libstdcxx.Node)) :
  plain_keys (map flatten_entry l) <-> plain_keys l.
Proof. unfold plain_keys. rewrite Forall_map. reflexivity. Qed.

Lemma takeWhile_less_flatten name (l : list (string * Libstdcxx.Node)) :
  takeWhile (key_less name) (map flatten_entry l)
  = map flatten_entry (takeWhile (less_than name) l).
Proof. exact (takeWhile_map (key_less name) flatten_entry l). Qed.

Lemma dropWhile_less_flatten name (l : list (string * Libstdcxx.Node)) :
  dropWhile (key_less name) (map flatten_entry l)
  = map flatten_entry (dropWhile (less_than name) l).
Proof. exact (dropWhile_map (key_less name) flatten_entry l). Qed.

Lemma takeWhile_not_greater_flatten name (l : list (string * Libstdcxx.Node)) :
  takeWhile (key_not_greater name) (map flatten_entry l)
  = map flatten_entry (takeWhile (not_greater_than name) l).
Proof. exact (takeWhile_map (key_not_greater name) flatten_entry l). Qed.

Lemma dropWhile_not_greater_flatten name (l : list (string * Libstdcxx.Node)) :
  dropWhile (key_not_greater name) (map flatten_entry l)
  = map flatten_entry (dropWhile (not_greater_than name) l).
Proof. exact (dropWhile_map (key_not_greater name) flatten_entry l). Qed.

Lemma find_exact_flatten name (range : list (string * Libstdcxx.Node)) : forall i,
  find_exact name (map flatten_entry range)
  = option_map (fun p => flatten (snd p)) (Libstdcxx.find_exact name range i).
Proof.
  induction range as [|[key n0] range IH]; intros i; simpl; [reflexivity|].
  destruct (String.eqb key name); [reflexivity|]. apply IH.
Qed.

Lemma store_exact_write name (v : Libstdcxx.Node) (range : list (string * Libstdcxx.Node)) :
  forall i d n,
  Libstdcxx.find_exact name range i = Some (i + d, n) ->
  map flatten_entry (Libstdcxx.write d v range)
  = store_exact name (flatten v) (map flatten_entry range).
Proof.
  induction range as [|[key n0] range IH]; intros i d n H; simpl in *; [discriminate|].
  destruct (String.eqb key name).
  - injection H as Hd _. assert (d = 0) by lia. subst d. reflexivity.
  - destruct (find_exact_ge _ _ _ _ _ H) as (d' & Hd' & _).
    destruct d as [|d]; [lia|]. simpl. unfold flatten_entry at 1. simpl. f_equal.
    apply (IH (S i) d n). rewrite H. f_equal. f_equal. lia.
Qed.

Section Node.
Variables (node : Libstdcxx.Node) (name : string).
Hypothesis plain_node : plain_trie (flatten node).
Hypothesis plain_name : has_star name = false.

Lemma plain_children :
  key_sorted (Libstdcxx.inorder (Libstdcxx.m_children node)) /\
  plain_keys (Libstdcxx.inorder (Libstdcxx.m_children node)) /\
  Forall (fun e => plain_trie (flatten (snd e))) (Libstdcxx.inorder (Libstdcxx.m_children node)).
Proof.
  rewrite flatten_node in plain_node. inversion plain_node as [t m Hs Hp Hc]; subst.
  apply key_sorted_flatten in Hs. apply plain_keys_flatten in Hp.
  rewrite Forall_map in Hc. auto.
Qed.

(** The candidate range is the same. *)
Lemma childRange_flatten :
  childRange (flatten node) name = map flatten_entry (Libstdcxx.childRange node name).
Proof.
  destruct plain_children as (Hs & Hp & _).
  unfold Libstdcxx.childRange.
  rewrite (proj2 (entries_equal_range_sorted name plain_name _ Hs Hp)).
  rewrite flatten_node. unfold childRange, equal_range, lower_bound. cbn [m_children].
  rewrite dropWhile_less_flatten, takeWhile_not_greater_flatten. reflexivity.
Qed.

(** [child] finds the same entry. *)
Lemma child_flatten :
  child (flatten node) name
  = option_map (fun p => flatten (snd p)) (Libstdcxx.child node name).
Proof.
  unfold child. fold (childRange (flatten node) name). rewrite childRange_flatten.
  apply find_exact_flatten.
Qed.

(** [insert] puts the new entry at the same place. *)
Lemma insert_flatten (v : Libstdcxx.Node) :
  flatten (Libstdcxx.mkNode (Libstdcxx.terminator node) (Libstdcxx.insert_equal name v (Libstdcxx.m_children node)))
  = insert_child (flatten node) name (flatten v).
Proof.
  destruct plain_children as (Hs & Hp & _).
  rewrite flatten_eq, (inorder_insert_equal_sorted name plain_name _ v Hs Hp).
  rewrite (flatten_node node). unfold insert_child, multimap_insert, upper_bound.
  cbn [terminator m_children].
  rewrite takeWhile_not_greater_flatten, dropWhile_not_greater_flatten, map_app.
  reflexivity.
Qed.

(** The write through the iterator of [child] is the write to the entry
    that [child] finds in the sequence. *)
Lemma write_flatten it n (v : Libstdcxx.Node) :
  Libstdcxx.child node name = Some (it, n) ->
  flatten (Libstdcxx.mkNode (Libstdcxx.terminator node) (Libstdcxx.set_value it v (Libstdcxx.m_children node)))
  = store_child (flatten node) name (flatten v).
Proof.
  intros H. destruct plain_children as (Hs & Hp & _).
  destruct (inorder_set_value_sorted name plain_name _ it n v Hs Hp H) as (d & Hd & E).
  rewrite flatten_eq, E.
  rewrite (flatten_node node). unfold store_child, equal_range, lower_bound.
  cbn [terminator m_children].
  rewrite takeWhile_less_flatten, dropWhile_less_flatten,
    takeWhile_not_greater_flatten, dropWhile_not_greater_flatten, !map_app.
  rewrite (store_exact_write name v _ 0 d n Hd). reflexivity.
Qed.

Lemma plain_child it n :
  Libstdcxx.child node name = Some (it, n) -> plain_trie (flatten n).
Proof.
  intros H. destruct plain_children as (_ & _ & Hc).
  apply Libstdcxx_child_spec in H. destruct H as [_ H]. apply nth_error_In in H.
  rewrite Forall_forall in Hc. exact (Hc _ H).
Qed.

End Node.

Lemma plain_newNode : plain_trie newNode.
Proof. constructor; constructor. Qed.

(** [addPath] on the tree is [addPath] on the sequence. *)
Lemma addWalk_flatten (tokens : list string) : forall node : Libstdcxx.Node,
  plain_trie (flatten node) ->
  Forall (fun t => has_star t = false) tokens ->
  flatten (Libstdcxx.addWalk tokens node) = addWalk tokens (flatten node).
Proof.
  induction tokens as [|name tokens IH]; intros node Hn Ht.
  - cbn [Libstdcxx.addWalk addWalk]. rewrite flatten_eq, (flatten_node node). reflexivity.
  - inversion Ht as [|? ? Hname Htokens]; subst.
    cbn [Libstdcxx.addWalk addWalk]. rewrite (child_flatten node name Hn Hname).
    destruct (Libstdcxx.child node name) as [[it nextNode]|] eqn:E; cbn [option_map snd].
    + rewrite (write_flatten node name Hn Hname it nextNode _ E).
      rewrite IH; [reflexivity| |exact Htokens].
      exact (plain_child node name Hn it nextNode E).
    + rewrite (insert_flatten node name Hn Hname).
      rewrite IH; [reflexivity| |exact Htokens]. exact plain_newNode.
Qed.

End Flatten.

Section PlainTries.
Import Detail.

Lemma key_sorted_keys {V} (l : list (string * V)) :
  key_sorted l <-> StronglySorted (fun a b => Less b a = false) (map fst l).
Proof.
  unfold key_sorted. induction l as [|e l IH]; simpl.
  - split; constructor.
  - split; intros H; apply StronglySorted_inv in H; destruct H as [H1 H2];
      constructor; try (apply IH; exact H1).
    + rewrite Forall_map. exact H2.
    + rewrite Forall_map in H2. exact H2.
Qed.

Lemma plain_keys_keys {V} (l : list (string * V)) :
  plain_keys l <-> Forall (fun a => has_star a = false) (map fst l).
Proof. unfold plain_keys. rewrite Forall_map. reflexivity. Qed.

Lemma replaced_keys (name : string) (n0 n' : Node) (m m' : ChildMap) :
  Forall2 (replaced name n0 n') m m' -> map fst m = map fst m'.
Proof.
  induction 1 as [|e e' m m' R _ IH]; simpl; [reflexivity|].
  rewrite (replaced_key _ _ _ _ _ R), IH. reflexivity.
Qed.

(** The new entry, put before the first entry that is greater, keeps the
    order. *)
Lemma key_sorted_insert {V} (k : string) (v : V) (l : list (string * V)) :
  key_sorted l ->
  key_sorted (takeWhile (not_greater_than k) l ++ (k, v) :: dropWhile (not_greater_than k) l).
Proof.
  intros Hs. unfold key_sorted in *.
  rewrite <- (takeWhile_dropWhile (not_greater_than k) l) in Hs.
  apply StronglySorted_app_inv in Hs. destruct Hs as (Ha & Hb & Hab).
  apply StronglySorted_app; [exact Ha| |].
  - constructor; [exact Hb|].
    destruct (dropWhile (not_greater_than k) l) as [|y0 b] eqn:E; [constructor|].
    assert (G : Less k (fst y0) = true).
    { clear - E. induction l as [|x l IH]; simpl in E; [discriminate|].
      destruct (not_greater_than k x) eqn:F; [auto|].
      injection E as <- _. unfold not_greater_than in F.
      destruct (Less k (fst x)); [reflexivity|discriminate]. }
    apply StronglySorted_inv in Hb. destruct Hb as [_ Hy].
    constructor; [exact (Less_asym _ _ G)|].
    rewrite Forall_forall in *. intros y Hin. specialize (Hy y Hin). cbn [fst].
    destruct (Less (fst y) k) eqn:F; [|reflexivity].
    rewrite (Less_trans _ _ _ F G) in Hy. discriminate.
  - intros x y Hx [<-|Hy]; [|auto]. cbn [fst].
    pose proof (takeWhile_Forall (not_greater_than k) l) as T.
    rewrite Forall_forall in T. specialize (T x Hx). unfold not_greater_than in T.
    destruct (Less k (fst x)); [discriminate|reflexivity].
Qed.

(** [addPath] of a pattern without [*] keeps a trie without [*] in
    order. *)
Lemma plain_addWalk (tokens : list string) : forall node : Node,
  plain_trie node ->
  Forall (fun t => has_star t = false) tokens ->
  plain_trie (addWalk tokens node).
Proof.
  induction tokens as [|name tokens IH]; intros node Hn Ht.
  - inversion Hn; subst. constructor; assumption.
  - inversion Ht as [|? ? Hname Htokens]; subst.
    inversion Hn as [t m Hs Hp Hc]; subst.
    cbn [addWalk]. destruct (child (mkNode t m) name) as [n0|] eqn:C.
    + rewrite store_child_one_pass. cbn [terminator m_children].
      rewrite child_one_pass in C. cbn [m_children] in C.
      assert (F := store_from_replaced name n0 (addWalk tokens n0) _ _ C).
      pose proof (replaced_keys _ _ _ _ _ F) as K.
      constructor.
      * apply key_sorted_keys. rewrite <- K. apply key_sorted_keys. exact Hs.
      * apply plain_keys_keys. rewrite <- K. apply plain_keys_keys. exact Hp.
      * rewrite Forall_forall in Hc. apply Forall_forall. intros e' He'.
        destruct (Forall2_In_r _ _ _ F _ He') as [e [He [->|[-> ->]]]]; [auto|].
        apply IH; [|exact Htokens]. exact (Hc _ He).
    + rewrite insert_child_one_pass, <- multimap_insert_sorted.
      cbn [terminator m_children]. unfold multimap_insert, upper_bound.
      constructor.
      * exact (key_sorted_insert name _ m Hs).
      * unfold plain_keys in *. rewrite Forall_app. split.
        -- rewrite <- (takeWhile_dropWhile (key_not_greater name) m) in Hp.
           rewrite Forall_app in Hp. apply Hp.
        -- constructor; [exact Hname|].
           rewrite <- (takeWhile_dropWhile (key_not_greater name) m) in Hp.
           rewrite Forall_app in Hp. apply Hp.
      * rewrite Forall_app. split.
        -- rewrite <- (takeWhile_dropWhile (key_not_greater name) m) in Hc.
           rewrite Forall_app in Hc. apply Hc.
        -- constructor; [apply IH; [exact plain_newNode|exact Htokens]|].
           rewrite <- (takeWhile_dropWhile (key_not_greater name) m) in Hc.
           rewrite Forall_app in Hc. apply Hc.
Qed.

Lemma filter_map_swap {A B} (f : B -> bool) (g : A -> B) (l : list A) :
  filter f (map g l) = map g (filter (fun x => f (g x)) l).
Proof.
  induction l as [|x l IH]; simpl; [reflexivity|].
  destruct (f (g x)); simpl; rewrite IH; reflexivity.
Qed.

(** [match] on the tree is [match] on the sequence. *)
Lemma bestWalk_flatten (tokens : list string) : forall node : Libstdcxx.Node,
  plain_trie (flatten node) ->
  Forall (fun t => has_star t = false) tokens ->
  Libstdcxx.bestWalk tokens node = bestWalk tokens (flatten node).
Proof.
  induction tokens as [|start newStart IH]; intros node Hn Ht.
  - simpl. rewrite (flatten_node node). reflexivity.
  - inversion Ht as [|? ? Hstart Hrest]; subst.
    cbn [Libstdcxx.bestWalk bestWalk]. rewrite (childRange_flatten node start Hn Hstart).
    rewrite (filter_map_swap (fun e => wildcardMatch start (fst e)) flatten_entry).
    rewrite map_map. f_equal. apply map_ext_in. intros e He.
    apply filter_In in He. destruct He as [He _]. apply Libstdcxx_childRange_In in He.
    destruct (plain_children node Hn) as (_ & _ & Hc).
    rewrite Forall_forall in Hc. apply IH; [exact (Hc _ He)|exact Hrest].
Qed.

Lemma mentions_has_star (t : string) : mentions star t = false -> has_star t = false.
Proof.
  induction t as [|c t IH]; simpl; [reflexivity|]. intros H.
  apply orb_false_iff in H. destruct H as [Hc Ht]. rewrite Hc.
  destruct (Ascii.eqb c NUL); auto.
Qed.

Lemma tokens_from_mentions (c : ascii) (s : string) : forall tok : string,
  mentions c tok = false -> mentions c s = false ->
  Forall (fun t => mentions c t = false) (tokens_from tok s).
Proof.
  induction s as [|x s IH]; intros tok Htok Hs; simpl in *.
  - destruct (String.eqb tok ""); constructor; auto.
  - apply orb_false_iff in Hs. destruct Hs as [Hx Hs].
    destruct (Ascii.eqb x slash).
    + destruct (String.eqb tok ""); [apply IH; auto|].
      constructor; [exact Htok|apply IH; auto].
    + apply IH; [|exact Hs]. rewrite mentions_append, Htok. simpl. rewrite Hx. reflexivity.
Qed.

Lemma Tokenizer_plain (p : string) :
  mentions star p = false -> Forall (fun t => has_star t = false) (Tokenizer p).
Proof.
  intros H. eapply Forall_impl; [|apply (tokens_from_mentions star p ""); auto].
  apply mentions_has_star.
Qed.

(** The roots after the same calls of [addPath]. *)
Lemma root_after_flatten (paths : list string) : forall root : Libstdcxx.Node,
  plain_trie (flatten root) ->
  Forall (fun p => mentions star p = false) paths ->
  plain_trie (root_after paths (flatten root)) /\
  flatten (fold_left (fun node path => Libstdcxx.addWalk (Tokenizer path) node) paths root)
  = root_after paths (flatten root).
Proof.
  induction paths as [|p paths IH]; intros root Hr Hp; simpl; [auto|].
  inversion Hp as [|? ? Hp1 Hp2]; subst.
  pose proof (Tokenizer_plain p Hp1) as Ht.
  rewrite <- (addWalk_flatten _ root Hr Ht).
  apply IH; [|exact Hp2].
  rewrite (addWalk_flatten _ root Hr Ht). apply plain_addWalk; assumption.
Qed.

End PlainTries.

Section WithoutWildcards.
Import Detail.

Lemma flatten_newNode : flatten Libstdcxx.newNode = newNode.
Proof. reflexivity. Qed.

Lemma Libstdcxx_root_after_flatten (paths : list string) :
  Forall (fun p => mentions star p = false) paths ->
  plain_trie (root_after paths newNode) /\
  flatten (Libstdcxx.root_after paths) = root_after paths newNode.
Proof.
  intros H. apply (root_after_flatten paths Libstdcxx.newNode); [exact plain_newNode|exact H].
Qed.

Lemma Libstdcxx_match_plain (paths : list string) (q : string) :
  Forall (fun p => mentions star p = false) paths ->
  mentions star q = false ->
  Libstdcxx.match_ (Libstdcxx.root_after paths) q = bestWalk (Tokenizer q) (root_after paths newNode).
Proof.
  intros Hp Hq. rewrite Libstdcxx_match_bestWalk.
  destruct (Libstdcxx_root_after_flatten paths Hp) as [Hplain E].
  rewrite bestWalk_flatten; [rewrite E; reflexivity| |apply Tokenizer_plain; exact Hq].
  rewrite E. exact Hplain.
Qed.

(** X20. When neither the paths added nor the query hold a [*], the tree
    of libstdc++ answers [match] as the sequence semantics of the C++
    standard does: there [Less] is a strict weak ordering and the tree keeps
    its entries in order. *)
Theorem libstdcxx_agrees_without_wildcards (paths : list string) (q : string) :
  Forall (fun p => mentions star p = false) paths ->
  mentions star q = false ->
  match_after (engine paths) q = Some (Libstdcxx.match_ (Libstdcxx.root_after paths) q).
Proof.
  intros Hp Hq. rewrite engine_match, (Libstdcxx_match_plain paths q Hp Hq). reflexivity.
Qed.

Lemma libstdcxx_agrees_without_wildcards_witness :
  match_after (engine ["/a/b"; "/c"; "/a"]) "/a/b"
  = Some (Libstdcxx.match_ (Libstdcxx.root_after ["/a/b"; "/c"; "/a"]) "/a/b").
Proof.
  apply (libstdcxx_agrees_without_wildcards ["/a/b"; "/c"; "/a"] "/a/b").
  - repeat constructor.
  - reflexivity.
Defined.

Lemma literal_mentions (t : string) :
  mentions star t = false -> mentions NUL t = false -> literal t = true.
Proof.
  induction t as [|c t IH]; simpl; [reflexivity|]. intros Hs Hn.
  apply orb_false_iff in Hs. destruct Hs as [Hs1 Hs2].
  apply orb_false_iff in Hn. destruct Hn as [Hn1 Hn2].
  rewrite Hs1, Hn1, IH; auto.
Qed.

Lemma Tokenizer_literal (p : string) :
  mentions star p = false -> mentions NUL p = false ->
  Forall (fun t => literal t = true) (Tokenizer p).
Proof.
  intros Hs Hn.
  pose proof (tokens_from_mentions star p "" eq_refl Hs) as F1.
  pose proof (tokens_from_mentions NUL p "" eq_refl Hn) as F2.
  fold (Tokenizer p) in F1, F2. rewrite Forall_forall in *.
  intros t Ht. apply literal_mentions; auto.
Qed.

(** Between literal tokens, to match is to be equal. *)
Lemma segments_match_literal (query : list string) : forall keys : list string,
  Forall (fun t => literal t = true) query ->
  Forall (fun t => literal t = true) keys ->
  segments_match query keys -> query = keys.
Proof.
  induction query as [|s query IH]; intros keys Hq Hk H; inversion H; subst; [reflexivity|].
  inversion Hq; subst. inversion Hk; subst. f_equal; [|auto].
  match goal with W : wildcardMatch s _ = true |- _ =>
    rewrite wildcardMatch_literal in W by (apply has_star_literal; assumption);
    apply String.eqb_eq in W; rewrite !c_str_literal in W by assumption; exact W
  end.
Qed.

Lemma bestWalk_stored_path (paths : list string) (p : string) (query rest : list string) :
  In p paths -> Tokenizer p = query ++ rest ->
  precedence DescendantMatch <= precedence (bestWalk query (root_after paths newNode)) /\
  (rest = [] -> bestWalk query (root_after paths newNode) = Match).
Proof.
  intros Hin E. destruct (in_split _ _ Hin) as [l1 [l2 ->]].
  rewrite root_after_app. simpl. rewrite E.
  pose proof (root_after_mono query l2 (addWalk (query ++ rest) (root_after l1 newNode))) as M.
  destruct (bestWalk_addWalk_prefix query rest (root_after l1 newNode)) as [Hd Hm].
  split; [exact (Nat.le_trans _ _ _ Hd M)|]. intros R. rewrite (Hm R) in M.
  apply precedence_inj. apply Nat.le_antisymm; [apply precedence_le_Match|exact M].
Qed.

(** X21. When neither the paths added nor the query hold a [*] or a NUL,
    the engine over the tree of libstdc++ is exact: [match( q )] is [Match]
    exactly when [q] has the tokens of a path that was added, and [NoMatch]
    exactly when [q] has tokens that are not the first tokens of any path
    added. *)
Theorem exact_without_wildcards (paths : list string) (q : string) :
  Forall (fun p => mentions star p = false /\ mentions NUL p = false) paths ->
  mentions star q = false -> mentions NUL q = false ->
  (Libstdcxx.match_ (Libstdcxx.root_after paths) q = Match <->
   exists p, In p paths /\ Tokenizer p = Tokenizer q) /\
  (Libstdcxx.match_ (Libstdcxx.root_after paths) q = NoMatch <->
   Tokenizer q <> [] /\
   forall p rest, In p paths -> Tokenizer p <> Tokenizer q ++ rest).
Proof.
  intros Hp Hqs Hqn.
  assert (Hps : Forall (fun p => mentions star p = false) paths).
  { eapply Forall_impl; [|exact Hp]. intros p H. apply H. }
  rewrite (Libstdcxx_match_plain paths q Hps Hqs).
  pose proof (Tokenizer_literal q Hqs Hqn) as Lq.
  assert (Lp : forall p, In p paths -> Forall (fun t => literal t = true) (Tokenizer p)).
  { intros p Hin. rewrite Forall_forall in Hp. destruct (Hp p Hin).
    apply Tokenizer_literal; assumption. }
  split; split.
  - intros H. destruct (bestWalk_Match_stored _ _ H) as [keys [Hs Hst]].
    destruct (stored_root_after _ _ _ Hst) as [Hn|[p [Hin Hk]]].
    + destruct (stored_newNode _ Hn).
    + exists p. split; [exact Hin|]. subst keys. symmetry.
      apply segments_match_literal; auto.
  - intros [p [Hin E]].
    apply (bestWalk_stored_path paths p (Tokenizer q) []); [exact Hin| |reflexivity].
    rewrite app_nil_r. exact E.
  - intros H. split.
    + intros E. rewrite E in H. simpl in H. destruct (terminator _); discriminate.
    + intros p rest Hin E.
      pose proof (proj1 (bestWalk_stored_path paths p (Tokenizer q) rest Hin E)) as D.
      rewrite H in D. simpl in D. lia.
  - intros [Hne Hno].
    destruct (bestWalk (Tokenizer q) (root_after paths newNode)) eqn:R; [reflexivity| |];
      exfalso;
      (destruct (bestWalk_reachable (Tokenizer q) (root_after paths newNode))
         as [keys [Hs Hr]]; [congruence|]);
      (destruct (reachable_root_after _ _ _ Hr) as [Hn|[p [rest [Hin Hk]]]];
       [apply reachable_newNode in Hn; subst keys; inversion Hs; congruence|]);
      (apply (Hno p rest Hin); rewrite Hk; f_equal; symmetry;
       apply segments_match_literal; [exact Lq| |exact Hs]);
      (specialize (Lp p Hin); rewrite Hk, Forall_app in Lp; apply Lp).
Qed.

Lemma exact_without_wildcards_witness :
  (Libstdcxx.match_ (Libstdcxx.root_after ["/a/b"; "/c"]) "/a" = Match <->
   exists p, In p ["/a/b"; "/c"] /\ Tokenizer p = Tokenizer "/a") /\
  (Libstdcxx.match_ (Libstdcxx.root_after ["/a/b"; "/c"]) "/a" = NoMatch <->
   Tokenizer "/a" <> [] /\
   forall p rest, In p ["/a/b"; "/c"] -> Tokenizer p <> Tokenizer "/a" ++ rest).
Proof.
  apply (exact_without_wildcards ["/a/b"; "/c"] "/a").
  - repeat constructor.
  - reflexivity.
  - reflexivity.
Defined.

(** X22. When nothing holds a [*], one more [addPath] never lowers the
    result of [match] over the tree of libstdc++. *)
Theorem monotone_without_wildcards (paths : list string) (p q : string) :
  Forall (fun p => mentions star p = false) paths ->
  mentions star p = false -> mentions star q = false ->
  precedence (Libstdcxx.match_ (Libstdcxx.root_after paths) q)
  <= precedence (Libstdcxx.match_ (Libstdcxx.root_after (paths ++ [p])) q).
Proof.
  intros Hp Hp1 Hq.
  rewrite (Libstdcxx_match_plain paths q Hp Hq).
  rewrite (Libstdcxx_match_plain (paths ++ [p]) q); [|apply Forall_app; auto|exact Hq].
  rewrite root_after_app. simpl. apply bestWalk_addWalk_mono.
Qed.

Lemma monotone_without_wildcards_witness :
  precedence (Libstdcxx.match_ (Libstdcxx.root_after ["/a"; "/b"]) "/c")
  <= precedence (Libstdcxx.match_ (Libstdcxx.root_after (["/a"; "/b"] ++ ["/c"])) "/c").
Proof.
  apply (monotone_without_wildcards ["/a"; "/b"] "/c" "/c").
  - repeat constructor.
  - reflexivity.
  - reflexivity.
Defined.

End WithoutWildcards.

(** ** Strict ancestors of a stored pattern *)

Lemma Libstdcxx_root_after_last (before : list string) (p : string) :
  Libstdcxx.root_after (before ++ [p])
  = Libstdcxx.addWalk (Tokenizer p) (Libstdcxx.root_after before).
Proof. unfold Libstdcxx.root_after. rewrite fold_left_app. reflexivity. Qed.

(** C7, as the program has it, over the tree of libstdc++.  On an engine
    filled after [clear()], a query whose segments are a strict prefix of
    the segments of a stored pattern, and which no stored pattern
    wildcard-matches segment by segment, never gets [Match]; it gets
    [DescendantMatch] when that pattern is the one added last, and when
    neither a stored pattern nor the query holds a [*].  What an earlier
    pattern gets once keys with [*] are stored is not said here. *)
Theorem strict_ancestor_DescendantMatch (paths : list string) (p q : string) :
  In p paths ->
  strict_prefix (Tokenizer q) (Tokenizer p) ->
  (forall p', In p' paths -> ~ segments_match (Tokenizer q) (Tokenizer p')) ->
  Libstdcxx.match_ (Libstdcxx.root_after paths) q <> Match /\
  ((exists before, paths = before ++ [p]) \/
   (Forall (fun p' => mentions star p' = false) paths /\ mentions star q = false) ->
   Libstdcxx.match_ (Libstdcxx.root_after paths) q = DescendantMatch).
Proof.
  intros Hin [rest [_ Hp]] Hnone.
  assert (Hnot : Libstdcxx.match_ (Libstdcxx.root_after paths) q <> Match).
  { rewrite Libstdcxx_match_bestWalk. intros E.
    destruct (Libstdcxx_bestWalk_Match_stored _ _ E) as [keys [Hs Hst]].
    destruct (Libstdcxx_stored_root_after _ _ _ Hst) as [Hn|[p' [Hp' Hk]]].
    - exact (Libstdcxx_stored_newNode _ Hn).
    - apply (Hnone p' Hp'). rewrite Hk. exact Hs. }
  split; [exact Hnot|]. intros Hcase.
  assert (Hlow : precedence DescendantMatch
                 <= precedence (Libstdcxx.match_ (Libstdcxx.root_after paths) q)).
  { destruct Hcase as [[before ->]|[Hplain Hq]].
    - rewrite Libstdcxx_root_after_last, Libstdcxx_match_bestWalk, Hp.
      apply Libstdcxx_bestWalk_addWalk_prefix.
    - rewrite (Libstdcxx_match_plain paths q Hplain Hq).
      apply (bestWalk_stored_path paths p (Tokenizer q) rest Hin Hp). }
  destruct (Libstdcxx.match_ (Libstdcxx.root_after paths) q).
  - simpl in Hlow. lia.
  - reflexivity.
  - destruct Hnot. reflexivity.
Qed.

Lemma strict_ancestor_DescendantMatch_witness :
  Libstdcxx.match_ (Libstdcxx.root_after ["/*x"; "/a/b/c"]) "/a/b" <> Match /\
  Libstdcxx.match_ (Libstdcxx.root_after ["/*x"; "/a/b/c"]) "/a/b" = DescendantMatch.
Proof.
  assert (H : In "/a/b/c" ["/*x"; "/a/b/c"]) by (right; left; reflexivity).
  assert (S : strict_prefix (Tokenizer "/a/b") (Tokenizer "/a/b/c"))
    by (exists ["c"]; split; [discriminate|reflexivity]).
  assert (N : forall p', In p' ["/*x"; "/a/b/c"] ->
                ~ segments_match (Tokenizer "/a/b") (Tokenizer p')).
  { intros p' [<-|[<-|[]]] M.
    - inversion M as [|? ? ? ? _ M1]; subst. inversion M1.
    - inversion M as [|? ? ? ? _ M1]; subst.
      inversion M1 as [|? ? ? ? _ M2]; subst. inversion M2. }
  destruct (strict_ancestor_DescendantMatch ["/*x"; "/a/b/c"] "/a/b/c" "/a/b" H S N)
    as [H1 H2].
  split; [exact H1|]. apply H2. left. exists ["/*x"]. reflexivity.
Defined.

(** What the statement above leaves out.  ["/b"] is a strict ancestor of the
    stored ["/b/x"] and no stored pattern matches it; after the first four
    calls of [addPath] it gets [DescendantMatch].  The later calls make the
    tree of the root rotate until the key ["b"] lies to the left of ["*z"]
    under ["a1"], where the descent of [equal_range( "b" )] never comes: it
    goes left at ["c"] and right from ["a1"] on, the range is empty, and
    [match( "/b" )] is [NoMatch].  This is the defect of the candidate
    range, not a design. *)
Lemma strict_ancestor_hidden :
  let paths := ["/b/x"; "/*z"; "/c"; "/a"; "/d"; "/e"; "/f"; "/g";
                "/a1"; "/a2"; "/a3"; "/a4"; "/a5"] in
  In "/b/x" paths /\
  strict_prefix (Tokenizer "/b") (Tokenizer "/b/x") /\
  (forall p', In p' paths -> ~ segments_match (Tokenizer "/b") (Tokenizer p')) /\
  Libstdcxx.match_ (Libstdcxx.root_after ["/b/x"; "/*z"; "/c"; "/a"]) "/b"
  = DescendantMatch /\
  Libstdcxx.equal_range "b" (Libstdcxx.m_children (Libstdcxx.root_after paths))
  = (8, 8) /\
  Libstdcxx.match_ (Libstdcxx.root_after paths) "/b" = NoMatch.
Proof.
  intros paths. split; [left; reflexivity|].
  split; [exists ["x"]; split; [discriminate|reflexivity]|].
  split; [|repeat split; vm_compute; reflexivity].
  intros p' Hin M. unfold paths in Hin.
  repeat (destruct Hin as [<-|Hin];
          [inversion M as [|? ? ? ? W T]; subst;
           solve [discriminate W | inversion T]|]).
  destruct Hin.
Qed.

(** ** FileSystemPath *)

Section FileSystemPathProperties.
Import FileSystemPath.

Lemma c_str_id (s : string) : mentions NUL s = false -> c_str s = s.
Proof.
  induction s as [|c s IH]; simpl; [reflexivity|]. intros H.
  apply orb_false_iff in H. destruct H as [Hc Hs]. rewrite Hc, IH; auto.
Qed.

Lemma replace_char_id (from to : ascii) (s : string) :
  mentions from s = false -> replace_char from to s = s.
Proof.
  induction s as [|c s IH]; simpl; [reflexivity|]. intros H.
  apply orb_false_iff in H. destruct H as [Hc Hs]. rewrite Hc, IH; auto.
Qed.

Lemma mentions_concat (c : ascii) (sep : string) (ts : list string) :
  mentions c sep = false -> Forall (fun t => mentions c t = false) ts ->
  mentions c (String.concat sep ts) = false.
Proof.
  intros Hsep H. induction H as [|t ts Ht _ IH]; [reflexivity|].
  destruct ts as [|u ts]; [exact Ht|].
  change (String.concat sep (t :: u :: ts))
    with (t ++ sep ++ String.concat sep (u :: ts))%string.
  rewrite !mentions_append, Ht, Hsep, IH. reflexivity.
Qed.

Lemma names_eqb_refl (a : list string) : names_eqb a a = true.
Proof. induction a as [|x a IH]; simpl; [reflexivity|]. rewrite String.eqb_refl. exact IH. Qed.

Lemma names_eqb_eq (a : list string) : forall b, names_eqb a b = true -> a = b.
Proof.
  induction a as [|x a IH]; intros [|y b] H; simpl in H; try discriminate; [reflexivity|].
  apply andb_true_iff in H. destruct H as [H1 H2].
  apply String.eqb_eq in H1. rewrite H1, (IH _ H2). reflexivity.
Qed.

Lemma plain_name_spec (t : string) :
  plain_name t = true ->
  t <> "" /\ mentions slash t = false /\ mentions backslash t = false
  /\ mentions NUL t = false.
Proof.
  unfold plain_name. intros H.
  repeat (apply andb_true_iff in H; destruct H as [H ?]).
  repeat match goal with X : negb _ = true |- _ => apply negb_true_iff in X end.
  apply String.eqb_neq in H. auto.
Qed.

Lemma is_letter_plain (c : ascii) :
  is_letter c = true ->
  Ascii.eqb c slash = false /\ Ascii.eqb c backslash = false /\ Ascii.eqb c NUL = false.
Proof.
  destruct c as [[] [] [] [] [] [] [] []]; intros H; try discriminate H;
    repeat split; reflexivity.
Qed.

Section Canonical.
Variable ns : list string.
Hypothesis plain_ns : forallb plain_name ns = true.

Let J := String.concat "/" ns.

Lemma joined_names :
  mentions NUL J = false /\ mentions backslash J = false /\ tokens_from "" J = ns.
Proof.
  rewrite forallb_forall in plain_ns.
  assert (F : forall P : string -> Prop,
            (forall t, plain_name t = true -> P t) -> Forall P ns).
  { intros P HP. apply Forall_forall. intros t Ht. apply HP, plain_ns, Ht. }
  split; [|split].
  - apply mentions_concat; [reflexivity|]. apply F. intros t Ht.
    apply (plain_name_spec t Ht).
  - apply mentions_concat; [reflexivity|]. apply F. intros t Ht.
    apply (plain_name_spec t Ht).
  - apply Tokenizer_concat_slash. apply F. intros t Ht.
    destruct (plain_name_spec t Ht) as (H1 & H2 & _). auto.
Qed.

Lemma parse_absolute : parse (String slash J) = Some ("/", ns).
Proof.
  destruct joined_names as (Hn & Hb & Ht).
  unfold parse, tokenize, sanitize. rewrite Ascii.eqb_refl.
  cbn [c_str]. change (Ascii.eqb slash NUL) with false. cbv iota.
  rewrite (c_str_id J Hn).
  assert (E : match String slash J with
              | String a (String b r) =>
                  if Ascii.eqb a backslash && Ascii.eqb b backslash
                  then String slash r else String slash J
              | _ => String slash J
              end = String slash J).
  { destruct J; reflexivity. }
  rewrite E. cbn [replace_char]. change (Ascii.eqb slash backslash) with false. cbv iota.
  rewrite (replace_char_id _ _ J Hb).
  cbn [tokens_from]. rewrite Ascii.eqb_refl. cbn [String.eqb]. rewrite Ht. reflexivity.
Qed.

Lemma parse_drive (c : ascii) :
  is_letter c = true ->
  parse (String c (String colon (String slash J)))
  = Some (String c (String colon ""), ns).
Proof.
  intros L. destruct (is_letter_plain c L) as (Cs & Cb & Cn).
  destruct joined_names as (Hn & Hb & Ht).
  unfold parse, tokenize, sanitize. rewrite Cs.
  cbn [c_str]. rewrite Cn. change (Ascii.eqb colon NUL) with false.
  change (Ascii.eqb slash NUL) with false. cbv iota.
  rewrite (c_str_id J Hn). rewrite Cb. cbn [andb].
  cbn [replace_char]. rewrite Cb. change (Ascii.eqb colon backslash) with false.
  change (Ascii.eqb slash backslash) with false. cbv iota.
  rewrite (replace_char_id _ _ J Hb).
  cbn [tokens_from]. rewrite Cs. change (Ascii.eqb colon slash) with false.
  rewrite Ascii.eqb_refl. cbn [append String.eqb]. rewrite Ht.
  unfold drive_letter_search. cbn [drive_letter_search_from peek].
  rewrite L. rewrite Ascii.eqb_refl. reflexivity.
Qed.

Lemma parse_relative :
  match ns with [] => true | n0 :: _ => negb (drive_letter_search n0) end = true ->
  parse J = Some ("", ns).
Proof.
  intros Hd. destruct joined_names as (Hn & Hb & Ht).
  unfold J in *. destruct ns as [|n0 rest] eqn:E; [reflexivity|].
  apply negb_true_iff in Hd.
  simpl in plain_ns. apply andb_true_iff in plain_ns. destruct plain_ns as [P0 _].
  destruct (plain_name_spec n0 P0) as (Hne & Hs & Hbs & _).
  destruct n0 as [|x n0']; [congruence|].
  simpl in Hs, Hbs. apply orb_false_iff in Hs. destruct Hs as [Hx _].
  apply orb_false_iff in Hbs. destruct Hbs as [Hxb _].
  set (n0 := String x n0') in *.
  assert (EJ : exists r, String.concat "/" (n0 :: rest) = String x r).
  { unfold n0. destruct rest; simpl; eauto. }
  destruct EJ as [r EJ]. rewrite EJ in *.
  unfold parse, tokenize, sanitize. rewrite Hx.
  rewrite (c_str_id _ Hn).
  assert (E1 : match String x r with
               | String a (String b r') =>
                   if Ascii.eqb a backslash && Ascii.eqb b backslash
                   then String slash r' else String x r
               | _ => String x r
               end = String x r).
  { destruct r; [reflexivity|]. rewrite Hxb. reflexivity. }
  rewrite E1, (replace_char_id _ _ _ Hb), Ht, Hd. reflexivity.
Qed.

End Canonical.

Lemma parse_string (p : Path) :
  canonical p = true -> parse (string_ p) = Some (root p, names p).
Proof.
  unfold canonical, string_. destruct p as [r ns]. cbn [root names]. intros H.
  apply andb_true_iff in H. destruct H as [Hns H].
  apply orb_true_iff in H. destruct H as [H|H].
  - apply orb_true_iff in H. destruct H as [H|H].
    + apply String.eqb_eq in H. subst r. exact (parse_absolute ns Hns).
    + rewrite H.
      destruct r as [|c [|d [|e r]]]; try discriminate H.
      simpl in H. apply andb_true_iff in H. destruct H as [L D].
      apply Ascii.eqb_eq in D. subst d. exact (parse_drive ns Hns c L).
  - apply andb_true_iff in H. destruct H as [H Hd].
    apply String.eqb_eq in H. subst r. exact (parse_relative ns Hns Hd).
Qed.

Lemma tokenize_nil (s : string) :
  tokenize s = [] <-> forall c, mentions c s = true -> c = slash.
Proof.
  assert (G : forall s tok, tok <> "" -> tokens_from tok s <> []).
  { clear. induction s as [|c s IH]; intros tok H; simpl.
    - destruct (String.eqb_spec tok ""); [contradiction|discriminate].
    - destruct (Ascii.eqb c slash).
      + destruct (String.eqb_spec tok ""); [contradiction|discriminate].
      + apply IH. destruct tok; discriminate. }
  unfold tokenize. induction s as [|c s IH].
  - split; [discriminate|reflexivity].
  - cbn [tokens_from mentions]. destruct (Ascii.eqb_spec c slash) as [->|Hc].
    + cbn [String.eqb]. rewrite IH. split.
      * intros H x Hx. apply orb_true_iff in Hx. destruct Hx as [Hx|Hx]; [|auto].
        apply Ascii.eqb_eq in Hx. congruence.
      * intros H x Hx. apply H. rewrite Hx. apply orb_true_r.
    + split.
      * intros H. exfalso. exact (G s (String c "") ltac:(discriminate) H).
      * intros H. exfalso. apply Hc. apply H.
        rewrite Ascii.eqb_refl. reflexivity.
Qed.

Lemma replace_char_separators (s : string) :
  (forall c, mentions c (replace_char backslash slash s) = true -> c = slash)
  <-> separators_only s = true.
Proof.
  induction s as [|x s IH]; cbn [replace_char mentions separators_only].
  - split; [reflexivity|discriminate].
  - rewrite andb_true_iff, <- IH. split.
    + intros H. split.
      * destruct (Ascii.eqb_spec x backslash) as [->|Hx]; [apply orb_true_r|].
        rewrite (H x) by (rewrite Ascii.eqb_refl; reflexivity). reflexivity.
      * intros c Hc. apply H. rewrite Hc. apply orb_true_r.
    + intros [Hx H] c Hc. apply orb_true_iff in Hc. destruct Hc as [Hc|Hc]; [|auto].
      apply Ascii.eqb_eq in Hc. subst c.
      destruct (Ascii.eqb_spec x backslash); [reflexivity|].
      rewrite orb_false_r in Hx. apply Ascii.eqb_eq in Hx. exact Hx.
Qed.

(** The UNC prefix replaced by one separator. *)
Lemma unc_separators (s0 : string) :
  separators_only
    match s0 with
    | String a (String b r) =>
        if Ascii.eqb a backslash && Ascii.eqb b backslash then String slash r else s0
    | _ => s0
    end = separators_only s0.
Proof.
  destruct s0 as [|a [|b r]]; try reflexivity.
  destruct (Ascii.eqb_spec a backslash) as [->|Ha]; [|reflexivity].
  destruct (Ascii.eqb_spec b backslash) as [->|Hb]; reflexivity.
Qed.

(** What [sanitizedString] holds. *)
Lemma sanitize_separators (s : string) :
  (forall c, mentions c (sanitize s) = true -> c = slash)
  <-> separators_only (c_str s) = true.
Proof. unfold sanitize. rewrite replace_char_separators, unc_separators. reflexivity. Qed.

Lemma parse_None (s : string) :
  parse s = None <->
  s <> "" /\ peek s <> slash /\ separators_only (c_str s) = true.
Proof.
  unfold parse. destruct s as [|c s]; [split; [discriminate|intros [H _]; congruence]|].
  cbn [peek]. destruct (Ascii.eqb_spec c slash) as [->|Hc].
  - split; [discriminate|]. intros (_ & H & _). congruence.
  - rewrite <- sanitize_separators, <- tokenize_nil.
    destruct (tokenize (sanitize (String c s))) as [|n0 rest].
    + split; [|reflexivity]. intros _. repeat split; [discriminate|exact Hc].
    + destruct (drive_letter_search n0); split; try discriminate;
        intros (_ & _ & H); discriminate.
Qed.

Lemma parse_root (s : string) (r : string) (ns : list string) :
  parse s = Some (r, ns) -> (r = "/" <-> peek s = slash).
Proof.
  unfold parse. destruct s as [|c s].
  - intros [= <- _]. simpl. split; discriminate.
  - cbn [peek]. destruct (Ascii.eqb_spec c slash) as [->|Hc].
    + intros [= <- _]. split; reflexivity.
    + pose proof (tokens_from_nonempty (sanitize (String c s)) "" eq_refl) as F.
      fold (tokenize (sanitize (String c s))) in F.
      destruct (tokenize (sanitize (String c s))) as [|n0 rest]; [discriminate|].
      apply Forall_inv in F. destruct F as [_ F].
      destruct (drive_letter_search n0); intros [= <- _]; split; try congruence;
        try discriminate.
      intros E. rewrite E in F. discriminate.
Qed.

Lemma mentions_NUL_c_str (s : string) : mentions NUL (c_str s) = false.
Proof.
  induction s as [|x s IH]; cbn [c_str]; [reflexivity|].
  destruct (Ascii.eqb x NUL) eqn:E; [reflexivity|]. cbn [mentions]. rewrite E. exact IH.
Qed.

Lemma mentions_replace_char (from to c : ascii) (s : string) :
  Ascii.eqb to c = false -> mentions c s = false ->
  mentions c (replace_char from to s) = false.
Proof.
  intros Hto. induction s as [|x s IH]; cbn [replace_char mentions]; [reflexivity|].
  intros H. apply orb_false_iff in H. destruct H as [Hx Hs].
  destruct (Ascii.eqb x from); rewrite ?Hto, ?Hx, (IH Hs); reflexivity.
Qed.

Lemma mentions_replaced (from to : ascii) (s : string) :
  Ascii.eqb to from = false -> mentions from (replace_char from to s) = false.
Proof.
  intros Hto. induction s as [|x s IH]; cbn [replace_char mentions]; [reflexivity|].
  destruct (Ascii.eqb x from) eqn:E; rewrite ?Hto, ?E, IH; reflexivity.
Qed.

Lemma sanitize_plain (s : string) :
  mentions backslash (sanitize s) = false /\ mentions NUL (sanitize s) = false.
Proof.
  unfold sanitize. split; [apply mentions_replaced; reflexivity|].
  apply mentions_replace_char; [reflexivity|].
  pose proof (mentions_NUL_c_str s) as H.
  destruct (c_str s) as [|a [|b r]]; try exact H.
  destruct (Ascii.eqb a backslash && Ascii.eqb b backslash); [|exact H].
  cbn [mentions] in H |- *. apply orb_false_iff in H. destruct H as [_ H].
  apply orb_false_iff in H. destruct H as [_ H]. rewrite H. reflexivity.
Qed.

Lemma parse_names (s : string) (r : string) (ns : list string) :
  parse s = Some (r, ns) -> forallb plain_name ns = true.
Proof.
  intros H.
  destruct (sanitize_plain s) as [Hb Hn].
  pose proof (tokens_from_nonempty (sanitize s) "" eq_refl) as F1.
  pose proof (tokens_from_mentions backslash (sanitize s) "" eq_refl Hb) as F2.
  pose proof (tokens_from_mentions NUL (sanitize s) "" eq_refl Hn) as F3.
  assert (P : forallb plain_name (tokenize (sanitize s)) = true).
  { apply forallb_forall. intros t Ht. unfold tokenize in Ht.
    rewrite Forall_forall in F1, F2, F3.
    destruct (F1 t Ht) as [A B]. unfold plain_name.
    rewrite B, (F2 t Ht), (F3 t Ht). apply String.eqb_neq in A. rewrite A. reflexivity. }
  unfold parse in H. destruct s as [|c s].
  - injection H as _ <-. exact P.
  - destruct (Ascii.eqb c slash); [injection H as _ <-; exact P|].
    destruct (tokenize (sanitize (String c s))) as [|n0 rest]; [discriminate|].
    destruct (drive_letter_search n0); injection H as _ <-; [|exact P].
    simpl in P. apply andb_true_iff in P. apply P.
Qed.

(** The counters of the owners never wrap while there are fewer than
    [2^64] files. *)
Lemma count_of_insert_and_increment (value : string) (ownerCounter : list (string * N)) :
  count_of value (insert_and_increment value ownerCounter)
  = Some (size_t_wrap (match count_of value ownerCounter with
                       | Some n => n
                       | None => 0
                       end + 1)).
Proof.
  induction ownerCounter as [|[key n] rest IH]; simpl.
  - rewrite String.eqb_refl. reflexivity.
  - destruct (String.eqb key value) eqn:E; simpl; rewrite E; [reflexivity|exact IH].
Qed.

Lemma count_of_other (value key : string) (ownerCounter : list (string * N)) :
  key <> value ->
  count_of key (insert_and_increment value ownerCounter) = count_of key ownerCounter.
Proof.
  intros H. induction ownerCounter as [|[k n] rest IH]; simpl.
  - destruct (String.eqb_spec value key); [congruence|reflexivity].
  - destruct (String.eqb_spec k value) as [->|Hk]; simpl.
    + destruct (String.eqb_spec value key); [congruence|reflexivity].
    + destruct (String.eqb k key); [reflexivity|exact IH].
Qed.

Lemma last_cons {A} (l : list A) : forall a d : A, last (a :: l) d = last l a.
Proof.
  induction l as [|b l IH]; intros a d; [reflexivity|].
  change (last (a :: b :: l) d) with (last (b :: l) d). rewrite !IH. reflexivity.
Qed.

Lemma mostCommon_loop_last (values : list string) :
  forall (ownerCounter : list (string * N)) (mostCommon : string) (B : N),
  (0 < B)%N ->
  (forall key n, count_of key ownerCounter = Some n -> (n < B)%N) ->
  (B + N.of_nat (List.length values) <= 2 ^ 64)%N ->
  mostCommon_loop values ownerCounter 0 mostCommon = last values mostCommon.
Proof.
  induction values as [|value rest IH]; intros ownerCounter mc B H0 Hc HB; [reflexivity|].
  cbn [mostCommon_loop]. rewrite count_of_insert_and_increment.
  cbn [List.length] in HB. rewrite Nat2N.inj_succ in HB.
  assert (Hn : (match count_of value ownerCounter with Some n => n | None => 0 end < B)%N).
  { destruct (count_of value ownerCounter) as [n|] eqn:E; [exact (Hc _ _ E)|exact H0]. }
  set (n := match count_of value ownerCounter with Some n => n | None => 0%N end) in *.
  assert (W : size_t_wrap (n + 1) = (n + 1)%N).
  { unfold size_t_wrap. apply N.mod_small. lia. }
  rewrite W. replace (N.ltb 0 (n + 1)) with true by (symmetry; apply N.ltb_lt; lia).
  rewrite (IH _ value (B + 1)%N).
  - symmetry. apply last_cons.
  - lia.
  - intros key m Hm. destruct (String.eqb_spec key value) as [->|Hk].
    + rewrite count_of_insert_and_increment in Hm. fold n in Hm. rewrite W in Hm.
      injection Hm as <-. lia.
    + rewrite (count_of_other value key _ Hk) in Hm. specialize (Hc _ _ Hm). lia.
  - lia.
Qed.

Lemma replace_char_append (from to : ascii) (a b : string) :
  replace_char from to (a ++ b) = (replace_char from to a ++ replace_char from to b)%string.
Proof. induction a as [|x a IH]; simpl; [reflexivity|]. rewrite IH. reflexivity. Qed.

Lemma replace_char_concat (ns : list string) :
  Forall (fun t => mentions backslash t = false) ns ->
  replace_char backslash slash (String.concat "\" ns) = String.concat "/" ns.
Proof.
  induction 1 as [|t ns Ht _ IH]; [reflexivity|].
  destruct ns as [|u ns]; [apply replace_char_id; exact Ht|].
  change (String.concat "\" (t :: u :: ns))
    with (t ++ "\" ++ String.concat "\" (u :: ns))%string.
  change (String.concat "/" (t :: u :: ns))
    with (t ++ "/" ++ String.concat "/" (u :: ns))%string.
  rewrite !replace_char_append, IH, (replace_char_id _ _ t Ht). reflexivity.
Qed.

Lemma mentions_NUL_concat (sep : string) (ns : list string) :
  mentions NUL sep = false -> forallb plain_name ns = true ->
  mentions NUL (String.concat sep ns) = false.
Proof.
  intros Hsep H. apply mentions_concat; [exact Hsep|].
  apply Forall_forall. intros t Ht. rewrite forallb_forall in H.
  apply (plain_name_spec t (H t Ht)).
Qed.

(** [parse] reads the first character of the string and its sanitized
    form. *)
Lemma parse_ext (s s' : string) :
  peek s = peek s' -> (s = "" <-> s' = "") -> sanitize s = sanitize s' ->
  parse s = parse s'.
Proof.
  intros Hp He Hs. unfold parse. rewrite Hs.
  destruct s as [|c s], s' as [|c' s']; try reflexivity.
  - destruct He as [He _]. specialize (He eq_refl). discriminate.
  - destruct He as [_ He]. specialize (He eq_refl). discriminate.
  - cbn [peek] in Hp. subst c'. reflexivity.
Qed.

Lemma peek_append (a b : string) :
  peek (a ++ b) = match a with EmptyString => peek b | _ => peek a end.
Proof. destruct a; reflexivity. Qed.

Lemma peek_concat (sep : string) (ns : list string) :
  Forall (fun t => t <> "") ns ->
  peek (String.concat sep ns) = match ns with [] => NUL | n0 :: _ => peek n0 end.
Proof.
  intros H. destruct ns as [|n0 [|n1 rest]]; try reflexivity.
  apply Forall_inv in H. destruct n0; [congruence|reflexivity].
Qed.

Lemma unc_id (s : string) :
  peek s <> backslash ->
  match s with
  | String a (String b r) =>
      if Ascii.eqb a backslash && Ascii.eqb b backslash then String slash r else s
  | _ => s
  end = s.
Proof.
  destruct s as [|a [|b r]]; try reflexivity. cbn [peek]. intros H.
  destruct (Ascii.eqb_spec a backslash); [contradiction|reflexivity].
Qed.

Lemma canonical_root (p : Path) :
  canonical p = true ->
  mentions NUL (root p) = false /\ mentions backslash (root p) = false /\
  peek (root p) <> backslash /\
  (root p = "" -> drive_letter_match (root p) = false).
Proof.
  unfold canonical. destruct p as [r ns]. cbn [root names]. intros H.
  apply andb_true_iff in H. destruct H as [_ H].
  apply orb_true_iff in H. destruct H as [H|H].
  - apply orb_true_iff in H. destruct H as [H|H].
    + apply String.eqb_eq in H. subst r. repeat split; try reflexivity; discriminate.
    + destruct r as [|c [|d [|e r]]]; try discriminate H.
      simpl in H. apply andb_true_iff in H. destruct H as [L D].
      apply Ascii.eqb_eq in D. subst d.
      destruct (is_letter_plain c L) as (Cs & Cb & Cn).
      cbn [mentions peek]. rewrite Cn, Cb.
      repeat split; try reflexivity; try discriminate.
      intros E. subst c. discriminate.
  - apply andb_true_iff in H. destruct H as [H _].
    apply String.eqb_eq in H. subst r. repeat split; try reflexivity; discriminate.
Qed.

Lemma nativeString_as_string (p : Path) :
  canonical p = true ->
  peek (nativeString true p) = peek (string_ p) /\
  (nativeString true p = "" <-> string_ p = "") /\
  sanitize (nativeString true p) = sanitize (string_ p).
Proof.
  intros H. destruct (canonical_root p H) as (Rn & Rb & Rp & Rd).
  unfold canonical in H. apply andb_true_iff in H. destruct H as [Hns _].
  unfold nativeString, string_. set (r := root p) in *. set (ns := names p) in *.
  assert (Fb : Forall (fun t => mentions backslash t = false) ns).
  { apply Forall_forall. intros t Ht. rewrite forallb_forall in Hns.
    apply (plain_name_spec t (Hns t Ht)). }
  assert (Fe : Forall (fun t => t <> "") ns).
  { apply Forall_forall. intros t Ht. rewrite forallb_forall in Hns.
    apply (plain_name_spec t (Hns t Ht)). }
  pose proof (mentions_NUL_concat "\" ns eq_refl Hns) as N1.
  pose proof (mentions_NUL_concat "/" ns eq_refl Hns) as N2.
  pose proof (replace_char_concat ns Fb) as RC.
  assert (RI : replace_char backslash slash (String.concat "/" ns) = String.concat "/" ns).
  { apply replace_char_id. apply mentions_concat; [reflexivity|exact Fb]. }
  set (D1 := if drive_letter_match r then "\" else "").
  set (D2 := if drive_letter_match r then "/" else "").
  assert (ED : replace_char backslash slash D1 = D2 /\ replace_char backslash slash D2 = D2
               /\ mentions NUL D1 = false /\ mentions NUL D2 = false
               /\ (r = "" -> D1 = "" /\ D2 = "")).
  { unfold D1, D2. destruct (drive_letter_match r) eqn:E.
    - split; [reflexivity|]. split; [reflexivity|]. split; [reflexivity|].
      split; [reflexivity|]. intros C. specialize (Rd C). congruence.
    - split; [reflexivity|]. split; [reflexivity|]. split; [reflexivity|].
      split; [reflexivity|]. intros _. split; reflexivity. }
  destruct ED as (ED1 & ED2 & ND1 & ND2 & ED0).
  assert (P : peek (r ++ D1 ++ String.concat "\" ns) = peek (r ++ D2 ++ String.concat "/" ns)
              /\ peek (r ++ D1 ++ String.concat "\" ns) <> backslash).
  { rewrite !peek_append. destruct r as [|c r']; [|split; [reflexivity|exact Rp]].
    destruct (ED0 eq_refl) as [-> ->]. rewrite !(peek_concat _ ns Fe).
    split; [reflexivity|]. destruct ns as [|n0 rest]; [discriminate|].
    apply Forall_inv in Fb. apply Forall_inv in Fe.
    destruct n0 as [|x n0']; [congruence|]. cbn [peek mentions] in *.
    apply orb_false_iff in Fb. destruct Fb as [Fb _].
    intros C. subst x. discriminate. }
  destruct P as [P1 P2]. split; [exact P1|]. split.
  - destruct r as [|c r']; [|split; discriminate].
    destruct (ED0 eq_refl) as [-> ->]. cbn [append].
    destruct ns as [|n0 [|n1 rest]]; try (split; reflexivity).
    + apply Forall_inv in Fe. simpl. split; intros; contradiction.
    + apply Forall_inv in Fe. destruct n0; [congruence|]. split; discriminate.
  - unfold sanitize. rewrite !c_str_id.
    + rewrite (unc_id _ P2). rewrite (unc_id (r ++ D2 ++ String.concat "/" ns))
        by (rewrite <- P1; exact P2).
      rewrite !replace_char_append, ED1, ED2, RC, RI. reflexivity.
    + rewrite !mentions_append, Rn, ND2, N2. reflexivity.
    + rewrite !mentions_append, Rn, ND1, N1. reflexivity.
Qed.

(** X23. [setFromString( string() )] and [setFromString( nativeString() )]
    leave the path as it is and emit nothing, when the root is [/], a drive
    letter or empty and the names are what [setFromString] can make. *)
Theorem setFromString_of_string (p : Path) (msvc : bool) :
  canonical p = true ->
  setFromString p (string_ p) = Some (p, false) /\
  setFromString p (nativeString msvc p) = Some (p, false).
Proof.
  intros H.
  assert (E : setFromString p (string_ p) = Some (p, false)).
  { unfold setFromString. rewrite (parse_string p H).
    rewrite String.eqb_refl, names_eqb_refl. reflexivity. }
  split; [exact E|]. destruct msvc; [|exact E].
  destruct (nativeString_as_string p H) as (H1 & H2 & H3).
  unfold setFromString in *. rewrite (parse_ext _ _ H1 H2 H3). exact E.
Qed.

Lemma setFromString_of_string_witness :
  setFromString (mkPath "C:" ["Users"; "me"]) (string_ (mkPath "C:" ["Users"; "me"]))
  = Some (mkPath "C:" ["Users"; "me"], false) /\
  setFromString (mkPath "C:" ["Users"; "me"])
    (nativeString true (mkPath "C:" ["Users"; "me"]))
  = Some (mkPath "C:" ["Users"; "me"], false).
Proof.
  apply (setFromString_of_string (mkPath "C:" ["Users"; "me"]) true). reflexivity.
Defined.

(** X24. [setFromString] reads [newNames[0]] from an empty vector exactly
    when the string is not empty, does not begin with [/] and holds, as a C
    string, nothing but separators of either kind. *)
Theorem setFromString_out_of_bounds (p : Path) (s : string) :
  setFromString p s = None <->
  s <> "" /\ peek s <> slash /\ separators_only (c_str s) = true.
Proof.
  rewrite <- parse_None. unfold setFromString.
  destruct (parse s) as [[r ns]|]; [|split; reflexivity].
  destruct (String.eqb r (root p) && names_eqb ns (names p)); split; discriminate.
Qed.

(** X25. When [setFromString] returns, the root is [/] exactly when the
    string began with [/] (a backslash or the UNC prefix does not make it
    so), no name is empty or holds a separator of either kind or a NUL, and
    nothing was emitted exactly when the path is as it was. *)
Theorem setFromString_result (p p' : Path) (s : string) (changed : bool) :
  setFromString p s = Some (p', changed) ->
  (root p' = "/" <-> peek s = slash) /\
  forallb plain_name (names p') = true /\
  (changed = false <-> p' = p).
Proof.
  unfold setFromString. destruct (parse s) as [[r ns]|] eqn:E; [|discriminate].
  pose proof (parse_root s r ns E) as R. pose proof (parse_names s r ns E) as P.
  destruct (String.eqb r (root p) && names_eqb ns (names p)) eqn:Q.
  - apply andb_true_iff in Q. destruct Q as [Q1 Q2].
    apply String.eqb_eq in Q1. apply names_eqb_eq in Q2. subst r ns.
    intros [= <- <-]. split; [exact R|]. split; [exact P|]. split; reflexivity.
  - intros [= <- <-]. cbn [root names]. split; [exact R|]. split; [exact P|].
    split; [discriminate|]. intros C. rewrite <- C in Q. cbn [root names] in Q.
    rewrite String.eqb_refl, names_eqb_refl in Q. discriminate.
Qed.

Lemma setFromString_result_witness :
  (root (mkPath "" ["server"; "share"]) = "/" <-> peek "\\server\share" = slash) /\
  forallb plain_name (names (mkPath "" ["server"; "share"])) = true /\
  (true = false <-> mkPath "" ["server"; "share"] = mkPath "/" []).
Proof.
  apply (setFromString_result (mkPath "/" []) (mkPath "" ["server"; "share"])
           "\\server\share" true).
  reflexivity.
Defined.

(** X26. The owner that [property] gives for a file sequence of fewer
    than [2^64] files is the owner of the last file, not the most common
    one: [maxCount] is never assigned. *)
Theorem mostCommon_is_the_last (values : list string) :
  (N.of_nat (List.length values) < 2 ^ 64)%N ->
  mostCommon values = last values "".
Proof.
  intros H. unfold mostCommon. apply (mostCommon_loop_last values [] "" 1%N).
  - lia.
  - intros key n C. discriminate C.
  - lia.
Qed.

Lemma mostCommon_is_the_last_witness :
  mostCommon ["ann"; "ann"; "bob"] = last ["ann"; "ann"; "bob"] "".
Proof. apply (mostCommon_is_the_last ["ann"; "ann"; "bob"]). reflexivity. Defined.

End FileSystemPathProperties.
